(** * Chorus: a shallow embedding of the execution engine

    The development follows the TypeScript sources of [@chorus/core]:
    - [types/message.ts], [types/tool.ts], [types/agent.ts] and the
      provider, ensemble and context types: the data model;
    - [context.ts]: the shared context (key/value store, history, per-agent
      message lists, snapshot / restore / clone);
    - [validation.ts]: input and JSON-Schema validation;
    - the agent implementation ([createAgent], [run], [executeToolCall]):
      the bounded tool-use loop of an agent;
    - the conductor base utilities ([runAgent], [findAgent],
      [createEnsembleResult], [checkAbort]);
    - the parallel strategy ([runWithConcurrencyLimit],
      [createParallelConductor], [mergeResults]);
    - [conductor/strategies/voting.ts]: quorum check, ballots and the
      tallies;
    - the sequential strategy and the builder of [ensemble.ts].

    JavaScript [Map] objects are insertion-ordered and iterate in that order,
    so they are modelled as association lists with unique keys ([JsMap]);
    plain objects used as records ([Record<string, T>]) are modelled as
    [gmap string T].  Inside one [async] function the awaited calls happen
    one after another, so such a function is modelled by the sequential
    function over their outcomes; a rejected promise or a thrown error is
    the right-hand side of a sum.  Numbers are integers ([Z], [nat]) where
    the code counts, and rationals ([Q]) where it takes fractions.  A string
    is a sequence of code units below 256, one character each, so that
    [String.length] is the [length] of the JavaScript string. *)

From Stdlib Require Import ZArith QArith Qround Lia Ascii.
From stdpp Require Import gmap strings list fin_maps pretty.

Local Open Scope Z_scope.


(** ** Common JavaScript values *)

(** JSON-like values: what a tool receives as arguments, what it returns,
    and what the shared context stores under a key. *)
#[local] Unset Elimination Schemes.
Inductive JValue : Type :=
| JNull
| JBool (b : bool)
| JNum (q : Q)
| JStr (s : string)
| JArr (items : list JValue)
| JObj (fields : list (string * JValue)).
#[local] Set Elimination Schemes.

(** A thrown [Error]; only its [message] is observable in this code. *)
Record JsError : Type := mkError { error_message : string }.

(** The outcome of a call that may throw (or of an awaited promise). *)
Definition Result (A : Type) : Type := A + JsError.
Definition Ok {A} (a : A) : Result A := inl a.
Definition Throw {A} (msg : string) : Result A := inr (mkError msg).

(** ** [types/message.ts] *)

Record ToolCall : Type := mkToolCall {
  tc_id : string;
  tc_name : string;
  tc_arguments : JValue;
}.

(** The optional [id] and [timestamp] of [BaseMessage] are never read or
    written by the code below and are left out. *)
Inductive Message : Type :=
| SystemMessage (content : string)
| UserMessage (content : string)
| AssistantMessage (content : option string) (toolCalls : option (list ToolCall))
| ToolMessage (toolCallId : string) (content : string).

Definition AgentId : Type := string.

(** ** JavaScript [Map] and plain objects *)

Module JsMap.
Section JsMap.
Context {K : Type} `{EqDecision K} {X : Type}.

(** [Map<K, X>] in insertion order. *)
Definition t : Type := list (K * X).

Definition get (k : K) (m : t) : option X :=
  snd <$> List.find (fun e => bool_decide (fst e = k)) m.

Definition has (k : K) (m : t) : bool :=
  bool_decide (is_Some (get k m)).

(** [m.set(k, v)]: an existing key keeps its position. *)
Fixpoint set (k : K) (v : X) (m : t) : t :=
  match m with
  | [] => [(k, v)]
  | (k', v') :: rest =>
      if bool_decide (k' = k) then (k', v) :: rest else (k', v') :: set k v rest
  end.

Definition delete (k : K) (m : t) : t :=
  List.filter (fun e => negb (bool_decide (fst e = k))) m.

Definition keys (m : t) : list K := fst <$> m.
Definition values (m : t) : list X := snd <$> m.
Definition size (m : t) : nat := length m.

(** [new Map(entries)] and [entries.forEach(([k, v]) => m.set(k, v))]. *)
Definition set_all (entries : list (K * X)) (m : t) : t :=
  foldl (fun acc e => set (fst e) (snd e) acc) m entries.

Definition of_entries (entries : list (K * X)) : t := set_all entries [].
End JsMap.
Arguments t : clear implicits.
End JsMap.

Module JsObject.
Section JsObject.
Context {X : Type}.

(** [Object.fromEntries(iterable)]: own data properties, later entries
    overwrite earlier ones. *)
Definition fromEntries (entries : list (string * X)) : gmap string X :=
  foldl (fun o e => <[fst e := snd e]> o) ∅ entries.

(** [Object.entries(o)].  The order of a JavaScript object's keys is not
    kept by the map model; no claim depends on it. *)
Definition entries (o : gmap string X) : list (string * X) := map_to_list o.

(** [o[k] = v] on an object literal.  Assigning an array to the key
    [__proto__] goes through the inherited setter, changes the prototype
    and creates no own property. *)
Definition assign (k : string) (v : X) (o : gmap string X) : gmap string X :=
  if decide (k = "__proto__") then o else <[k := v]> o.
End JsObject.
End JsObject.

(** ** [context.ts] *)

Module Context.
Section Context.
(** The type of the values stored in [data] ([unknown] in the source). *)
Context {V : Type}.

Record ContextConfig : Type := mkContextConfig {
  initialData : option (gmap string V);
  maxHistoryLength : option Z;
  initialHistory : option (list Message);
}.

Record ContextSnapshot : Type := mkSnapshot {
  snap_data : gmap string V;
  snap_history : list Message;
  snap_agentMessages : gmap string (list Message);
  snap_timestamp : Z;
}.

(** The variables captured by the closures of one [createContext] call. *)
Record SharedContext : Type := mkContext {
  data : JsMap.t string V;
  history : list Message;
  agentMessages : JsMap.t AgentId (list Message);
  maxHistory : Z;
}.

Definition createContext (config : option ContextConfig) : SharedContext :=
  {| data := JsMap.of_entries
               (JsObject.entries (default ∅ (config ≫= initialData)));
     history := default [] (config ≫= initialHistory);
     agentMessages := [];
     maxHistory := default 1000 (config ≫= maxHistoryLength) |}.

Definition get (key : string) (c : SharedContext) : option V :=
  JsMap.get key (data c).

Definition set (key : string) (value : V) (c : SharedContext) : SharedContext :=
  {| data := JsMap.set key value (data c);
     history := history c;
     agentMessages := agentMessages c;
     maxHistory := maxHistory c |}.

Definition has (key : string) (c : SharedContext) : bool :=
  JsMap.has key (data c).

Definition delete (key : string) (c : SharedContext) : bool * SharedContext :=
  (JsMap.has key (data c),
   {| data := JsMap.delete key (data c);
      history := history c;
      agentMessages := agentMessages c;
      maxHistory := maxHistory c |}).

Definition keys (c : SharedContext) : list string := JsMap.keys (data c).

Definition clear (c : SharedContext) : SharedContext :=
  {| data := []; history := []; agentMessages := [];
     maxHistory := maxHistory c |}.

Definition getHistory (c : SharedContext) : list Message := history c.

(** [if (agentId)]: [undefined] and the empty string are falsy. *)
Definition truthy_id (agentId : option AgentId) : option AgentId :=
  match agentId with
  | Some id => if decide (id = EmptyString) then None else Some id
  | None => None
  end.

Definition addMessage (message : Message) (agentId : option AgentId)
    (c : SharedContext) : SharedContext :=
  let pushed := history c ++ [message] in
  let trimmed :=
    if Z.of_nat (length pushed) >? maxHistory c then tail pushed else pushed in
  {| data := data c;
     history := trimmed;
     agentMessages :=
       match truthy_id agentId with
       | Some id =>
           let messages := default [] (JsMap.get id (agentMessages c)) in
           JsMap.set id (messages ++ [message]) (agentMessages c)
       | None => agentMessages c
       end;
     maxHistory := maxHistory c |}.

Definition getAgentMessages (agentId : AgentId) (c : SharedContext) : list Message :=
  default [] (JsMap.get agentId (agentMessages c)).

Definition getAgentIds (c : SharedContext) : list AgentId :=
  JsMap.keys (agentMessages c).

(** [now] is the reading of [Date.now()]. *)
Definition snapshot (now : Z) (c : SharedContext) : ContextSnapshot :=
  {| snap_data := JsObject.fromEntries (data c);
     snap_history := history c;
     snap_agentMessages :=
       foldl (fun o e => JsObject.assign (fst e) (snd e) o) ∅ (agentMessages c);
     snap_timestamp := now |}.

Definition restore (s : ContextSnapshot) (c : SharedContext) : SharedContext :=
  {| data := JsMap.set_all (JsObject.entries (snap_data s)) [];
     history := snap_history s;
     agentMessages := JsMap.set_all (JsObject.entries (snap_agentMessages s)) [];
     maxHistory := maxHistory c |}.

(** The body of the inner [msgs.forEach] of [clone]: the message is added
    only while the clone has no message for this agent yet. *)
Definition clone_message (id : AgentId) (cloned : SharedContext) (msg : Message)
    : SharedContext :=
  if (length (getAgentMessages id cloned) =? 0)%nat
  then addMessage msg (Some id) cloned
  else cloned.

Definition clone (c : SharedContext) : SharedContext :=
  let cloned :=
    createContext (Some {| initialData := Some (JsObject.fromEntries (data c));
                           initialHistory := Some (history c);
                           maxHistoryLength := Some (maxHistory c) |}) in
  foldl (fun cl e => foldl (clone_message (fst e)) cl (snd e))
        cloned (agentMessages c).

(** Equality of snapshots up to the time at which they were taken. *)
Definition snapshot_eq_modulo_timestamp (s1 s2 : ContextSnapshot) : Prop :=
  snap_data s1 = snap_data s2 ∧
  snap_history s1 = snap_history s2 ∧
  snap_agentMessages s1 = snap_agentMessages s2.

(** A sequence of [addMessage] calls. *)
Definition addMessages (appends : list (Message * option AgentId))
    (c : SharedContext) : SharedContext :=
  foldl (fun acc a => addMessage (fst a) (snd a) acc) c appends.
End Context.
Arguments ContextConfig : clear implicits.
Arguments ContextSnapshot : clear implicits.
Arguments SharedContext : clear implicits.
End Context.

(** ** [types/tool.ts] and [validation.ts] *)

Definition nl : string := String "010"%char EmptyString.

Module Validation.

Record ValidationResult : Type := mkValidation {
  valid : bool;
  errors : list string;
}.

(** The per-property schema read by [validateProperty]. *)
#[local] Unset Elimination Schemes.
Inductive PropertySchema : Type := mkPropertySchema {
  ps_type : option string;
  ps_enum : option (list JValue);
  ps_minimum : option Q;
  ps_maximum : option Q;
  ps_minLength : option Q;
  ps_maxLength : option Q;
  ps_pattern : option string;
  ps_items : option PropertySchema;
}.
#[local] Set Elimination Schemes.

(** [JsonSchema] of [types/tool.ts]; [properties] keeps the order of
    [Object.entries]. *)
Record JsonSchema : Type := mkJsonSchema {
  properties : option (list (string * PropertySchema));
  required : option (list string);
  additionalProperties : option bool;
}.

Definition getJsonType (value : JValue) : string :=
  match value with
  | JNull => "null"
  | JArr _ => "array"
  | JBool _ => "boolean"
  | JNum _ => "number"
  | JStr _ => "string"
  | JObj _ => "object"
  end.

(** [Number.isInteger(value)] *)
Definition isInteger (value : JValue) : bool :=
  match value with
  | JNum q => Pos.eqb (Qden (Qred q)) 1
  | _ => false
  end.

(** [Array.prototype.includes] compares with SameValueZero: primitives by
    value, arrays and objects by identity; an argument value is never the
    very object stored in the schema. *)
Definition sameValueZero (a b : JValue) : bool :=
  match a, b with
  | JNull, JNull => true
  | JBool x, JBool y => Bool.eqb x y
  | JNum x, JNum y => Qeq_bool x y
  | JStr x, JStr y => String.eqb x y
  | _, _ => false
  end.

(** The own properties of an object value, as [Object.keys] lists
    them. *)
Definition own (key : string) (obj : list (string * JValue)) : option JValue :=
  snd <$> List.find (fun e => String.eqb (fst e) key) obj.

(** The names that every plain object inherits from [Object.prototype].
    The operator [in] and the read [obj[key]] follow the prototype
    chain, so they see these names on an object that has no such own
    property: all of them are functions, except for [__proto__], which
    reads as the prototype object. *)
Definition Object_prototype_members : list string :=
  ["constructor"; "__defineGetter__"; "__defineSetter__"; "hasOwnProperty";
   "__lookupGetter__"; "__lookupSetter__"; "isPrototypeOf";
   "propertyIsEnumerable"; "toString"; "valueOf"; "__proto__";
   "toLocaleString"].

Definition inherited (key : string) : bool :=
  existsb (String.eqb key) Object_prototype_members.

(** [key in obj] *)
Definition has_property (key : string) (obj : list (string * JValue)) : bool :=
  match own key obj with
  | Some _ => true
  | None => inherited key
  end.

Definition truthy_string (s : option string) : option string :=
  match s with
  | Some EmptyString => None
  | other => other
  end.

Section Validation.
(** Conversions and the regular-expression engine of the JavaScript
    runtime: a number in a template literal, an array element in
    [Array.prototype.join], and [new RegExp(p).test(s)], which is [None]
    when the pattern does not compile. *)
Variable Number_toString : Q -> string.
Variable String_of : JValue -> string.
Variable RegExp_test : string -> string -> option bool.

Fixpoint validateProperty (value : JValue) (schema : PropertySchema)
    (path : string) {struct schema} : list string :=
  match schema with
  | mkPropertySchema type enum minimum maximum minLength maxLength pattern items =>
    let actualType := getJsonType value in
    let wrong_type :=
      match truthy_string type with
      | Some ty =>
          negb (String.eqb ty actualType) &&
          negb (String.eqb ty "integer" && String.eqb actualType "number"
                && isInteger value)
      | None => false
      end in
    if wrong_type then
      [path +:+ ": expected " +:+ default EmptyString type +:+ ", got " +:+ actualType]
    else
      (match enum with
       | Some allowed =>
           if existsb (sameValueZero value) allowed then []
           else [path +:+ ": must be one of ["
                 +:+ String.concat ", " (String_of <$> allowed) +:+ "]"]
       | None => []
       end)
      ++
      (match value with
       | JNum q =>
           (match minimum with
            | Some lo =>
                if Qlt_le_dec q lo
                then [path +:+ ": must be >= " +:+ Number_toString lo] else []
            | None => []
            end)
           ++
           (match maximum with
            | Some hi =>
                if Qlt_le_dec hi q
                then [path +:+ ": must be <= " +:+ Number_toString hi] else []
            | None => []
            end)
       | JStr s =>
           let len := inject_Z (Z.of_nat (String.length s)) in
           (match minLength with
            | Some lo =>
                if Qlt_le_dec len lo
                then [path +:+ ": must have at least " +:+ Number_toString lo
                      +:+ " characters"] else []
            | None => []
            end)
           ++
           (match maxLength with
            | Some hi =>
                if Qlt_le_dec hi len
                then [path +:+ ": must have at most " +:+ Number_toString hi
                      +:+ " characters"] else []
            | None => []
            end)
           ++
           (match truthy_string pattern with
            | Some p =>
                match RegExp_test p s with
                | Some false => [path +:+ ": must match pattern " +:+ p]
                | _ => []
                end
            | None => []
            end)
       | JArr elements =>
           match items with
           | Some item_schema =>
               concat (imap (fun i v =>
                 validateProperty v item_schema
                   (path +:+ "[" +:+ Number_toString (inject_Z (Z.of_nat i)) +:+ "]"))
                 elements)
           | None => []
           end
       | _ => []
       end)
  end.

(** [validateProperty] at a value that is a function, as the members
    inherited from [Object.prototype] are: [getJsonType] gives
    [function], an [enum] of the schema does not include the value, and
    the checks of numbers, strings and arrays do not apply. *)
Definition validateFunction (schema : PropertySchema) (path : string)
    : list string :=
  let wrong_type :=
    match truthy_string (ps_type schema) with
    | Some ty => negb (String.eqb ty "function")
    | None => false
    end in
  if wrong_type then
    [path +:+ ": expected " +:+ default EmptyString (ps_type schema)
     +:+ ", got function"]
  else
    match ps_enum schema with
    | Some allowed =>
        [path +:+ ": must be one of ["
         +:+ String.concat ", " (String_of <$> allowed) +:+ "]"]
    | None => []
    end.

(** [if (key in obj) validateProperty(obj[key], propSchema, key)]: the
    read finds the own property, or else what the object inherits.  The
    prototype object, which [__proto__] reads as, is an object that is
    neither [null] nor an array and that no [enum] includes; for
    [validateProperty] it is like an empty object. *)
Definition validateRead (obj : list (string * JValue)) (key : string)
    (schema : PropertySchema) : list string :=
  match own key obj with
  | Some v => validateProperty v schema key
  | None =>
      if inherited key then
        if String.eqb key "__proto__"
        then validateProperty (JObj []) schema key
        else validateFunction schema key
      else []
  end.

Definition validateJsonSchema (value : JValue) (schema : JsonSchema)
    : ValidationResult :=
  match value with
  | JObj obj =>
      let missing :=
        match required schema with
        | Some fields =>
            List.flat_map (fun field =>
              if has_property field obj then []
              else ["Missing required field: " +:+ field]) fields
        | None => []
        end in
      let property_errors :=
        match properties schema with
        | Some props =>
            List.flat_map (fun e => validateRead obj (fst e) (snd e)) props
        | None => []
        end in
      let unexpected :=
        match additionalProperties schema, properties schema with
        | Some false, Some props =>
            let allowedKeys := fst <$> props in
            List.flat_map (fun key =>
              if existsb (String.eqb key) allowedKeys then []
              else ["Unexpected property: " +:+ key]) (fst <$> obj)
        | _, _ => []
        end in
      let errs := missing ++ property_errors ++ unexpected in
      {| valid := (length errs =? 0)%nat; errors := errs |}
  | _ => {| valid := false; errors := ["Expected an object"] |}
  end.
End Validation.

Record InputValidation : Type := mkInputValidation {
  input_valid : bool;
  input_error : option string;
}.

(** [validateInput(input, { maxLength })].  The argument is a JavaScript
    value because the function tests [typeof input] itself. *)
Definition validateInput (input : JValue) (maxLength_opt : option Z)
    : InputValidation :=
  let maxLength := default 100000 maxLength_opt in
  match input with
  | JStr s =>
      if (String.length s =? 0)%nat then
        {| input_valid := false; input_error := Some "Input cannot be empty" |}
      else if Z.of_nat (String.length s) >? maxLength then
        {| input_valid := false;
           input_error := Some ("Input exceeds maximum length of "
                                +:+ pretty maxLength +:+ " characters") |}
      else {| input_valid := true; input_error := None |}
  | _ => {| input_valid := false; input_error := Some "Input must be a string" |}
  end.
End Validation.

(** ** A printer for JSON values *)

Module Json.
Definition quote (s : string) : string :=
  String "034"%char s +:+ String "034"%char EmptyString.

(** [JSON.stringify] on the values that occur in the examples below:
    integer numbers, and strings in which no character needs escaping. *)
Fixpoint stringify (v : JValue) : string :=
  match v with
  | JNull => "null"
  | JBool b => if b then "true" else "false"
  | JNum q => pretty (Qnum q)
  | JStr s => quote s
  | JArr items => "[" +:+ String.concat "," (List.map stringify items) +:+ "]"
  | JObj fields =>
      "{" +:+ String.concat ","
                (List.map (fun kv => quote (fst kv) +:+ ":" +:+ stringify (snd kv))
                   fields) +:+ "}"
  end.
End Json.

(** ** [types/provider.ts], [types/agent.ts] and [agent.ts] *)

Module Agent.
Import Validation.

Record Usage : Type := mkUsage {
  promptTokens : Z;
  completionTokens : Z;
  totalTokens : Z;
}.

Inductive FinishReason : Type :=
| FinishStop | FinishToolCalls | FinishLength | FinishError.

Record Tool : Type := mkTool {
  tool_name : string;
  tool_description : string;
  tool_parameters : JsonSchema;
  (** [execute(params)]: the value it resolves to, or what it throws. *)
  execute : JValue -> Result JValue;
}.

Record GenerateConfig : Type := mkGenerateConfig {
  gc_messages : list Message;
  gc_tools : option (list Tool);
  gc_model : option string;
  gc_temperature : option Q;
  gc_maxTokens : option Z;
}.

Record GenerateResponse : Type := mkGenerateResponse {
  message : Message;
  usage : option Usage;
  finishReason : FinishReason;
}.

Record Provider : Type := mkProvider {
  provider_name : string;
  generate : GenerateConfig -> Result GenerateResponse;
}.

Record AgentConfig : Type := mkAgentConfig {
  name : string;
  description : option string;
  systemPrompt : string;
  provider : Provider;
  model : option string;
  tools : option (list Tool);
  temperature : option Q;
  maxTokens : option Z;
  maxIterations : option Z;
  (** Maximum input length in characters (default: 100000) *)
  maxInputLength : option Z;
  (** Tool execution timeout in milliseconds (default: 30000) *)
  toolTimeout : option Z;
}.

Record AgentState : Type := mkAgentState {
  messages : list Message;
  iteration : Z;
  done : bool;
  error : option JsError;
}.

Record AgentResult : Type := mkAgentResult {
  response : string;
  result_messages : list Message;
  iterations : Z;
  result_usage : option Usage;
}.

(** [signal.aborted] changes from outside while the agent runs;
    [aborted i] is the value read at the top of the loop when
    [state.iteration] is [i]. *)
Record AbortSignal : Type := mkAbortSignal { aborted : Z -> bool }.

Record RunOptions : Type := mkRunOptions { signal : option AbortSignal }.

(** Hooks observe the state of the run and may throw. *)
Record AgentHooks : Type := mkAgentHooks {
  onBeforeGenerate : option (AgentState -> Result unit);
  onAfterGenerate : option (AgentState * Message -> Result unit);
  onBeforeToolCall : option (AgentState * string * JValue -> Result unit);
  onAfterToolCall : option (AgentState * string * JValue -> Result unit);
  onError : option (AgentState * JsError -> Result unit);
}.

Record Agent : Type := mkAgent {
  agent_config : AgentConfig;
  agent_hooks : option AgentHooks;
  agent_run : string -> option RunOptions -> Result AgentResult;
}.

(** What a run does to the outside world, in order. *)
Inductive Event : Type :=
| BackendCall (request : GenerateConfig)
| ToolExecuted (toolName : string) (args : JValue).

(** The message lists sent to the backend, and the tool executions. *)
Definition backend_requests (log : list Event) : list (list Message) :=
  omap (fun e => match e with
                 | BackendCall request => Some (gc_messages request)
                 | _ => None
                 end) log.

Definition tool_executions (log : list Event) : list (string * JValue) :=
  omap (fun e => match e with
                 | ToolExecuted toolName args => Some (toolName, args)
                 | _ => None
                 end) log.

Definition DEFAULT_MAX_ITERATIONS : Z := 10.

(** [await hooks?.onX?.(...)] *)
Definition call_hook {A : Type} (hook : option (A -> Result unit)) (a : A)
    : Result unit :=
  match hook with
  | Some f => f a
  | None => Ok tt
  end.

Definition push (m : Message) (st : AgentState) : AgentState :=
  {| messages := messages st ++ [m]; iteration := iteration st;
     done := done st; error := error st |}.

Definition add_usage (total : Usage) (u : option Usage) : Usage :=
  match u with
  | Some u =>
      {| promptTokens := promptTokens total + promptTokens u;
         completionTokens := completionTokens total + completionTokens u;
         totalTokens := totalTokens total + totalTokens u |}
  | None => total
  end.

(** The last statements of [run]: the response is read off the last
    message of the list. *)
Definition final_response (msgs : list Message) : string :=
  match last msgs with
  | Some (AssistantMessage content _) => default EmptyString content
  | _ => EmptyString
  end.

(** The response as the specification words it: the content of the last
    assistant message of the list, or the empty string when there is none
    or its content is [null]. *)
Definition is_assistant (m : Message) : bool :=
  match m with
  | AssistantMessage _ _ => true
  | _ => false
  end.

Definition last_assistant_content (msgs : list Message) : string :=
  match List.find is_assistant (rev msgs) with
  | Some (AssistantMessage content _) => default EmptyString content
  | _ => EmptyString
  end.

Section Agent.
(** [JSON.stringify] of the JavaScript runtime. *)
Variable JSON_stringify : JValue -> string.

Variable config : AgentConfig.
Variable hooks : option AgentHooks.

Definition error_content (msg : string) : string :=
  JSON_stringify (JObj [("error", JStr msg)]).

Definition executeToolCall (st : AgentState) (toolCall : ToolCall)
    : Message * list Event :=
  match tools config ≫=
        List.find (fun t => String.eqb (tool_name t) (tc_name toolCall)) with
  | None =>
      (ToolMessage (tc_id toolCall)
         (error_content ("Tool '" +:+ tc_name toolCall +:+ "' not found")), [])
  | Some tool =>
      match call_hook (hooks ≫= onBeforeToolCall)
              (st, tc_name toolCall, tc_arguments toolCall) with
      | inr e =>
          (ToolMessage (tc_id toolCall) (error_content (error_message e)), [])
      | inl _ =>
          let called := [ToolExecuted (tc_name toolCall) (tc_arguments toolCall)] in
          match execute tool (tc_arguments toolCall) with
          | inr e =>
              (ToolMessage (tc_id toolCall) (error_content (error_message e)),
               called)
          | inl result =>
              match call_hook (hooks ≫= onAfterToolCall)
                      (st, tc_name toolCall, result) with
              | inr e =>
                  (ToolMessage (tc_id toolCall)
                     (error_content (error_message e)), called)
              | inl _ =>
                  (ToolMessage (tc_id toolCall)
                     match result with
                     | JStr s => s
                     | other => JSON_stringify other
                     end, called)
              end
          end
      end
  end.

(** [for (const toolCall of toolCalls) { ...; state.messages.push(toolResult) }] *)
Fixpoint dispatch (st : AgentState) (toolCalls : list ToolCall)
    (log : list Event) : AgentState * list Event :=
  match toolCalls with
  | [] => (st, log)
  | toolCall :: rest =>
      let '(toolResult, evs) := executeToolCall st toolCall in
      dispatch (push toolResult st) rest (log ++ evs)
  end.

(** The [catch] block of the loop: record the error, fire [onError],
    rethrow. *)
Definition catch_error (st : AgentState) (e : JsError) : JsError :=
  let st' := {| messages := messages st; iteration := iteration st;
                done := done st; error := Some e |} in
  match call_hook (hooks ≫= onError) (st', e) with
  | inr hook_error => hook_error
  | inl _ => e
  end.

Definition finish (st : AgentState) (totalUsage : Usage) : AgentResult :=
  {| response := final_response (messages st);
     result_messages := messages st;
     iterations := iteration st;
     result_usage := Some totalUsage |}.

Definition maxIterations_of : Z :=
  default DEFAULT_MAX_ITERATIONS (maxIterations config).

(** One turn of the [while] loop of [run], entered when the loop
    condition holds; [continue] is the rest of the loop. *)
Definition iteration_body (options : option RunOptions)
    (continue : AgentState -> Usage -> list Event ->
                Result AgentResult * list Event)
    (st : AgentState) (totalUsage : Usage) (log : list Event)
    : Result AgentResult * list Event :=
  if default false ((fun s => aborted s (iteration st)) <$> (options ≫= signal))
  then (Throw "Agent execution aborted", log)
  else
    let st := {| messages := messages st; iteration := iteration st + 1;
                 done := done st; error := error st |} in
    match call_hook (hooks ≫= onBeforeGenerate) st with
    | inr e => (inr e, log)
    | inl _ =>
      let request :=
        {| gc_messages := messages st; gc_tools := tools config;
           gc_model := model config; gc_temperature := temperature config;
           gc_maxTokens := maxTokens config |} in
      let log := log ++ [BackendCall request] in
      match generate (provider config) request with
      | inr e => (inr (catch_error st e), log)
      | inl resp =>
        let totalUsage := add_usage totalUsage (usage resp) in
        let st := push (message resp) st in
        match call_hook (hooks ≫= onAfterGenerate) (st, message resp) with
        | inr e => (inr (catch_error st e), log)
        | inl _ =>
          match finishReason resp with
          | FinishToolCalls =>
              let toolCalls :=
                match message resp with
                | AssistantMessage _ (Some calls) => calls
                | _ => []
                end in
              let '(st, log) := dispatch st toolCalls log in
              continue st totalUsage log
          | _ =>
              continue
                {| messages := messages st; iteration := iteration st;
                   done := true; error := error st |}
                totalUsage log
          end
        end
      end
    end.

(** The [while] loop of [run].  [fuel] bounds the number of iterations;
    [run] passes enough of it ([loop_fuel_enough] below). *)
Fixpoint loop (options : option RunOptions) (fuel : nat) (st : AgentState)
    (totalUsage : Usage) (log : list Event)
    : Result AgentResult * list Event :=
  match fuel with
  | O => (Ok (finish st totalUsage), log)
  | S fuel' =>
      if negb (done st) && (iteration st <? maxIterations_of)
      then iteration_body options (loop options fuel') st totalUsage log
      else (Ok (finish st totalUsage), log)
  end.

Definition initial_state (input : string) : AgentState :=
  {| messages := [SystemMessage (systemPrompt config); UserMessage input];
     iteration := 0; done := false; error := None |}.

(** [run(input, options)], together with the calls it made. *)
Definition run (input : string) (options : option RunOptions)
    : Result AgentResult * list Event :=
  loop options (Z.to_nat maxIterations_of) (initial_state input)
    {| promptTokens := 0; completionTokens := 0; totalTokens := 0 |} [].

Definition createAgent : Agent :=
  {| agent_config := config;
     agent_hooks := hooks;
     agent_run := fun input options => fst (run input options) |}.
End Agent.
End Agent.

(** ** [types/ensemble.ts], [types/conductor.ts] and [conductor/base.ts] *)

Module Conductor.
Import Agent.

Record AgentRole : Type := mkAgentRole {
  id : AgentId;
  agent : Agent;
  role : option string;
  priority : option Q;
  tags : option (list string);
}.

(** The execution trace (step records with [Date.now()] timings) is not
    part of the model. *)
Record EnsembleResult : Type := mkEnsembleResult {
  ens_response : string;
  agentResults : JsMap.t AgentId AgentResult;
  ens_usage : Usage;
}.

Inductive ErrorMode : Type := FailFast | Continue | Retry.

Record ConductorHooks : Type := mkConductorHooks {
  onStart : option (string * list AgentRole -> Result unit);
  onBeforeAgent : option (AgentId * string -> Result unit);
  onAfterAgent : option (AgentId * AgentResult -> Result unit);
  onAgentError : option (AgentId * JsError -> Result unit);
  onComplete : option (EnsembleResult -> Result unit);
}.

Record ConductorRunOptions : Type := mkConductorRunOptions {
  context : option (Context.SharedContext JValue);
  run_signal : option AbortSignal;
  run_hooks : option ConductorHooks;
}.

(** A hook that is absent, or returns normally whatever it is given. *)
Definition never_throws {A : Type} (hook : option (A -> Result unit)) : Prop :=
  forall a, call_hook hook a = Ok tt.

Definition silent (hooks : option ConductorHooks) : Prop :=
  never_throws (hooks ≫= onStart) /\ never_throws (hooks ≫= onBeforeAgent) /\
  never_throws (hooks ≫= onAfterAgent) /\ never_throws (hooks ≫= onAgentError) /\
  never_throws (hooks ≫= onComplete).

(** [checkAbort(signal)]; [reading] is the value of [signal.aborted] at
    the time of the call. *)
Definition checkAbort (signal : option AbortSignal) (reading : bool)
    : Result unit :=
  match signal with
  | Some _ => if reading then Throw "Orchestration aborted" else Ok tt
  | None => Ok tt
  end.

Definition findAgent (agents : list AgentRole) (wanted : AgentId)
    : option AgentRole :=
  List.find (fun a => String.eqb (id a) wanted) agents.

Definition requireAgent (agents : list AgentRole) (wanted : AgentId)
    : Result AgentRole :=
  match findAgent agents wanted with
  | Some a => Ok a
  | None => Throw ("Agent '" +:+ wanted +:+ "' not found in ensemble")
  end.

Definition calculateTotalUsage (results : JsMap.t AgentId AgentResult) : Usage :=
  foldl (fun total r => add_usage total (result_usage r))
        {| promptTokens := 0; completionTokens := 0; totalTokens := 0 |}
        (JsMap.values results).

Definition createEnsembleResult (response : string)
    (results : JsMap.t AgentId AgentResult) : EnsembleResult :=
  {| ens_response := response;
     agentResults := results;
     ens_usage := calculateTotalUsage results |}.

(** The [catch] block of [runAgent]. *)
Definition agent_failed (hooks : option ConductorHooks) (who : AgentId)
    (err : JsError) : JsError :=
  match call_hook (hooks ≫= onAgentError) (who, err) with
  | inr hook_error => hook_error
  | inl _ => err
  end.

(** [runAgent(agentRole, input, { context, signal, hooks, trace })]:
    the result of the agent, and the shared context afterwards. *)
Definition runAgent (agentRole : AgentRole) (input : string)
    (ctx : Context.SharedContext JValue) (signal : option AbortSignal)
    (hooks : option ConductorHooks)
    : Result AgentResult * Context.SharedContext JValue :=
  match call_hook (hooks ≫= onBeforeAgent) (id agentRole, input) with
  | inr e => (inr e, ctx)
  | inl _ =>
      match agent_run (agent agentRole) input
              (Some {| Agent.signal := signal |}) with
      | inl result =>
          let ctx' :=
            Context.addMessage (AssistantMessage (Some (response result)) None)
              (Some (id agentRole)) ctx in
          match call_hook (hooks ≫= onAfterAgent) (id agentRole, result) with
          | inl _ => (inl result, ctx')
          | inr e => (inr (agent_failed hooks (id agentRole) e), ctx')
          end
      | inr e => (inr (agent_failed hooks (id agentRole) e), ctx)
      end
  end.
End Conductor.

(** ** [conductor/strategies/parallel.ts] *)

Module Parallel.
Import Agent Conductor.

Inductive MergerType : Type :=
| Concatenate | Summarize | SelectBest | Custom
| OtherMerger (type_name : string).

Record ResultMerger : Type := mkResultMerger {
  merger_type : MergerType;
  summarizer : option Agent;
  selector : option (list AgentResult -> Result AgentResult);
  merge : option (JsMap.t AgentId AgentResult -> Result string);
  separator : option string;
}.

Record ParallelConfig : Type := mkParallelConfig {
  errorMode : option ErrorMode;
  hooks : option ConductorHooks;
  agents_to_run : option (list AgentId);
  merger : ResultMerger;
  concurrency : option Z;
}.

Definition label_of (agents : list AgentRole) (agentId : AgentId) : string :=
  default agentId (findAgent agents agentId ≫= role).

(** One element of [outputs] in the [concatenate] case. *)
Definition concatenate_block (agents : list AgentRole)
    (entry : AgentId * AgentResult) : string :=
  "[" +:+ label_of agents (fst entry) +:+ "]" +:+ nl +:+ response (snd entry).

Definition summarize_line (agents : list AgentRole)
    (entry : AgentId * AgentResult) : string :=
  "[" +:+ label_of agents (fst entry) +:+ "]: " +:+ response (snd entry).

Definition DEFAULT_SEPARATOR : string := nl +:+ nl +:+ "---" +:+ nl +:+ nl.

Definition mergeResults (results : JsMap.t AgentId AgentResult)
    (m : ResultMerger) (agents : list AgentRole) : Result string :=
  if (JsMap.size results =? 0)%nat then Ok EmptyString
  else
    match merger_type m with
    | Concatenate =>
        let sep := default DEFAULT_SEPARATOR (separator m) in
        Ok (String.concat sep (concatenate_block agents <$> results))
    | Summarize =>
        match summarizer m with
        | None => Throw "Summarizer agent required for summarize merger"
        | Some s =>
            let summaryInput :=
              String.concat (nl +:+ nl) (summarize_line agents <$> results) in
            let prompt :=
              "Summarize and synthesize the following agent responses:"
              +:+ nl +:+ nl +:+ summaryInput in
            match agent_run s prompt None with
            | inl summaryResult => Ok (response summaryResult)
            | inr e => inr e
            end
        end
    | SelectBest =>
        match selector m with
        | None => Throw "Selector function required for select-best merger"
        | Some select =>
            match select (JsMap.values results) with
            | inl best => Ok (response best)
            | inr e => inr e
            end
        end
    | Custom =>
        match merge m with
        | None => Throw "Merge function required for custom merger"
        | Some f => f results
        end
    | OtherMerger type_name => Throw ("Unknown merger type: " +:+ type_name)
    end.

(** The agents run concurrently and settle in an order the conductor does
    not control.  A schedule lists the tasks in the order in which they
    settle: the position of the task in [agentsToRun], and the value of
    [signal.aborted] that its [checkAbort] read when it was started.
    [concurrency] only restricts which orders can occur. *)
Record Settled : Type := mkSettled {
  task : nat;
  aborted_at_start : bool;
}.

Record Collected : Type := mkCollected {
  results_so_far : JsMap.t AgentId AgentResult;
  errors_so_far : list JsError;
  context_so_far : Context.SharedContext JValue;
}.

(** The callback passed to [runWithConcurrencyLimit], applied as each
    task settles; [inr] is the rejection that ends [orchestrate]. *)
Fixpoint settle (config : ParallelConfig) (input : string)
    (agentsToRun : list AgentRole) (options : option ConductorRunOptions)
    (schedule : list Settled) (acc : Collected) : Collected + JsError :=
  match schedule with
  | [] => inl acc
  | s :: rest =>
      match agentsToRun !! task s with
      | None => settle config input agentsToRun options rest acc
      | Some agentRole =>
          match checkAbort (options ≫= run_signal) (aborted_at_start s) with
          | inr e => inr e
          | inl _ =>
              match runAgent agentRole input (context_so_far acc)
                      (options ≫= run_signal) (options ≫= run_hooks) with
              | (inl result, ctx) =>
                  settle config input agentsToRun options rest
                    {| results_so_far :=
                         JsMap.set (id agentRole) result (results_so_far acc);
                       errors_so_far := errors_so_far acc;
                       context_so_far := ctx |}
              | (inr err, ctx) =>
                  match errorMode config with
                  | Some FailFast => inr err
                  | _ =>
                      settle config input agentsToRun options rest
                        {| results_so_far := results_so_far acc;
                           errors_so_far := errors_so_far acc ++ [err];
                           context_so_far := ctx |}
                  end
              end
          end
      end
  end.

Definition agentsToRun_of (config : ParallelConfig) (agents : list AgentRole)
    : list AgentRole :=
  let agentIds := default (id <$> agents) (agents_to_run config) in
  omap (findAgent agents) agentIds.

Definition is_continue (mode : option ErrorMode) : bool :=
  match mode with
  | Some Continue => true
  | _ => false
  end.

Definition orchestrate (config : ParallelConfig) (input : string)
    (agents : list AgentRole) (options : option ConductorRunOptions)
    (schedule : list Settled) : Result EnsembleResult :=
  let ctx := default (Context.createContext None) (options ≫= context) in
  match call_hook (hooks config ≫= onStart) (input, agents) with
  | inr e => inr e
  | inl _ =>
  match call_hook ((options ≫= run_hooks) ≫= onStart) (input, agents) with
  | inr e => inr e
  | inl _ =>
  let agentsToRun := agentsToRun_of config agents in
  match settle config input agentsToRun options schedule
          {| results_so_far := []; errors_so_far := [];
             context_so_far := ctx |} with
  | inr e => inr e
  | inl collected =>
      let results := results_so_far collected in
      let rethrown :=
        match errors_so_far collected with
        | first_error :: _ =>
            if negb (is_continue (errorMode config))
               && (JsMap.size results =? 0)%nat
            then Some first_error else None
        | [] => None
        end in
      match rethrown with
      | Some e => inr e
      | None =>
          match mergeResults results (merger config) agents with
          | inr e => inr e
          | inl finalResponse =>
              let ensembleResult := createEnsembleResult finalResponse results in
              match call_hook (hooks config ≫= onComplete) ensembleResult with
              | inr e => inr e
              | inl _ =>
                  match call_hook ((options ≫= run_hooks) ≫= onComplete)
                          ensembleResult with
                  | inr e => inr e
                  | inl _ => Ok ensembleResult
                  end
              end
          end
      end
  end
  end
  end.

(** The errors raised by the agents of a schedule, in the order of the
    schedule. *)
Definition raised (input : string) (agentsToRun : list AgentRole)
    (options : option ConductorRunOptions) (schedule : list Settled)
    : list JsError :=
  omap (fun s => agentsToRun !! task s ≫= fun agentRole =>
                 match agent_run (agent agentRole) input
                         (Some {| Agent.signal := options ≫= run_signal |}) with
                 | inr e => Some e
                 | inl _ => None
                 end) schedule.

(** No [checkAbort] of the schedule finds the signal aborted. *)
Definition not_cancelled (options : option ConductorRunOptions)
    (schedule : list Settled) : Prop :=
  forall s, s ∈ schedule ->
    checkAbort (options ≫= run_signal) (aborted_at_start s) = Ok tt.

(** A schedule in which every task of [agentsToRun] settles once. *)
Definition complete_schedule (config : ParallelConfig)
    (agents : list AgentRole) (schedule : list Settled) : Prop :=
  task <$> schedule ≡ₚ seq 0 (length (agentsToRun_of config agents)).
End Parallel.

(** ** [conductor/strategies/voting.ts] *)

Module Voting.
Import Agent Conductor.

Inductive VotingMethod : Type := Majority | Unanimous | Weighted | Ranked.

Record VotingConfig : Type := mkVotingConfig {
  voters : option (list AgentId);
  method : VotingMethod;
  weights : option (JsMap.t AgentId Q);
  (** Minimum participation required (0-1) *)
  quorum : option Q;
  options : option (list string);
  hooks : option ConductorHooks;
}.

Record Vote : Type := mkVote {
  vote_agentId : AgentId;
  choice : string;
  reasoning : option string;
  rank : option (list nat);
}.

(** *** Determining the voters and checking the quorum *)

Definition voters_of (config : VotingConfig) (agents : list AgentRole)
    : list AgentRole :=
  let voterIds := default (id <$> agents) (voters config) in
  omap (findAgent agents) voterIds.

(** [Math.ceil(voters.length * quorum)], with the numbers taken as exact
    rationals. *)
Definition minVoters_of (config : VotingConfig) (active : list AgentRole) : Z :=
  let q := default (1 # 2)%Q (quorum config) in
  Qceiling (inject_Z (Z.of_nat (length active)) * q)%Q.

(** The statements of [orchestrate] from "Determine voters" to the quorum
    test: the active voters, or the error thrown by the test. *)
Definition check_quorum (config : VotingConfig) (agents : list AgentRole)
    : Result (list AgentRole) :=
  let active := voters_of config agents in
  let minVoters := minVoters_of config active in
  if Z.of_nat (length active) <? minVoters then
    Throw ("Not enough voters. Need " +:+ pretty minVoters +:+ ", have "
           +:+ pretty (length active))
  else Ok active.

(** *** Parsing a ranked ballot ([collectVote], method [ranked]) *)

(** The white space of the [\s] class, of [trim] and of [parseInt].  A
    string of the model is a sequence of code units below 256, one
    character each; among these the white space and line terminators of
    JavaScript are U+0009 to U+000D, U+0020 and the no-break space
    U+00A0.  (The others, from U+1680 on, are not code units of the
    model.) *)
Definition is_space (c : ascii) : bool :=
  let n := nat_of_ascii c in
  (n =? 32)%nat || ((9 <=? n)%nat && (n <=? 13)%nat) || (n =? 160)%nat.

Definition is_separator (c : ascii) : bool :=
  is_space c || (nat_of_ascii c =? 44)%nat.

Definition is_digit (c : ascii) : bool :=
  let n := nat_of_ascii c in (48 <=? n)%nat && (n <=? 57)%nat.

Fixpoint trimStart (s : string) : string :=
  match s with
  | String c rest => if is_space c then trimStart rest else s
  | EmptyString => s
  end.

Definition trim (s : string) : string :=
  String.rev (trimStart (String.rev (trimStart s))).

(** [s.split(/[,\s]+/)] *)
Fixpoint split_go (current : string) (in_separator : bool) (s : string)
    : list string :=
  match s with
  | EmptyString => [current]
  | String c rest =>
      if is_separator c then
        if in_separator then split_go current true rest
        else current :: split_go EmptyString true rest
      else split_go (current +:+ String c EmptyString) false rest
  end.

Definition split_ranks (s : string) : list string := split_go EmptyString false s.

Fixpoint digits_value (acc : Z) (s : string) : Z :=
  match s with
  | String c rest =>
      if is_digit c
      then digits_value (10 * acc + Z.of_nat (nat_of_ascii c - 48)) rest
      else acc
  | EmptyString => acc
  end.

Definition starts_with_digit (s : string) : bool :=
  match s with
  | String c _ => is_digit c
  | EmptyString => false
  end.

(** [parseInt(s, 10)]; [None] is [NaN]. *)
Definition parseInt (s : string) : option Z :=
  match trimStart s with
  | String "-"%char rest =>
      if starts_with_digit rest then Some (- digits_value 0 rest) else None
  | String "+"%char rest =>
      if starts_with_digit rest then Some (digits_value 0 rest) else None
  | other =>
      if starts_with_digit other then Some (digits_value 0 other) else None
  end.

(** The [map] and [filter] applied to the split response. *)
Definition ranks_of (responseText : string) (votingOptions : list string)
    : list nat :=
  omap (fun piece =>
          match parseInt (trim piece) with
          | Some n =>
              let n := n - 1 in
              if (0 <=? n) && (n <? Z.of_nat (length votingOptions))
              then Some (Z.to_nat n) else None
          | None => None
          end)
       (split_ranks responseText).

(** The vote built by [collectVote] from the voter's answer
    [response], for the method [ranked]. *)
Definition ranked_vote (voter : AgentRole) (response : string)
    (votingOptions : list string) : Vote :=
  let ranks := ranks_of (trim response) votingOptions in
  {| vote_agentId := id voter;
     choice := default (default EmptyString (votingOptions !! 0%nat))
                       (votingOptions !! default 0%nat (head ranks));
     reasoning := None;
     rank := Some ranks |}.

(** *** The tally ([tallyVotes], case [ranked]) *)

(** [new Set(options)]: insertion order, first occurrence kept. *)
Definition Set_add (x : string) (s : list string) : list string :=
  if bool_decide (x ∈ s) then s else s ++ [x].

Definition Set_of (l : list string) : list string :=
  foldl (fun s x => Set_add x s) [] l.

Definition Set_delete (x : string) (s : list string) : list string :=
  List.filter (fun y => negb (bool_decide (y = x))) s.

(** [votes.map((v) => [...(v.rank ?? [])])] *)
Definition ballots_of (votes : list Vote) : list (list nat) :=
  (fun v => default [] (rank v)) <$> votes.

Section Ranked.
Variable opts : list string.

(** [ballot.find(i => options[i] !== undefined && remaining.has(options[i]))] *)
Definition firstChoice (remaining : list string) (ballot : list nat)
    : option nat :=
  List.find (fun i =>
               match opts !! i with
               | Some opt => bool_decide (opt ∈ remaining)
               | None => false
               end) ballot.

Definition count_first_choices (remaining : list string)
    (ballots : list (list nat)) : JsMap.t nat nat :=
  foldl (fun counts ballot =>
           match firstChoice remaining ballot with
           | Some first =>
               JsMap.set first (default 0%nat (JsMap.get first counts) + 1)%nat counts
           | None => counts
           end) [] ballots.

Definition totalVotes (counts : JsMap.t nat nat) : nat :=
  foldl Nat.add 0%nat (JsMap.values counts).

(** The first entry with [count > totalVotes / 2]. *)
Definition majority (counts : JsMap.t nat nat) : option (nat * nat) :=
  List.find (fun e => (totalVotes counts <? 2 * snd e)%nat) counts.

(** The loop that looks for the lowest count; [None] stands for the
    initial [minCount = Infinity], [toEliminate = -1]. *)
Definition lowest (counts : JsMap.t nat nat) : option (nat * nat) :=
  foldl (fun best e =>
           match best with
           | Some (_, minCount) => if (snd e <? minCount)%nat then Some e else best
           | None => Some e
           end) None counts.

Definition won_with (optionIndex count total : nat) : string :=
  "Voting Result (Ranked Choice): " +:+ default EmptyString (opts !! optionIndex)
  +:+ nl +:+ nl +:+ "Won with " +:+ pretty count +:+ "/" +:+ pretty total
  +:+ " votes after instant-runoff.".

Definition won_after_elimination (remaining : list string) : string :=
  "Voting Result (Ranked Choice): "
  +:+ default (default "undefined" (opts !! 0%nat)) (head remaining)
  +:+ nl +:+ nl +:+ "Won after eliminating lower-ranked options.".

(** One pass through the body of the [while] loop: the string with
    which the function is left ([return], or [break] followed by the
    statements after the loop), or the options that remain for the next
    pass. *)
Definition runoff_round (remaining : list string)
    (ballots : list (list nat)) : string + list string :=
  let counts := count_first_choices remaining ballots in
  match majority counts with
  | Some (optionIndex, count) =>
      inl (won_with optionIndex count (totalVotes counts))
  | None =>
      match lowest counts with
      | Some (toEliminate, _) =>
          match opts !! toEliminate with
          | Some optToDelete =>
              if bool_decide (optToDelete = EmptyString)
              then inr remaining
              else inr (Set_delete optToDelete remaining)
          | None => inr remaining
          end
      | None => inl (won_after_elimination remaining)
      end
  end.

(** The [while (remainingOptions.size > 1)] loop and the statements after
    it.  [None]: the loop is still running when [fuel] is used up. *)
Fixpoint runoff (fuel : nat) (remaining : list string)
    (ballots : list (list nat)) : option string :=
  if (1 <? length remaining)%nat then
    match fuel with
    | O => None
    | S fuel' =>
        match runoff_round remaining ballots with
        | inl result => Some result
        | inr remaining' => runoff fuel' remaining' ballots
        end
    end
  else Some (won_after_elimination remaining).

Definition tallyVotes_ranked (votes : list Vote) : option string :=
  let remainingOptions := Set_of opts in
  let ballots := ballots_of votes in
  runoff (S (length opts)) remainingOptions ballots.

(** The option eliminated in a round, with its number of first-place
    votes, when no option has a majority. *)
Definition eliminated_in_round (remaining : list string)
    (ballots : list (list nat)) : option (nat * nat) :=
  let counts := count_first_choices remaining ballots in
  match majority counts with
  | Some _ => None
  | None => lowest counts
  end.
End Ranked.
End Voting.

(** ** Agents used as concrete inputs *)

Module Examples.
Import Validation Agent.

(** A backend that answers [Hello!] and stops. *)
Definition hello_provider : Provider :=
  {| provider_name := "mock";
     generate := fun _ =>
       Ok {| message := AssistantMessage (Some "Hello!") None;
             usage := Some {| promptTokens := 10; completionTokens := 5;
                              totalTokens := 15 |};
             finishReason := FinishStop |} |}.

Definition hello_config (limit : option Z) : AgentConfig :=
  {| name := "assistant"; description := None;
     systemPrompt := "You are a helpful assistant.";
     provider := hello_provider; model := None; tools := None;
     temperature := None; maxTokens := None; maxIterations := None;
     maxInputLength := limit; toolTimeout := None |}.

Definition string_property : PropertySchema :=
  {| ps_type := Some "string"; ps_enum := None; ps_minimum := None;
     ps_maximum := None; ps_minLength := None; ps_maxLength := None;
     ps_pattern := None; ps_items := None |}.

(** A tool whose schema requires a string [location]. *)
Definition weather_tool : Tool :=
  {| tool_name := "get_weather";
     tool_description := "Get the weather for a location";
     tool_parameters :=
       {| properties := Some [("location", string_property)];
          required := Some ["location"];
          additionalProperties := None |};
     execute := fun _ => Ok (JStr "sunny") |}.

Definition weather_call (args : JValue) : ToolCall :=
  {| tc_id := "c1"; tc_name := "get_weather"; tc_arguments := args |}.

(** A backend that first asks for the weather tool with the given
    arguments and stops once the conversation holds the tool result. *)
Definition weather_provider (args : JValue) : Provider :=
  {| provider_name := "mock";
     generate := fun request =>
       if (length (gc_messages request) =? 2)%nat then
         Ok {| message := AssistantMessage None (Some [weather_call args]);
               usage := None; finishReason := FinishToolCalls |}
       else
         Ok {| message := AssistantMessage (Some "It is sunny.") None;
               usage := None; finishReason := FinishStop |} |}.

Definition weather_config (args : JValue) : AgentConfig :=
  {| name := "weather"; description := None;
     systemPrompt := "You report the weather.";
     provider := weather_provider args; model := None;
     tools := Some [weather_tool];
     temperature := None; maxTokens := None; maxIterations := None;
     maxInputLength := None; toolTimeout := None |}.

Definition loop_tool : Tool :=
  {| tool_name := "loop";
     tool_description := "A tool that loops";
     tool_parameters := {| properties := Some []; required := None;
                           additionalProperties := None |};
     execute := fun _ => Ok (JStr "looping") |}.

(** A backend that asks for the [loop] tool on every call, each time
    with some text of its own. *)
Definition loop_provider : Provider :=
  {| provider_name := "mock";
     generate := fun _ =>
       Ok {| message :=
               AssistantMessage (Some "Let me check.")
                 (Some [{| tc_id := "call_1"; tc_name := "loop";
                           tc_arguments := JObj [] |}]);
             usage := None; finishReason := FinishToolCalls |} |}.

Definition loop_config : AgentConfig :=
  {| name := "loop-agent"; description := None;
     systemPrompt := "You loop forever";
     provider := loop_provider; model := None; tools := Some [loop_tool];
     temperature := None; maxTokens := None; maxIterations := Some 3;
     maxInputLength := None; toolTimeout := None |}.

(** Agent roles for the conductors: an agent whose run always raises,
    and one that always answers the same text. *)
Definition failing_role (who : AgentId) (why : string) : Conductor.AgentRole :=
  {| Conductor.id := who;
     Conductor.agent :=
       {| agent_config := hello_config None; agent_hooks := None;
          agent_run := fun _ _ => Throw why |};
     Conductor.role := None; Conductor.priority := None;
     Conductor.tags := None |}.

Definition answer (text : string) : AgentResult :=
  {| response := text; result_messages := []; iterations := 1;
     result_usage := Some {| promptTokens := 0; completionTokens := 0;
                             totalTokens := 0 |} |}.

Definition answering_role (who : AgentId) (label text : string)
    : Conductor.AgentRole :=
  {| Conductor.id := who;
     Conductor.agent :=
       {| agent_config := hello_config None; agent_hooks := None;
          agent_run := fun _ _ => Ok (answer text) |};
     Conductor.role := Some label; Conductor.priority := None;
     Conductor.tags := None |}.

Definition concatenate_with (sep : string) : Parallel.ResultMerger :=
  {| Parallel.merger_type := Parallel.Concatenate;
     Parallel.summarizer := None; Parallel.selector := None;
     Parallel.merge := None; Parallel.separator := Some sep |}.

Definition parallel_config (mode : option Conductor.ErrorMode)
    (m : Parallel.ResultMerger) : Parallel.ParallelConfig :=
  {| Parallel.errorMode := mode; Parallel.hooks := None;
     Parallel.agents_to_run := None; Parallel.merger := m;
     Parallel.concurrency := None |}.

Definition in_order (tasks : list nat) : list Parallel.Settled :=
  (fun t => {| Parallel.task := t; Parallel.aborted_at_start := false |}) <$> tasks.

(** The ranked-choice scenario.  A ballot of the scenario gives, for
    option 1, option 2 and option 3 in turn, the rank that the voter
    gives to it, 1 being the most preferred.  The voter answers as the
    prompt of [collectVote] asks: with the numbers of the options from
    the most to the least preferred. *)
Definition voter (who : AgentId) : Conductor.AgentRole :=
  answering_role who who "-".

Definition scenario_rank_vectors : list (list nat) :=
  [[3; 1; 2]; [3; 1; 2]; [1; 2; 3]; [1; 2; 3]; [2; 3; 1]]%nat.

(** The number of the option that a ballot ranks at place [r]. *)
Definition option_ranked (r : nat) (ranks : list nat) : option nat :=
  (fun found => S (fst found)) <$> list_find (fun x => x = r) ranks.

Definition preference_order (ranks : list nat) : list nat :=
  omap (fun r => option_ranked r ranks) (seq 1 (length ranks)).

Definition answer_of (order : list nat) : string :=
  String.concat ", " (pretty <$> order).

Definition scenario_votes (opts : list string) : list Voting.Vote :=
  zip_with (fun who ranks =>
              Voting.ranked_vote (voter who)
                (answer_of (preference_order ranks)) opts)
    ["v1"; "v2"; "v3"; "v4"; "v5"] scenario_rank_vectors.
End Examples.

(** ** Further scenarios *)

Module Scenarios.
Import Context.

(** A context with one stored value and messages of two agents. *)
Definition two_message_context : SharedContext JValue :=
  addMessages [(AssistantMessage (Some "first") None, Some "agent1");
               (AssistantMessage (Some "second") None, Some "agent1");
               (AssistantMessage (Some "other") None, Some "agent2")]
    (set "topic" (JStr "tea") (createContext None)).
End Scenarios.

(** ** The loop of [run], one turn at a time *)

Module AgentTurn.
Import Validation Agent.

Section AgentTurn.
Variable JSON_stringify : JValue -> string.
Variable config : AgentConfig.
Variable hooks : option AgentHooks.

(** The argument of [provider.generate] in [run]. *)
Definition request_of (msgs : list Message) : GenerateConfig :=
  {| gc_messages := msgs; gc_tools := tools config;
     gc_model := model config; gc_temperature := temperature config;
     gc_maxTokens := maxTokens config |}.

(** One turn of the [while] loop in direct style: either the state, the
    usage and the calls with which the loop goes on, or the error that
    [run] rejects with and the calls made until then. *)
Definition turn (options : option RunOptions) (st : AgentState)
    (totalUsage : Usage) (log : list Event)
    : (AgentState * Usage * list Event) + (JsError * list Event) :=
  if default false ((fun s => aborted s (iteration st)) <$> (options ≫= signal))
  then inr (mkError "Agent execution aborted", log)
  else
    let st := {| messages := messages st; iteration := iteration st + 1;
                 done := done st; error := error st |} in
    match call_hook (hooks ≫= onBeforeGenerate) st with
    | inr e => inr (e, log)
    | inl _ =>
      let request := request_of (messages st) in
      let log := log ++ [BackendCall request] in
      match generate (provider config) request with
      | inr e => inr (catch_error hooks st e, log)
      | inl resp =>
        let totalUsage := add_usage totalUsage (usage resp) in
        let st := push (message resp) st in
        match call_hook (hooks ≫= onAfterGenerate) (st, message resp) with
        | inr e => inr (catch_error hooks st e, log)
        | inl _ =>
          match finishReason resp with
          | FinishToolCalls =>
              let toolCalls :=
                match message resp with
                | AssistantMessage _ (Some calls) => calls
                | _ => []
                end in
              let '(st, log) := dispatch JSON_stringify config hooks st toolCalls log in
              inl (st, totalUsage, log)
          | _ =>
              inl ({| messages := messages st; iteration := iteration st;
                      done := true; error := error st |}, totalUsage, log)
          end
        end
      end
    end.

(** The token usage that the backend reports for a request. *)
Definition usage_of_request (request : GenerateConfig) : option Usage :=
  match generate (provider config) request with
  | inl resp => usage resp
  | inr _ => None
  end.

(** The sum of the usage reports of the backend calls of a log. *)
Definition usage_of_log (log : list Event) : Usage :=
  foldl (fun total e =>
           match e with
           | BackendCall request => add_usage total (usage_of_request request)
           | _ => total
           end)
    {| promptTokens := 0; completionTokens := 0; totalTokens := 0 |} log.
End AgentTurn.

(** The tool message that answers a tool call carries its id. *)
Definition answers (toolCall : ToolCall) (m : Message) : Prop :=
  ∃ content, m = ToolMessage (tc_id toolCall) content.

Definition no_hooks_no_signal (hooks : option AgentHooks)
    (options : option RunOptions) : Prop :=
  hooks = None ∧ options ≫= signal = None.
End AgentTurn.

Module AgentScenarios.
Import Validation Agent Examples.

(** A backend that is down. *)
Definition failing_provider : Provider :=
  {| provider_name := "mock"; generate := fun _ => Throw "backend down" |}.

Definition failing_config : AgentConfig :=
  {| name := "assistant"; description := None;
     systemPrompt := "You are a helpful assistant.";
     provider := failing_provider; model := None; tools := None;
     temperature := None; maxTokens := None; maxIterations := None;
     maxInputLength := None; toolTimeout := None |}.

(** An agent that is given no iterations. *)
Definition idle_config : AgentConfig :=
  {| name := "assistant"; description := None;
     systemPrompt := "You are a helpful assistant.";
     provider := hello_provider; model := None; tools := None;
     temperature := None; maxTokens := None; maxIterations := Some 0;
     maxInputLength := None; toolTimeout := None |}.

(** A signal that was aborted before the run started. *)
Definition aborted_signal : AbortSignal := {| aborted := fun _ => true |}.
End AgentScenarios.

(** ** [conductor/strategies/sequential.ts] *)

Module Sequential.
Import Agent Conductor.

Record SequentialConfig : Type := mkSequentialConfig {
  hooks : option ConductorHooks;
  order : option (list AgentId);
  (** [transform(input, agentRole)] may throw. *)
  transform : option (string -> AgentRole -> Result string);
}.

(** What the loop over [order] has so far: the input of the next agent,
    the results and the shared context. *)
Record Progress : Type := mkProgress {
  currentInput : string;
  results_so_far : JsMap.t AgentId AgentResult;
  context_so_far : Context.SharedContext JValue;
}.

(** [if (config.transform && agentResults.size > 0) currentInput = ...] *)
Definition transformed (config : SequentialConfig) (agentRole : AgentRole)
    (p : Progress) : Result string :=
  match transform config with
  | Some f =>
      if (0 <? JsMap.size (results_so_far p))%nat
      then f (currentInput p) agentRole
      else Ok (currentInput p)
  | None => Ok (currentInput p)
  end.

(** The [for] loop of [orchestrate].  [readings k] is the value of
    [signal.aborted] that [checkAbort] reads at step [k] of the loop. *)
Fixpoint steps (config : SequentialConfig) (agents : list AgentRole)
    (options : option ConductorRunOptions) (readings : nat -> bool)
    (todo : list AgentId) (k : nat) (p : Progress) : Result Progress :=
  match todo with
  | [] => Ok p
  | agentId :: rest =>
      match checkAbort (options ≫= run_signal) (readings k) with
      | inr e => inr e
      | inl _ =>
      match requireAgent agents agentId with
      | inr e => inr e
      | inl agentRole =>
      match transformed config agentRole p with
      | inr e => inr e
      | inl input =>
      match runAgent agentRole input (context_so_far p)
              (options ≫= run_signal) (options ≫= run_hooks) with
      | (inr e, _) => inr e
      | (inl result, ctx) =>
          steps config agents options readings rest (S k)
            {| currentInput := response result;
               results_so_far := JsMap.set agentId result (results_so_far p);
               context_so_far := ctx |}
      end
      end
      end
      end
  end.

Definition order_of (config : SequentialConfig) (agents : list AgentRole)
    : list AgentId :=
  default (id <$> agents) (order config).

Definition orchestrate (config : SequentialConfig) (input : string)
    (agents : list AgentRole) (options : option ConductorRunOptions)
    (readings : nat -> bool) : Result EnsembleResult :=
  let ctx := default (Context.createContext None) (options ≫= context) in
  match call_hook (hooks config ≫= onStart) (input, agents) with
  | inr e => inr e
  | inl _ =>
  match call_hook ((options ≫= run_hooks) ≫= onStart) (input, agents) with
  | inr e => inr e
  | inl _ =>
  match steps config agents options readings (order_of config agents) 0
          {| currentInput := input; results_so_far := [];
             context_so_far := ctx |} with
  | inr e => inr e
  | inl p =>
      let ensembleResult :=
        createEnsembleResult (currentInput p) (results_so_far p) in
      match call_hook (hooks config ≫= onComplete) ensembleResult with
      | inr e => inr e
      | inl _ =>
          match call_hook ((options ≫= run_hooks) ≫= onComplete)
                  ensembleResult with
          | inr e => inr e
          | inl _ => Ok ensembleResult
          end
      end
  end
  end
  end.

(** The configuration with other hooks for the single agents. *)
Definition with_agent_hooks (config : SequentialConfig)
    (before : option (AgentId * string -> Result unit))
    (after : option (AgentId * AgentResult -> Result unit))
    (failed : option (AgentId * JsError -> Result unit)) : SequentialConfig :=
  {| hooks :=
       Some {| onStart := hooks config ≫= onStart;
               onBeforeAgent := before;
               onAfterAgent := after;
               onAgentError := failed;
               onComplete := hooks config ≫= onComplete |};
     order := order config;
     transform := transform config |}.

Definition without_transform (config : SequentialConfig) : SequentialConfig :=
  {| hooks := hooks config; order := order config; transform := None |}.
End Sequential.

Module SequentialScenarios.
Import Agent Conductor Sequential Examples.

Definition plain_pipeline : SequentialConfig :=
  {| hooks := None; order := None; transform := None |}.

(** A pipeline whose transformer always throws. *)
Definition throwing_transform : SequentialConfig :=
  {| hooks := None; order := None;
     transform := Some (fun _ _ => Throw "transform failed") |}.

Definition writer_then_editor : list AgentRole :=
  [answering_role "writer" "Writer" "a draft";
   answering_role "editor" "Editor" "the final text"].

Definition broken_then_editor : list AgentRole :=
  [failing_role "writer" "out of paper";
   answering_role "editor" "Editor" "the final text"].

Definition never_aborted : nat -> bool := fun _ => false.
End SequentialScenarios.

(** ** Readings of a parallel run *)

Module ParallelRuns.
Import Agent Conductor Parallel.

(** The configuration with another error mode. *)
Definition with_errorMode (mode : option ErrorMode) (config : ParallelConfig)
    : ParallelConfig :=
  {| errorMode := mode; hooks := hooks config;
     agents_to_run := agents_to_run config; merger := merger config;
     concurrency := concurrency config |}.


(** The prompt that the [summarize] merger builds from the results, in
    the insertion order of the mapping. *)
Definition summary_prompt (agents : list AgentRole)
    (results : JsMap.t AgentId AgentResult) : string :=
  "Summarize and synthesize the following agent responses:" +:+ nl +:+ nl
  +:+ String.concat (nl +:+ nl) (summarize_line agents <$> results).

(** [(await summarizer.run(prompt)).response] *)
Definition summarized (summarizer : Agent) (prompt : string) : Result string :=
  match agent_run summarizer prompt None with
  | inl summaryResult => Ok (response summaryResult)
  | inr e => inr e
  end.

(** [merger.selector(resultsArray).response] *)
Definition selected (select : list AgentResult -> Result AgentResult)
    (resultsArray : list AgentResult) : Result string :=
  match select resultsArray with
  | inl best => Ok (response best)
  | inr e => inr e
  end.

(** The sum of one field of the usage reports of a list of results. *)
Definition sum_usage (field : Usage -> Z) (results : list AgentResult) : Z :=
  foldr Z.add 0 ((fun r => from_option field 0 (result_usage r)) <$> results).
End ParallelRuns.

Module ParallelScenarios.
Import Agent Conductor Parallel Examples.


(** A result that reports the use of some tokens. *)
Definition costing (text : string) (tokens : Z) : AgentResult :=
  {| response := text; result_messages := []; iterations := 1;
     result_usage := Some {| promptTokens := tokens; completionTokens := 1;
                             totalTokens := tokens + 1 |} |}.
End ParallelScenarios.

(** ** [conductor/strategies/voting.ts]: single choices and the count *)

Module VotingChoice.
Import Agent Conductor Voting.

(** [s.match(/(\d+)/)]: the first maximal run of digits of [s]. *)
Fixpoint take_digits (s : string) : string :=
  match s with
  | String c rest => if is_digit c then String c (take_digits rest) else EmptyString
  | EmptyString => EmptyString
  end.

Fixpoint first_digits (s : string) : option string :=
  match s with
  | String c rest => if is_digit c then Some (take_digits s) else first_digits rest
  | EmptyString => None
  end.

(** Every character of a string passes a test. *)
Fixpoint all_chars (test : ascii -> bool) (s : string) : bool :=
  match s with
  | String c rest => test c && all_chars test rest
  | EmptyString => true
  end.

(** [Math.max(0, Math.min(choiceIndex, votingOptions.length - 1))];
    [None] is [NaN]. *)
Definition validIndex_of (responseText : string) (votingOptions : list string)
    : option Z :=
  let choiceIndex :=
    match first_digits responseText with
    | Some digits => (fun n => n - 1) <$> parseInt digits
    | None => Some 0
    end in
  (fun i => Z.max 0 (Z.min i (Z.of_nat (length votingOptions) - 1)))
    <$> choiceIndex.

(** The vote built by [collectVote] from the voter's answer, for the
    methods other than [ranked]. *)
Definition single_vote (voter : AgentRole) (response : string)
    (votingOptions : list string) : Vote :=
  {| vote_agentId := id voter;
     choice := default EmptyString
                 (validIndex_of (trim response) votingOptions ≫= fun i =>
                  votingOptions !! Z.to_nat i);
     reasoning := None;
     rank := None |}.

(** [config.weights?.get(vote.agentId) ?? 1] *)
Definition weight_of (config : VotingConfig) (v : Vote) : Q :=
  default 1%Q (weights config ≫= JsMap.get (vote_agentId v)).

(** The first loop of the cases [majority] and [weighted] of
    [tallyVotes]. *)
Definition count_votes (config : VotingConfig) (votes : list Vote)
    : JsMap.t string Q :=
  foldl (fun counts v =>
           JsMap.set (choice v)
             (default 0%Q (JsMap.get (choice v) counts) + weight_of config v)%Q
             counts)
    [] votes.

(** The second loop: [winner] and [maxCount], starting from
    [options[0]] and [0]. *)
Definition select_winner (votingOptions : list string)
    (counts : JsMap.t string Q) : option string * Q :=
  foldl (fun best e =>
           if Qlt_le_dec (snd best) (snd e) then (Some (fst e), snd e) else best)
    (votingOptions !! 0%nat, 0%Q) counts.

Definition totalWeight (config : VotingConfig) (votes : list Vote) : Q :=
  foldl (fun sum v => (sum + weight_of config v)%Q) 0%Q votes.

Section Majority.
(** A number in a template literal, and
    [((maxCount / totalWeight) * 100).toFixed(1)]. *)
Variable Number_toString : Q -> string.
Variable percentage : Q -> Q -> string.

Definition tallyVotes_majority (config : VotingConfig) (votes : list Vote)
    (votingOptions : list string) : string :=
  let '(winner, maxCount) :=
    select_winner votingOptions (count_votes config votes) in
  "Voting Result (Majority): " +:+ default "undefined" winner +:+ nl +:+ nl
  +:+ "Votes: " +:+ Number_toString maxCount +:+ "/"
  +:+ Number_toString (totalWeight config votes)
  +:+ " (" +:+ percentage maxCount (totalWeight config votes) +:+ "%)".
End Majority.
End VotingChoice.

(** ** [ensemble.ts]: the builder *)

Module Ensemble.
Import Agent Conductor.

(** The options of [EnsembleBuilder.add]. *)
Record AddOptions : Type := mkAddOptions {
  add_id : option AgentId;
  add_role : option string;
  add_priority : option Q;
  add_tags : option (list string);
}.

(** The fields of the builder that [add] and [build] read. *)
Record EnsembleBuilder : Type := mkEnsembleBuilder {
  ensembleName : string;
  ensembleDescription : option string;
  builder_agents : list AgentRole;
}.

Record EnsembleConfig : Type := mkEnsembleConfig {
  ensemble_name : string;
  ensemble_description : option string;
  ensemble_agents : list AgentRole;
}.

(** [ensemble()] *)
Definition ensemble : EnsembleBuilder :=
  {| ensembleName := EmptyString; ensembleDescription := None;
     builder_agents := [] |}.

Definition set_name (n : string) (b : EnsembleBuilder) : EnsembleBuilder :=
  {| ensembleName := n; ensembleDescription := ensembleDescription b;
     builder_agents := builder_agents b |}.

Definition id_for (a : Agent) (options : option AddOptions) : AgentId :=
  default (name (agent_config a)) (options ≫= add_id).

Definition add (a : Agent) (options : option AddOptions) (b : EnsembleBuilder)
    : Result EnsembleBuilder :=
  let new_id := id_for a options in
  if existsb (fun r => String.eqb (id r) new_id) (builder_agents b) then
    Throw ("Agent with ID '" +:+ new_id +:+ "' already exists in ensemble")
  else
    Ok {| ensembleName := ensembleName b;
          ensembleDescription := ensembleDescription b;
          builder_agents :=
            builder_agents b ++
            [{| id := new_id; agent := a;
                role := match options ≫= add_role with
                        | Some r => Some r
                        | None => description (agent_config a)
                        end;
                priority := options ≫= add_priority;
                tags := options ≫= add_tags |}] |}.

(** A chain of [add] calls; the first that throws ends it. *)
Fixpoint add_all (entries : list (Agent * option AddOptions))
    (b : EnsembleBuilder) : Result EnsembleBuilder :=
  match entries with
  | [] => Ok b
  | (a, options) :: rest =>
      match add a options b with
      | inl b' => add_all rest b'
      | inr e => inr e
      end
  end.

(** [build()], up to the call of [createEnsemble]. *)
Definition build (b : EnsembleBuilder) : Result EnsembleConfig :=
  match ensembleName b with
  | EmptyString => Throw "Ensemble name is required"
  | _ =>
      if (length (builder_agents b) =? 0)%nat
      then Throw "Ensemble must have at least one agent"
      else Ok {| ensemble_name := ensembleName b;
                 ensemble_description := ensembleDescription b;
                 ensemble_agents := builder_agents b |}
  end.
End Ensemble.

Module EnsembleScenarios.
Import Agent Conductor Ensemble Examples.

Definition hello_agent : Agent :=
  {| agent_config := hello_config None; agent_hooks := None;
     agent_run := fun _ _ => Ok (answer "Hello!") |}.

Definition as_id (who : AgentId) : option AddOptions :=
  Some {| add_id := Some who; add_role := None; add_priority := None;
          add_tags := None |}.
End EnsembleScenarios.

(** * Properties *)

(** ** Maps and objects *)

Module JsMapFacts.
Section JsMapFacts.
Context {X : Type}.
Implicit Types (m : JsMap.t string X) (o : gmap string X).

Lemma list_to_map_set (k : string) (v : X) m :
  (list_to_map (JsMap.set k v m) : gmap string X) = <[k := v]> (list_to_map m).
Proof.
  induction m as [|[k' v'] rest IH]; simpl; [done|].
  case_bool_decide as Hk; simpl.
  - subst k'. by rewrite insert_insert_eq.
  - rewrite IH. by apply insert_insert_ne.
Qed.

Lemma keys_set (k : string) (v : X) m :
  JsMap.keys (JsMap.set k v m) =
  if bool_decide (k ∈ JsMap.keys m) then JsMap.keys m else JsMap.keys m ++ [k].
Proof.
  unfold JsMap.keys.
  induction m as [|[k' v'] rest IH]; csimpl; [done|].
  destruct (decide (k' = k)) as [->|Hk].
  - rewrite !bool_decide_eq_true_2; [done | set_solver | done].
  - rewrite (bool_decide_eq_false_2 (k' = k)) by done. csimpl. rewrite IH.
    destruct (decide (k ∈ rest.*1)) as [Hin|Hin].
    + rewrite !bool_decide_eq_true_2; [done | set_solver | done].
    + rewrite !bool_decide_eq_false_2; [done | set_solver | done].
Qed.

Lemma NoDup_keys_set (k : string) (v : X) m :
  NoDup (JsMap.keys m) → NoDup (JsMap.keys (JsMap.set k v m)).
Proof.
  intros Hnd. rewrite keys_set. case_bool_decide as Hin; [done|].
  apply NoDup_app. split_and!; [done | set_solver | apply NoDup_singleton].
Qed.

Lemma elem_of_keys_set (k k' : string) (v : X) m :
  k' ∈ JsMap.keys (JsMap.set k v m) ↔ k' = k ∨ k' ∈ JsMap.keys m.
Proof. rewrite keys_set. case_bool_decide; set_solver. Qed.

Lemma set_all_spec (es : list (string * X)) m :
  NoDup (JsMap.keys m) →
  NoDup (JsMap.keys (JsMap.set_all es m)) ∧
  (∀ k, k ∈ JsMap.keys (JsMap.set_all es m) ↔ k ∈ es.*1 ∨ k ∈ JsMap.keys m) ∧
  (list_to_map (JsMap.set_all es m) : gmap string X) =
    foldl (fun o e => <[fst e := snd e]> o) (list_to_map m) es.
Proof.
  unfold JsMap.set_all.
  revert m. induction es as [|[k v] es IH]; intros m Hnd; simpl.
  - split_and!; [done | set_solver | done].
  - destruct (IH (JsMap.set k v m)) as (H1 & H2 & H3).
    { by apply NoDup_keys_set. }
    split_and!; [done | | by rewrite H3, list_to_map_set].
    intros k'. rewrite H2, elem_of_keys_set. set_solver.
Qed.

(** With unique keys, building the object entry by entry gives the map
    of the entries. *)
Lemma fromEntries_NoDup (es : list (string * X)) :
  NoDup es.*1 → JsObject.fromEntries es = list_to_map es.
Proof.
  unfold JsObject.fromEntries.
  induction es as [|e es IH] using rev_ind; intros Hnd; [done|].
  rewrite foldl_app. simpl.
  rewrite fmap_app in Hnd. apply NoDup_app in Hnd as (Hes & Hne & _).
  rewrite IH by done.
  symmetry. destruct e as [k v]. simpl in *.
  apply map_eq. intros i.
  destruct (decide (i = k)) as [->|Hik].
  - rewrite lookup_insert_eq.
    apply elem_of_list_to_map_1.
    + rewrite fmap_app. apply NoDup_app. split_and!; [done | | apply NoDup_singleton].
      intros x Hx. simpl. set_solver.
    + set_solver.
  - rewrite lookup_insert_ne by done.
    destruct (list_to_map es !! i) as [x|] eqn:Hl.
    + apply elem_of_list_to_map_1.
      * rewrite fmap_app. apply NoDup_app. split_and!; [done | | apply NoDup_singleton].
        intros y Hy. simpl. set_solver.
      * apply elem_of_list_to_map_2 in Hl. set_solver.
    + apply not_elem_of_list_to_map_1.
      apply not_elem_of_list_to_map_2 in Hl. rewrite fmap_app. set_solver.
Qed.

(** [Object.fromEntries(new Map(Object.entries(o)))] is [o] again. *)
Lemma fromEntries_of_entries o :
  JsObject.fromEntries (JsMap.of_entries (JsObject.entries o)) = o.
Proof.
  unfold JsMap.of_entries, JsObject.entries.
  destruct (set_all_spec (map_to_list o) []) as (Hnd & _ & Hmap).
  { apply NoDup_nil_2. }
  rewrite fromEntries_NoDup by exact Hnd.
  rewrite Hmap. simpl.
  change (foldl _ ∅ (map_to_list o)) with (JsObject.fromEntries (map_to_list o)).
  rewrite fromEntries_NoDup by apply NoDup_fst_map_to_list.
  apply list_to_map_to_list.
Qed.

Lemma elem_of_keys_of_entries o (k : string) :
  k ∈ JsMap.keys (JsMap.of_entries (JsObject.entries o)) ↔ is_Some (o !! k).
Proof.
  unfold JsMap.of_entries, JsObject.entries.
  destruct (set_all_spec (map_to_list o) []) as (_ & Hk & _).
  { apply NoDup_nil_2. }
  rewrite Hk. unfold JsMap.keys. simpl.
  rewrite list_elem_of_fmap. split.
  - intros [[[k' v] [-> Hin]]|Hin]; [|set_solver].
    apply elem_of_map_to_list in Hin. eauto.
  - intros [v Hv]. left. exists (k, v). split; [done|].
    by apply elem_of_map_to_list.
Qed.

(** Assignments never create an own [__proto__] property. *)
Lemma assign_no_proto (es : list (string * X)) o :
  o !! "__proto__" = None →
  foldl (fun o e => JsObject.assign (fst e) (snd e) o) o es !! "__proto__" = None.
Proof.
  revert o. induction es as [|[k v] es IH]; intros o Ho; simpl; [done|].
  apply IH. unfold JsObject.assign. case_decide; [done|].
  by rewrite lookup_insert_ne.
Qed.

Lemma assign_without_proto (es : list (string * X)) o :
  "__proto__" ∉ es.*1 →
  foldl (fun o e => JsObject.assign (fst e) (snd e) o) o es =
  foldl (fun o e => <[fst e := snd e]> o) o es.
Proof.
  revert o. induction es as [|[k v] es IH]; intros o Hes; simpl; [done|].
  rewrite IH by set_solver. unfold JsObject.assign. simpl.
  rewrite decide_False; [done | set_solver].
Qed.
End JsMapFacts.
End JsMapFacts.

(** ** The shared context *)

Module ContextFacts.
Import Context.

Section ContextFacts.
Context {V : Type}.
Implicit Types (c : SharedContext V) (s : ContextSnapshot V).

Lemma snapshot_no_proto (now : Z) c :
  snap_agentMessages (snapshot now c) !! "__proto__" = None.
Proof. apply JsMapFacts.assign_no_proto, lookup_empty. Qed.

(** Restoring a snapshot whose per-agent object has no own [__proto__]
    key and taking a snapshot again gives the same three components. *)
Lemma restore_then_snapshot (now : Z) s c :
  snap_agentMessages s !! "__proto__" = None →
  snapshot_eq_modulo_timestamp (snapshot now (restore s c)) s.
Proof.
  intros Hproto. unfold snapshot_eq_modulo_timestamp, snapshot, restore. simpl.
  split_and!; [apply JsMapFacts.fromEntries_of_entries | done |].
  rewrite JsMapFacts.assign_without_proto.
  - apply JsMapFacts.fromEntries_of_entries.
  - intros Hin.
    apply (JsMapFacts.elem_of_keys_of_entries (snap_agentMessages s)) in Hin.
    rewrite Hproto in Hin. by destruct Hin.
Qed.

(** C7. For every context [c] and every snapshot taken from any context
    [c0], [c.restore(s)] followed by [c.snapshot()] yields a snapshot
    equal to [s] in its data, history and agentMessages components, that
    is, equal modulo the timestamp. *)
Theorem restore_snapshot_roundtrip (t0 t1 : Z) (c0 c : SharedContext V) :
  snapshot_eq_modulo_timestamp
    (snapshot t1 (restore (snapshot t0 c0) c)) (snapshot t0 c0).
Proof. apply restore_then_snapshot, snapshot_no_proto. Qed.

Lemma tail_length {A} (l : list A) : length (tail l) = pred (length l).
Proof. by destruct l. Qed.

Lemma addMessage_maxHistory (m : Message) (a : option AgentId) c :
  maxHistory (addMessage m a c) = maxHistory c.
Proof. done. Qed.

Lemma addMessage_history (m : Message) (a : option AgentId) c :
  history (addMessage m a c) =
  if Z.of_nat (length (history c ++ [m])) >? maxHistory c
  then tail (history c ++ [m]) else history c ++ [m].
Proof. done. Qed.

(** The invariant of the trimming: a history within the bound stays
    within it, and holds the last elements of everything appended. *)
Lemma addMessages_history (appends : list (Message * option AgentId)) c :
  Z.of_nat (length (history c)) ≤ maxHistory c →
  let all := history c ++ appends.*1 in
  maxHistory (addMessages appends c) = maxHistory c ∧
  Z.of_nat (length (history (addMessages appends c))) ≤ maxHistory c ∧
  history (addMessages appends c) =
    drop (length all - Z.to_nat (maxHistory c)) all.
Proof.
  revert c. induction appends as [|[m a] rest IH]; intros c Hlen; csimpl.
  - rewrite app_nil_r. split_and!; [done..|].
    replace (length (history c) - Z.to_nat (maxHistory c))%nat with 0%nat by lia.
    done.
  - unfold addMessages in *. csimpl.
    assert (Hstep : Z.of_nat (length (history (addMessage m a c))) ≤ maxHistory c).
    { rewrite addMessage_history. destruct (Z.gtb_spec
        (Z.of_nat (length (history c ++ [m]))) (maxHistory c)) as [Hgt|Hle].
      - rewrite tail_length, length_app in *. simpl in *. lia.
      - lia. }
    destruct (IH (addMessage m a c)) as (Hmax & Hbound & Hhist).
    { by rewrite addMessage_maxHistory. }
    rewrite addMessage_maxHistory in *.
    split_and!; [done | done |].
    rewrite Hhist. rewrite addMessage_history.
    rewrite (cons_middle m (history c) rest.*1), (assoc_L (++)).
    destruct (Z.gtb_spec
        (Z.of_nat (length (history c ++ [m]))) (maxHistory c)) as [Hgt|Hle].
    + assert (Hfull : length (history c ++ [m]) = S (Z.to_nat (maxHistory c))).
      { rewrite length_app in *. simpl in *. lia. }
      destruct (history c ++ [m]) as [|x xs] eqn:Hxs; [done|].
      simpl in Hfull. csimpl. rewrite !length_app.
      replace (S (length xs + length rest.*1) - Z.to_nat (maxHistory c))%nat
        with (S (length xs + length rest.*1 - Z.to_nat (maxHistory c)))%nat by lia.
      done.
    + done.
Qed.

(** C8. For every context created with [maxHistoryLength] (default 1000)
    whose initial history is no longer than that bound, after any
    sequence of [addMessage] calls the history is no longer than the
    bound and consists of the most recently appended messages, in
    insertion order: it is what remains of the initial history followed
    by the appended messages once the oldest ones are dropped. *)
Theorem history_trimmed_fifo (config : option (ContextConfig V))
    (appends : list (Message * option AgentId)) :
  let bound := default 1000 (config ≫= maxHistoryLength) in
  let initial := default [] (config ≫= initialHistory) in
  let all := initial ++ appends.*1 in
  Z.of_nat (length initial) ≤ bound →
  let c := addMessages appends (createContext config) in
  Z.of_nat (length (history c)) ≤ bound ∧
  history c = drop (length all - Z.to_nat bound) all ∧
  length (history c) = (length all `min` Z.to_nat bound)%nat.
Proof.
  intros bound initial all Hinit c.
  destruct (addMessages_history appends (createContext config)) as (_ & H1 & H2).
  { exact Hinit. }
  split_and!; [exact H1 | exact H2 |].
  subst c. rewrite H2. rewrite length_drop.
  change (length all - (length all - Z.to_nat bound) =
          length all `min` Z.to_nat bound)%nat.
  lia.
Qed.
End ContextFacts.

(** The bound of the default configuration is kept after three appends to
    an empty context with [maxHistoryLength = 2]. *)
Lemma history_trimmed_fifo_witness :
  let config := Some {| initialData := None; maxHistoryLength := Some 2;
                        initialHistory := None |} in
  let appends := [(UserMessage "1", None); (UserMessage "2", None);
                  (UserMessage "3", None)] in
  let c := addMessages appends (createContext (V := JValue) config) in
  Z.of_nat (length (history c)) ≤ 2 ∧
  history c = [UserMessage "2"; UserMessage "3"] ∧
  length (history c) = 2%nat.
Proof.
  apply (history_trimmed_fifo (V := JValue)
           (Some {| initialData := None; maxHistoryLength := Some 2;
                    initialHistory := None |})
           [(UserMessage "1", None); (UserMessage "2", None);
            (UserMessage "3", None)]).
  simpl. lia.
Defined.

(** C6 (what the code does). A context that recorded two messages of
    one agent is not reproduced by [clone]: the clone's history has the
    agent's first message appended once more, and the agent's list keeps
    only its first message, so the two snapshots differ. *)
Theorem clone_is_not_a_copy :
  let m1 := AssistantMessage (Some "first") None in
  let m2 := AssistantMessage (Some "second") None in
  let c := addMessages [(m1, Some "agent1"); (m2, Some "agent1")]
             (createContext (V := JValue) None) in
  getHistory c = [m1; m2] ∧
  getAgentMessages "agent1" c = [m1; m2] ∧
  getHistory (clone c) = [m1; m2; m1] ∧
  getAgentMessages "agent1" (clone c) = [m1] ∧
  ¬ snapshot_eq_modulo_timestamp (snapshot 0 (clone c)) (snapshot 0 c).
Proof.
  simpl. split_and!; [reflexivity..|].
  intros (_ & Hhist & _). vm_compute in Hhist. discriminate Hhist.
Qed.
End ContextFacts.

(** ** The agent loop *)

Module AgentFacts.
Import Validation Agent Examples.

Section AgentFacts.
Variable JSON_stringify : JValue -> string.
Variable config : AgentConfig.
Variable hooks : option AgentHooks.


Lemma dispatch_state (st : AgentState) (calls : list ToolCall) (log : list Event) :
  iteration (dispatch JSON_stringify config hooks st calls log).1 = iteration st ∧
  done (dispatch JSON_stringify config hooks st calls log).1 = done st.
Proof.
  revert st log. induction calls as [|call rest IH]; intros st log; simpl; [done|].
  destruct (executeToolCall _ _ _ st call) as [toolResult evs].
  destruct (IH (push toolResult st) (log ++ evs)) as [-> ->]. split; reflexivity.
Qed.

(** A turn of the loop hands over to the rest of the loop a state whose
    iteration counter is one higher. *)
Lemma iteration_body_ext (options : option RunOptions)
    (k1 k2 : AgentState → Usage → list Event → Result AgentResult * list Event)
    (st : AgentState) (u : Usage) (log : list Event) :
  (∀ st' u' log', iteration st' = iteration st + 1 → k1 st' u' log' = k2 st' u' log') →
  iteration_body JSON_stringify config hooks options k1 st u log =
  iteration_body JSON_stringify config hooks options k2 st u log.
Proof.
  intros Hk. unfold iteration_body.
  destruct (default false _); [reflexivity|].
  destruct (call_hook _ _); [|reflexivity].
  destruct (generate _ _) as [resp|e]; [|reflexivity].
  destruct (call_hook _ _); [|reflexivity].
  destruct (finishReason resp); try (apply Hk; reflexivity).
  match goal with
  | |- context [dispatch _ _ _ ?st0 ?calls ?log0] =>
      pose proof (dispatch_state st0 calls log0) as [Hit _];
      destruct (dispatch JSON_stringify config hooks st0 calls log0) as [st' log']
  end.
  apply Hk. exact Hit.
Qed.

(** The loop never stops for lack of fuel: with as much fuel as there
    are iterations left, more fuel changes nothing. *)
Lemma loop_fuel_enough (options : option RunOptions) (fuel : nat)
    (st : AgentState) (u : Usage) (log : list Event) :
  (Z.to_nat (maxIterations_of config - iteration st) ≤ fuel)%nat →
  loop JSON_stringify config hooks options (S fuel) st u log =
  loop JSON_stringify config hooks options fuel st u log.
Proof.
  revert st u log. induction fuel as [|fuel IH]; intros st u log Hfuel.
  - simpl. destruct (Z.ltb_spec (iteration st) (maxIterations_of config)); [lia|].
    by rewrite andb_false_r.
  - change (loop JSON_stringify config hooks options (S (S fuel)) st u log)
      with (if negb (done st) && (iteration st <? maxIterations_of config)
            then iteration_body JSON_stringify config hooks options
                   (loop JSON_stringify config hooks options (S fuel)) st u log
            else (Ok (finish st u), log)).
    change (loop JSON_stringify config hooks options (S fuel) st u log)
      with (if negb (done st) && (iteration st <? maxIterations_of config)
            then iteration_body JSON_stringify config hooks options
                   (loop JSON_stringify config hooks options fuel) st u log
            else (Ok (finish st u), log)).
    destruct (Z.ltb_spec (iteration st) (maxIterations_of config)) as [Hlt|Hge];
      [|by rewrite andb_false_r].
    destruct (negb (done st)); [|reflexivity]. simpl.
    apply iteration_body_ext. intros st' u' log' Hit. apply IH. lia.
Qed.

(** [run] passes enough fuel: any larger amount gives the same outcome. *)
Lemma run_fuel_enough (input : string) (options : option RunOptions)
    (extra : nat) :
  loop JSON_stringify config hooks options
    (Z.to_nat (maxIterations_of config) + extra) (initial_state config input)
    {| promptTokens := 0; completionTokens := 0; totalTokens := 0 |} [] =
  run JSON_stringify config hooks input options.
Proof.
  induction extra as [|extra IH].
  - by rewrite Nat.add_0_r.
  - rewrite Nat.add_succ_r, loop_fuel_enough; [exact IH|].
    simpl. lia.
Qed.

Lemma iteration_body_response (options : option RunOptions)
    (k : AgentState → Usage → list Event → Result AgentResult * list Event)
    (st : AgentState) (u : Usage) (log : list Event)
    (r : AgentResult) (evs : list Event) :
  (∀ st' u' log', k st' u' log' = (inl r, evs) →
                  response r = final_response (result_messages r)) →
  iteration_body JSON_stringify config hooks options k st u log = (inl r, evs) →
  response r = final_response (result_messages r).
Proof.
  intros Hk. unfold iteration_body.
  destruct (default false _); [discriminate|].
  destruct (call_hook _ _); [|discriminate].
  destruct (generate _ _) as [resp|e]; [|discriminate].
  destruct (call_hook _ _); [|discriminate].
  destruct (finishReason resp); try apply Hk.
  destruct (dispatch _ _ _ _ _ _) as [st' log']. apply Hk.
Qed.

Lemma loop_response (options : option RunOptions) (fuel : nat)
    (st : AgentState) (u : Usage) (log : list Event)
    (r : AgentResult) (evs : list Event) :
  loop JSON_stringify config hooks options fuel st u log = (inl r, evs) →
  response r = final_response (result_messages r).
Proof.
  revert st u log. induction fuel as [|fuel IH]; intros st u log; simpl.
  - intros [= <- _]. reflexivity.
  - destruct (negb (done st) && (iteration st <? maxIterations_of config)).
    + apply iteration_body_response. intros st' u' log'. apply IH.
    + intros [= <- _]. reflexivity.
Qed.

Lemma final_response_assistant (msgs : list Message) (content : option string)
    (calls : option (list ToolCall)) :
  last msgs = Some (AssistantMessage content calls) →
  final_response msgs = last_assistant_content msgs.
Proof.
  intros Hlast. unfold final_response, last_assistant_content. rewrite Hlast.
  destruct msgs as [|m msgs _] using rev_ind; [done|].
  rewrite last_snoc in Hlast. injection Hlast as ->.
  by rewrite rev_unit.
Qed.

(** C3 (amended). For every run of the agent loop that returns an
    [AgentResult], the response is read off the last element of the final
    message list: it is that message's content when the message is an
    assistant message (the empty string when the content is [null]), and
    the empty string otherwise.  So the response is the content of the
    last assistant message whenever that message ends the list, and it is
    empty whenever a tool-result message ends the list, as in a run that
    is stopped by [maxIterations] right after a tool dispatch. *)
Theorem run_response_is_last_message (input : string)
    (options : option RunOptions) (r : AgentResult) (evs : list Event) :
  run JSON_stringify config hooks input options = (inl r, evs) →
  response r =
    match last (result_messages r) with
    | Some (AssistantMessage content _) => default EmptyString content
    | _ => EmptyString
    end ∧
  (∀ content calls,
     last (result_messages r) = Some (AssistantMessage content calls) →
     response r = last_assistant_content (result_messages r)) ∧
  (∀ toolCallId content,
     last (result_messages r) = Some (ToolMessage toolCallId content) →
     response r = EmptyString).
Proof.
  intros Hrun. apply loop_response in Hrun.
  split_and!.
  - exact Hrun.
  - intros content calls Hlast. rewrite Hrun. by eapply final_response_assistant.
  - intros toolCallId content Hlast. rewrite Hrun. unfold final_response.
    by rewrite Hlast.
Qed.
End AgentFacts.

(** The one-shot agent: the response is the content of the assistant
    message that ends the list. *)
Lemma run_response_is_last_message_witness :
  ∃ r evs,
    run Json.stringify (hello_config None) None "hi" None = (inl r, evs) ∧
    response r = "Hello!" ∧
    last (result_messages r) = Some (AssistantMessage (Some "Hello!") None) ∧
    response r = last_assistant_content (result_messages r).
Proof.
  eexists _, _. split; [reflexivity|].
  destruct (run_response_is_last_message Json.stringify (hello_config None)
              None "hi" None _ _ eq_refl) as (H1 & H2 & _).
  split_and!; [exact H1 | reflexivity | exact (H2 _ _ eq_refl)].
Defined.

(** C3 (as stated) fails: the agent of the [maxIterations] test, with a
    backend that puts text next to each tool call, returns after three
    iterations with a tool result as last message; the response is empty
    although the last assistant message has content. *)
Lemma response_is_not_last_assistant_content :
  ∃ r evs,
    run Json.stringify loop_config None "Loop!" None = (inl r, evs) ∧
    iterations r = 3 ∧
    last (result_messages r) = Some (ToolMessage "call_1" "looping") ∧
    last_assistant_content (result_messages r) = "Let me check." ∧
    response r = EmptyString ∧
    response r ≠ last_assistant_content (result_messages r).
Proof.
  eexists _, _. split; [reflexivity|].
  split_and!; [reflexivity.. | discriminate].
Qed.

(** C1 (what the code does). [run] never looks at the input before the
    first backend call: an empty input and an input longer than
    [maxInputLength], both rejected by [validateInput], are sent to the
    backend and answered. *)
Theorem run_does_not_validate_input (JSON_stringify : JValue -> string) :
  let long := "a question of more than ten characters" in
  input_valid (validateInput (JStr EmptyString) (maxInputLength (hello_config None)))
    = false ∧
  input_valid (validateInput (JStr long) (maxInputLength (hello_config (Some 10))))
    = false ∧
  (∃ r evs,
     run JSON_stringify (hello_config None) None EmptyString None = (inl r, evs) ∧
     response r = "Hello!" ∧
     backend_requests evs =
       [[SystemMessage "You are a helpful assistant."; UserMessage EmptyString]]) ∧
  (∃ r evs,
     run JSON_stringify (hello_config (Some 10)) None long None = (inl r, evs) ∧
     response r = "Hello!" ∧
     backend_requests evs =
       [[SystemMessage "You are a helpful assistant."; UserMessage long]]).
Proof.
  split_and!; [reflexivity | reflexivity | |];
    eexists _, _; split_and!; reflexivity.
Qed.

(** C4 (what the code does). [executeToolCall] hands the arguments to
    [execute] without consulting the tool's schema: arguments that lack
    the required [location], or give it as a number, are rejected by
    [validateJsonSchema] and yet the tool is executed with them, and its
    result, not an error, is sent back to the model. *)
Theorem executeToolCall_does_not_validate
    (Number_toString : Q -> string) (String_of : JValue -> string)
    (RegExp_test : string -> string -> option bool)
    (JSON_stringify : JValue -> string) :
  let validate args :=
    validateJsonSchema Number_toString String_of RegExp_test args
      (tool_parameters weather_tool) in
  let dispatch_one args :=
    executeToolCall JSON_stringify (weather_config args) None
      (initial_state (weather_config args) "weather?") (weather_call args) in
  validate (JObj []) =
    {| valid := false; errors := ["Missing required field: location"] |} ∧
  validate (JObj [("location", JNum 42)]) =
    {| valid := false; errors := ["location: expected string, got number"] |} ∧
  dispatch_one (JObj []) =
    (ToolMessage "c1" "sunny", [ToolExecuted "get_weather" (JObj [])]) ∧
  dispatch_one (JObj [("location", JNum 42)]) =
    (ToolMessage "c1" "sunny",
     [ToolExecuted "get_weather" (JObj [("location", JNum 42)])]) ∧
  (∃ r evs,
     run JSON_stringify (weather_config (JObj [])) None "weather?" None
       = (inl r, evs) ∧
     tool_executions evs = [("get_weather", JObj [])] ∧
     result_messages r =
       [SystemMessage "You report the weather."; UserMessage "weather?";
        AssistantMessage None (Some [weather_call (JObj [])]);
        ToolMessage "c1" "sunny";
        AssistantMessage (Some "It is sunny.") None]).
Proof.
  split_and!; [reflexivity.. |].
  eexists _, _; split_and!; reflexivity.
Qed.
End AgentFacts.

(** ** The parallel conductor *)

Module ParallelFacts.
Import Agent Conductor Parallel Examples.

Section AllFail.
Variable config : ParallelConfig.
Variable input : string.
Variable agents : list AgentRole.
Variable options : option ConductorRunOptions.

Let agentsToRun := agentsToRun_of config agents.
Let run_of (agentRole : AgentRole) : Result AgentResult :=
  agent_run (agent agentRole) input
    (Some {| Agent.signal := options ≫= run_signal |}).

Hypothesis run_hooks_silent : silent (options ≫= run_hooks).
Hypothesis every_run_raises :
  ∀ agentRole, agentRole ∈ agentsToRun → ∃ e, run_of agentRole = inr e.

Lemma runAgent_raises (agentRole : AgentRole) (e : JsError)
    (ctx : Context.SharedContext JValue) :
  run_of agentRole = inr e →
  runAgent agentRole input ctx (options ≫= run_signal) (options ≫= run_hooks)
    = (inr e, ctx).
Proof.
  intros Hrun. destruct run_hooks_silent as (_ & Hbefore & _ & Herror & _).
  unfold runAgent, agent_failed. rewrite Hbefore. simpl.
  unfold run_of in Hrun. rewrite Hrun. by rewrite Herror.
Qed.

Lemma settle_all_fail (schedule : list Settled) (acc : Collected) :
  not_cancelled options schedule →
  settle config input agentsToRun options schedule acc =
    match errorMode config, raised input agentsToRun options schedule with
    | Some FailFast, e :: _ => inr e
    | _, errs =>
        inl {| results_so_far := results_so_far acc;
               errors_so_far := errors_so_far acc ++ errs;
               context_so_far := context_so_far acc |}
    end.
Proof.
  revert acc. induction schedule as [|s rest IH]; intros acc Hok.
  - simpl. destruct acc. simpl. rewrite app_nil_r.
    by destruct (errorMode config) as [[]|].
  - assert (Hrest : not_cancelled options rest).
    { intros s' Hs'. apply Hok. by right. }
    specialize (IH) with (1 := Hrest).
    unfold raised in *. csimpl.
    destruct (agentsToRun !! task s) as [agentRole|] eqn:Hlookup; csimpl.
    2: { apply IH. }
    rewrite (Hok s) by left.
    destruct (every_run_raises agentRole) as [e He].
    { by eapply list_elem_of_lookup_2. }
    rewrite (runAgent_raises _ e) by done. unfold run_of in He. rewrite He. csimpl.
    destruct (errorMode config) as [[]|] eqn:Hmode; [done|..];
      rewrite IH; simpl; by rewrite <- (assoc_L (++)).
Qed.
End AllFail.

(** C2 (amended). In a parallel-conductor run whose hooks do not throw
    and which is not cancelled, with at least one agent selected and the
    run of every selected agent raising an error: when [errorMode] is not
    [continue] (unset, [fail-fast] or [retry]) the conductor raises the
    error of the agent that settles first; when [errorMode] is
    [continue] it raises nothing and returns an ensemble result with the
    empty string as response and no agent results. *)
Theorem all_agents_fail (config : ParallelConfig) (input : string)
    (agents : list AgentRole) (options : option ConductorRunOptions)
    (schedule : list Settled) :
  silent (hooks config) →
  silent (options ≫= run_hooks) →
  complete_schedule config agents schedule →
  not_cancelled options schedule →
  agentsToRun_of config agents ≠ [] →
  (∀ agentRole, agentRole ∈ agentsToRun_of config agents →
     ∃ e, agent_run (agent agentRole) input
            (Some {| Agent.signal := options ≫= run_signal |}) = inr e) →
  ∃ first later agentRole e,
    schedule = first :: later ∧
    agentsToRun_of config agents !! task first = Some agentRole ∧
    agent_run (agent agentRole) input
      (Some {| Agent.signal := options ≫= run_signal |}) = inr e ∧
    orchestrate config input agents options schedule =
      if is_continue (errorMode config)
      then Ok {| ens_response := EmptyString; agentResults := [];
                 ens_usage := {| promptTokens := 0; completionTokens := 0;
                                 totalTokens := 0 |} |}
      else inr e.
Proof.
  intros Hcfg Hrun Hsched Hok Hne Hfail.
  destruct schedule as [|first later].
  { unfold complete_schedule in Hsched. simpl in Hsched.
    symmetry in Hsched. apply Permutation_nil_r in Hsched.
    destruct (agentsToRun_of config agents); [done | discriminate]. }
  assert (Hidx : (task first < length (agentsToRun_of config agents))%nat).
  { assert (Hin : task first ∈ seq 0 (length (agentsToRun_of config agents))).
    { rewrite <- Hsched. csimpl. left. }
    apply elem_of_seq in Hin. lia. }
  apply lookup_lt_is_Some_2 in Hidx as [agentRole Hrole].
  destruct (Hfail agentRole) as [e He].
  { by eapply list_elem_of_lookup_2. }
  exists first, later, agentRole, e. split_and!; [done..|].
  unfold orchestrate.
  destruct Hcfg as (Hstart & _ & _ & _ & Hcomplete).
  destruct Hrun as (Hstart' & Hrest'). pose proof Hrest' as (_ & _ & _ & Hcomplete').
  rewrite Hstart, Hstart'.
  rewrite (settle_all_fail config input agents options
             (conj Hstart' Hrest') Hfail (first :: later) _ Hok).
  unfold raised. csimpl. rewrite Hrole. csimpl. rewrite He. csimpl.
  destruct (errorMode config) as [[]|]; simpl; try reflexivity.
  unfold createEnsembleResult, calculateTotalUsage. simpl.
  by rewrite Hcomplete, Hcomplete'.
Qed.

(** Two agents that both raise, settling in the order second, first. *)
Lemma all_agents_fail_witness :
  ∃ first later agentRole e,
    in_order [1; 0]%nat = first :: later ∧
    [failing_role "a" "boom a"; failing_role "b" "boom b"] !! task first
      = Some agentRole ∧
    agent_run (agent agentRole) "input" (Some {| Agent.signal := None |}) = inr e ∧
    orchestrate (parallel_config (Some Retry) (concatenate_with " | ")) "input"
      [failing_role "a" "boom a"; failing_role "b" "boom b"] None
      (in_order [1; 0]%nat) = inr e.
Proof.
  apply (all_agents_fail (parallel_config (Some Retry) (concatenate_with " | "))
           "input" [failing_role "a" "boom a"; failing_role "b" "boom b"]
           None (in_order [1; 0]%nat)).
  - repeat split.
  - repeat split.
  - apply perm_swap.
  - intros s _. reflexivity.
  - discriminate.
  - intros agentRole Hin. vm_compute in Hin.
    apply elem_of_cons in Hin as [->|Hin]; [by eexists|].
    apply elem_of_cons in Hin as [->|Hin]; [by eexists|].
    by apply elem_of_nil in Hin.
Defined.

(** C2 (as stated) fails: with [errorMode: "continue"] and two agents
    whose runs both raise, the conductor raises nothing and resolves with
    an empty response. *)
Lemma continue_mode_swallows_all_errors :
  let agents := [failing_role "a" "boom a"; failing_role "b" "boom b"] in
  (∀ agentRole, agentRole ∈ agents →
     ∃ e, agent_run (agent agentRole) "input"
            (Some {| Agent.signal := None |}) = inr e) ∧
  orchestrate (parallel_config (Some Continue) (concatenate_with " | ")) "input"
    agents None (in_order [0; 1]%nat)
  = Ok {| ens_response := EmptyString; agentResults := [];
          ens_usage := {| promptTokens := 0; completionTokens := 0;
                          totalTokens := 0 |} |}.
Proof.
  split; [|reflexivity].
  intros agentRole Hin.
  apply elem_of_cons in Hin as [->|Hin]; [by eexists|].
  apply elem_of_cons in Hin as [->|Hin]; [by eexists|].
  by apply elem_of_nil in Hin.
Qed.

Lemma concatenate_total (results : JsMap.t AgentId AgentResult)
    (m : ResultMerger) (agents : list AgentRole) :
  merger_type m = Concatenate →
  mergeResults results m agents =
    Ok (String.concat (default DEFAULT_SEPARATOR (separator m))
          (concatenate_block agents <$> results)).
Proof.
  intros Hty. unfold mergeResults. rewrite Hty.
  by destruct results.
Qed.

(** C9 (amended). For two result mappings that hold the same
    id-to-result associations in different insertion orders (the
    mapping is filled in the order in which the agents complete):
    [concatenate] joins the labelled blocks of each mapping in that
    mapping's own order, the same blocks in a possibly different order;
    [summarize] runs the summarizer once, on the prompt that lists the
    labelled responses in the mapping's own order, and returns its
    response or its error, the two prompts listing the same lines in a
    possibly different order; [select-best] hands the results to the
    selector in the mapping's order and [custom] hands the mapping to
    the merge function, and each gives the same output for both
    mappings provided the caller's function returns the same value on
    reordered arguments; mappings that hold at most one result are the
    same mapping. *)
Theorem merge_of_reordered_results (m : ResultMerger)
    (agents : list AgentRole) (r1 r2 : JsMap.t AgentId AgentResult) :
  r1 ≡ₚ r2 →
  (merger_type m = Concatenate →
     let sep := default DEFAULT_SEPARATOR (separator m) in
     mergeResults r1 m agents =
       Ok (String.concat sep (concatenate_block agents <$> r1)) ∧
     mergeResults r2 m agents =
       Ok (String.concat sep (concatenate_block agents <$> r2)) ∧
     concatenate_block agents <$> r1 ≡ₚ concatenate_block agents <$> r2) ∧
  (merger_type m = Summarize →
     ∀ s, summarizer m = Some s → r1 ≠ [] →
       mergeResults r1 m agents
         = ParallelRuns.summarized s (ParallelRuns.summary_prompt agents r1) ∧
       mergeResults r2 m agents
         = ParallelRuns.summarized s (ParallelRuns.summary_prompt agents r2) ∧
       summarize_line agents <$> r1 ≡ₚ summarize_line agents <$> r2) ∧
  (merger_type m = SelectBest →
     ∀ select, selector m = Some select → r1 ≠ [] →
       mergeResults r1 m agents
         = ParallelRuns.selected select (JsMap.values r1) ∧
       mergeResults r2 m agents
         = ParallelRuns.selected select (JsMap.values r2) ∧
       JsMap.values r1 ≡ₚ JsMap.values r2 ∧
       ((∀ l l', l ≡ₚ l' → select l = select l') →
        mergeResults r1 m agents = mergeResults r2 m agents)) ∧
  (merger_type m = Custom →
     ∀ f, merge m = Some f → r1 ≠ [] →
       mergeResults r1 m agents = f r1 ∧
       mergeResults r2 m agents = f r2 ∧
       ((∀ x y, x ≡ₚ y → f x = f y) →
        mergeResults r1 m agents = mergeResults r2 m agents)) ∧
  ((JsMap.size r1 ≤ 1)%nat → r1 = r2).
Proof.
  intros Hperm.
  assert (Hne : r1 ≠ [] → (JsMap.size r1 =? 0)%nat = false
                          ∧ (JsMap.size r2 =? 0)%nat = false).
  { intros Hr1. unfold JsMap.size. rewrite <- (Permutation_length Hperm).
    split; apply Nat.eqb_neq; by destruct r1. }
  split_and!.
  - intros Hty sep. split_and!; [by apply concatenate_total..|].
    by apply fmap_Permutation.
  - intros Hty s Hs Hr1. destruct (Hne Hr1) as [H1 H2].
    unfold mergeResults. rewrite H1, H2, Hty, Hs.
    split_and!; [reflexivity | reflexivity | by apply fmap_Permutation].
  - intros Hty select Hsel Hr1. destruct (Hne Hr1) as [H1 H2].
    assert (Hvalues : JsMap.values r1 ≡ₚ JsMap.values r2)
      by (by apply fmap_Permutation).
    unfold mergeResults. rewrite H1, H2, Hty, Hsel.
    split_and!; [reflexivity | reflexivity | done |].
    intros Hinv. by rewrite (Hinv _ _ Hvalues).
  - intros Hty f Hf Hr1. destruct (Hne Hr1) as [H1 H2].
    unfold mergeResults. rewrite H1, H2, Hty, Hf.
    split_and!; [reflexivity | reflexivity |].
    intros Hinv. by apply Hinv.
  - unfold JsMap.size. intros Hsize.
    destruct r1 as [|e1 [|e1' r1]]; simpl in Hsize; [| |lia].
    + by apply Permutation_nil_l in Hperm as ->.
    + by apply Permutation_singleton_l in Hperm as ->.
Qed.

(** The two arrival orders of the results of two agents. *)
Lemma merge_of_reordered_results_witness :
  let agents := [answering_role "a" "alpha" "A"; answering_role "b" "beta" "B"] in
  let r1 := [("a", answer "A"); ("b", answer "B")] in
  let r2 := [("b", answer "B"); ("a", answer "A")] in
  mergeResults r1 (concatenate_with " | ") agents
    = Ok ("[alpha]" +:+ nl +:+ "A | [beta]" +:+ nl +:+ "B") ∧
  mergeResults r2 (concatenate_with " | ") agents
    = Ok ("[beta]" +:+ nl +:+ "B | [alpha]" +:+ nl +:+ "A") ∧
  concatenate_block agents <$> r1 ≡ₚ concatenate_block agents <$> r2.
Proof.
  intros agents r1 r2.
  exact (proj1 (merge_of_reordered_results (concatenate_with " | ") agents
                  r1 r2 (perm_swap _ _ _)) eq_refl).
Defined.

(** C9 (as stated) fails: two runs of the same two agents, which
    complete in the one and in the other order, collect the same
    id-to-result associations, and the concatenate merger gives them
    different outputs. *)
Lemma merge_depends_on_arrival_order :
  let agents := [answering_role "a" "alpha" "A"; answering_role "b" "beta" "B"] in
  let config := parallel_config None (concatenate_with " | ") in
  ∃ run1 run2,
    orchestrate config "input" agents None (in_order [0; 1]%nat) = Ok run1 ∧
    orchestrate config "input" agents None (in_order [1; 0]%nat) = Ok run2 ∧
    agentResults run1 ≡ₚ agentResults run2 ∧
    ens_response run1 = "[alpha]" +:+ nl +:+ "A | [beta]" +:+ nl +:+ "B" ∧
    ens_response run2 = "[beta]" +:+ nl +:+ "B | [alpha]" +:+ nl +:+ "A" ∧
    ens_response run1 ≠ ens_response run2.
Proof.
  eexists _, _. split_and!; [reflexivity | reflexivity | apply perm_swap
                            | reflexivity | reflexivity | discriminate].
Qed.
End ParallelFacts.

(** ** The voting conductor *)

Module VotingFacts.
Import Agent Conductor Voting Examples.

Lemma Set_add_length (x : string) (s : list string) :
  (length (Set_add x s) ≤ S (length s))%nat.
Proof. unfold Set_add. case_bool_decide; [lia|]. rewrite length_app. simpl. lia. Qed.

Lemma Set_of_length (l : list string) : (length (Set_of l) ≤ length l)%nat.
Proof.
  unfold Set_of.
  assert (H : ∀ acc, (length (foldl (fun s x => Set_add x s) acc l)
                       ≤ length acc + length l)%nat).
  { induction l as [|x l IH]; intros acc; simpl; [lia|].
    specialize (IH (Set_add x acc)). pose proof (Set_add_length x acc). lia. }
  apply (H []).
Qed.

Lemma Set_delete_shrinks (x : string) (s : list string) :
  Set_delete x s = s ∨ (length (Set_delete x s) < length s)%nat.
Proof.
  unfold Set_delete. induction s as [|y s IH]; simpl; [by left|].
  destruct (negb (bool_decide (y = x))); simpl.
  - destruct IH as [->|IH]; [by left | right; lia].
  - right. pose proof (List.filter_length_le
      (fun y => negb (bool_decide (y = x))) s). lia.
Qed.

Lemma runoff_round_shrinks (opts remaining remaining' : list string)
    (ballots : list (list nat)) :
  runoff_round opts remaining ballots = inr remaining' →
  remaining' = remaining ∨ (length remaining' < length remaining)%nat.
Proof.
  unfold runoff_round.
  destruct (majority _) as [[? ?]|]; [discriminate|].
  destruct (lowest _) as [[toEliminate ?]|]; [|discriminate].
  destruct (opts !! toEliminate) as [optToDelete|]; [|intros [= <-]; by left].
  case_bool_decide; intros [= <-]; [by left|].
  apply Set_delete_shrinks.
Qed.

(** The tally runs out of fuel only when a round of the loop leaves the
    remaining options as they are, in which case the loop of the source
    repeats that round for ever. *)
Lemma runoff_none_is_stuck (opts : list string) (ballots : list (list nat))
    (fuel : nat) (remaining : list string) :
  (length remaining ≤ S fuel)%nat →
  runoff opts fuel remaining ballots = None →
  ∃ stuck, (1 < length stuck)%nat ∧ runoff_round opts stuck ballots = inr stuck.
Proof.
  revert remaining. induction fuel as [|fuel IH]; intros remaining Hlen; simpl.
  - destruct (Nat.ltb_spec 1 (length remaining)); [lia | discriminate].
  - destruct (Nat.ltb_spec 1 (length remaining)) as [Hmany|]; [|discriminate].
    destruct (runoff_round opts remaining ballots) as [|remaining'] eqn:Hround;
      [discriminate|].
    intros Hnone.
    destruct (runoff_round_shrinks _ _ _ _ Hround) as [->|Hless].
    + by exists remaining.
    + apply (IH remaining'); [lia | done].
Qed.

Lemma tallyVotes_ranked_none_is_stuck (opts : list string) (votes : list Vote) :
  tallyVotes_ranked opts votes = None →
  ∃ stuck, (1 < length stuck)%nat ∧
           runoff_round opts stuck (ballots_of votes) = inr stuck.
Proof.
  unfold tallyVotes_ranked. apply runoff_none_is_stuck.
  pose proof (Set_of_length opts). lia.
Qed.

Lemma ceiling_of_share (n : nat) (q : Q) :
  (q <= 1)%Q → Qceiling (inject_Z (Z.of_nat n) * q)%Q ≤ Z.of_nat n.
Proof.
  intros Hq.
  rewrite <- (Qceiling_Z (Z.of_nat n)) at 2.
  apply Qceiling_resp_le.
  destruct q as [a b]. unfold Qle in *. simpl in *.
  rewrite Pos2Z.inj_mul. nia.
Qed.

(** C10. For every voting configuration whose quorum is at most 1 (the
    default 0.5 included) and every list of registered agents, the quorum
    test passes and hands on the active voters: the number of active
    voters is compared with the ceiling of that same number times the
    quorum, whatever voter ids the configuration names. *)
Theorem quorum_check_never_fails (config : VotingConfig)
    (agents : list AgentRole) :
  (default (1 # 2) (quorum config) <= 1)%Q →
  minVoters_of config (voters_of config agents)
    ≤ Z.of_nat (length (voters_of config agents)) ∧
  check_quorum config agents = Ok (voters_of config agents).
Proof.
  intros Hq.
  assert (Hmin : minVoters_of config (voters_of config agents)
                 ≤ Z.of_nat (length (voters_of config agents))).
  { by apply ceiling_of_share. }
  split; [exact Hmin|].
  unfold check_quorum.
  destruct (Z.ltb_spec (Z.of_nat (length (voters_of config agents)))
              (minVoters_of config (voters_of config agents))); [lia | done].
Qed.

(** Four voter ids are configured, one of them is registered, and the
    default quorum of one half is met by the single active voter. *)
Lemma quorum_check_never_fails_witness :
  let config := {| voters := Some ["a"; "b"; "c"; "d"]; method := Majority;
                   weights := None; quorum := None; options := None;
                   hooks := None |} in
  let agents := [answering_role "a" "alpha" "A"] in
  minVoters_of config (voters_of config agents)
    ≤ Z.of_nat (length (voters_of config agents)) ∧
  check_quorum config agents = Ok agents.
Proof.
  apply (quorum_check_never_fails
           {| voters := Some ["a"; "b"; "c"; "d"]; method := Majority;
              weights := None; quorum := None; options := None;
              hooks := None |}
           [answering_role "a" "alpha" "A"]).
  simpl. unfold Qle. simpl. lia.
Defined.

Section RankedScenario.
Variables o1 o2 o3 : string.

Let opts := [o1; o2; o3].
Let parsed := ballots_of (scenario_votes opts).

Lemma scenario_answers :
  (fun ranks => answer_of (preference_order ranks)) <$> scenario_rank_vectors
  = ["2, 3, 1"; "2, 3, 1"; "1, 2, 3"; "1, 2, 3"; "3, 1, 2"].
Proof. reflexivity. Qed.

Lemma scenario_parsed :
  parsed = [[1; 2; 0]; [1; 2; 0]; [0; 1; 2]; [0; 1; 2]; [2; 0; 1]]%nat.
Proof. reflexivity. Qed.

Hypothesis distinct12 : o1 ≠ o2.
Hypothesis distinct13 : o1 ≠ o3.
Hypothesis distinct23 : o2 ≠ o3.
Hypothesis o3_not_empty : o3 ≠ EmptyString.

Lemma scenario_options : Set_of opts = [o1; o2; o3].
Proof.
  unfold Set_of, opts. cbn [foldl]. unfold Set_add.
  rewrite (bool_decide_eq_false_2 (o1 ∈ [])) by set_solver. cbn [app].
  rewrite (bool_decide_eq_false_2 (o2 ∈ [o1])) by set_solver. cbn [app].
  rewrite (bool_decide_eq_false_2 (o3 ∈ [o1; o2])) by set_solver.
  reflexivity.
Qed.

Lemma scenario_after_elimination : Set_delete o3 [o1; o2; o3] = [o1; o2].
Proof.
  unfold Set_delete. simpl.
  rewrite (bool_decide_eq_false_2 (o1 = o3)) by done.
  rewrite (bool_decide_eq_false_2 (o2 = o3)) by done.
  rewrite (bool_decide_eq_true_2 (o3 = o3)) by done.
  done.
Qed.

Lemma scenario_first_round :
  count_first_choices opts [o1; o2; o3] parsed
    = [(1, 2); (0, 2); (2, 1)]%nat.
Proof.
  rewrite scenario_parsed.
  unfold count_first_choices, firstChoice, opts. simpl.
  rewrite !bool_decide_eq_true_2 by set_solver. simpl.
  reflexivity.
Qed.

Lemma scenario_second_round :
  count_first_choices opts [o1; o2] parsed = [(1, 2); (0, 3)]%nat.
Proof.
  rewrite scenario_parsed.
  unfold count_first_choices, firstChoice, opts. simpl.
  rewrite (bool_decide_eq_false_2 (o3 ∈ [o1; o2])) by set_solver.
  rewrite !bool_decide_eq_true_2 by set_solver. simpl.
  reflexivity.
Qed.

(** C5. With three options (distinct, the third not the empty string)
    and the five ranked ballots [3,1,2], [3,1,2], [1,2,3], [1,2,3],
    [2,3,1], each giving the ranks of options 1, 2 and 3: the voters
    answer [2, 3, 1] twice, [1, 2, 3] twice and [3, 1, 2] once; the
    first round counts two first-place votes for option 2, two for
    option 1 and one for option 3; the tally eliminates option 3, whose
    ballot goes to option 1, and declares option 1 the winner with 3 of
    5 votes in the runoff. *)
Theorem ranked_scenario_as_claimed :
  (fun ranks => answer_of (preference_order ranks)) <$> scenario_rank_vectors
    = ["2, 3, 1"; "2, 3, 1"; "1, 2, 3"; "1, 2, 3"; "3, 1, 2"] ∧
  ballots_of (scenario_votes opts)
    = [[1; 2; 0]; [1; 2; 0]; [0; 1; 2]; [0; 1; 2]; [2; 0; 1]]%nat ∧
  count_first_choices opts (Set_of opts) (ballots_of (scenario_votes opts))
    = [(1, 2); (0, 2); (2, 1)]%nat ∧
  eliminated_in_round opts (Set_of opts) (ballots_of (scenario_votes opts))
    = Some (2, 1)%nat ∧
  count_first_choices opts (Set_delete o3 (Set_of opts))
    (ballots_of (scenario_votes opts))
    = [(1, 2); (0, 3)]%nat ∧
  tallyVotes_ranked opts (scenario_votes opts) =
    Some ("Voting Result (Ranked Choice): " +:+ o1 +:+ nl +:+ nl
          +:+ "Won with 3/5 votes after instant-runoff.").
Proof.
  unfold tallyVotes_ranked, eliminated_in_round.
  fold opts. fold parsed.
  rewrite scenario_options, scenario_after_elimination.
  rewrite scenario_first_round, scenario_second_round.
  split_and!; [exact scenario_answers | exact scenario_parsed
              | reflexivity | reflexivity | reflexivity |].
  assert (Hround1 : runoff_round opts [o1; o2; o3] parsed = inr [o1; o2]).
  { unfold runoff_round. rewrite scenario_first_round.
    cbn -[Set_delete bool_decide].
    rewrite (bool_decide_eq_false_2 (o3 = EmptyString)) by done.
    by rewrite scenario_after_elimination. }
  assert (Hround2 : runoff_round opts [o1; o2] parsed
                    = inl (won_with opts 0 3 5)).
  { unfold runoff_round. by rewrite scenario_second_round. }
  change (length opts) with 3%nat.
  change (runoff opts 4 [o1; o2; o3] parsed)
    with (match runoff_round opts [o1; o2; o3] parsed with
          | inl result => Some result
          | inr remaining' => runoff opts 3 remaining' parsed
          end).
  rewrite Hround1.
  change (runoff opts 3 [o1; o2] parsed)
    with (match runoff_round opts [o1; o2] parsed with
          | inl result => Some result
          | inr remaining' => runoff opts 2 remaining' parsed
          end).
  rewrite Hround2. reflexivity.
Qed.
End RankedScenario.

(** The scenario with the options named [one], [two] and [three]. *)
Lemma ranked_scenario_as_claimed_witness :
  let opts := ["one"; "two"; "three"] in
  eliminated_in_round opts (Set_of opts) (ballots_of (scenario_votes opts))
    = Some (2, 1)%nat ∧
  tallyVotes_ranked opts (scenario_votes opts) =
    Some ("Voting Result (Ranked Choice): one" +:+ nl +:+ nl
          +:+ "Won with 3/5 votes after instant-runoff.").
Proof.
  destruct (ranked_scenario_as_claimed "one" "two" "three")
    as (_ & _ & _ & Hout & _ & Hwin); try discriminate.
  split; [exact Hout | exact Hwin].
Defined.
End VotingFacts.

(** * Further properties *)

(** ** Lookup laws of the map model *)

Module JsMapLaws.
Section JsMapLaws.
Context {X : Type}.
Implicit Types (m : JsMap.t string X).

(** A lookup in the insertion-ordered map finds the first entry of the
    key, as the lookup in the finite map of its entries does. *)
Lemma get_list_to_map (k : string) m :
  JsMap.get k m = (list_to_map m : gmap string X) !! k.
Proof.
  unfold JsMap.get. induction m as [|[k' v'] rest IH]; csimpl; [done|].
  destruct (decide (k' = k)) as [->|Hk].
  - rewrite bool_decide_eq_true_2 by done. by rewrite lookup_insert_eq.
  - rewrite bool_decide_eq_false_2 by done. by rewrite lookup_insert_ne.
Qed.

Lemma get_set_eq (k : string) (v : X) m : JsMap.get k (JsMap.set k v m) = Some v.
Proof.
  by rewrite get_list_to_map, JsMapFacts.list_to_map_set, lookup_insert_eq.
Qed.

Lemma get_set_ne (k k' : string) (v : X) m :
  k ≠ k' → JsMap.get k' (JsMap.set k v m) = JsMap.get k' m.
Proof.
  intros Hk.
  by rewrite !get_list_to_map, JsMapFacts.list_to_map_set, lookup_insert_ne.
Qed.

Lemma get_None_keys (k : string) m : JsMap.get k m = None ↔ k ∉ JsMap.keys m.
Proof.
  rewrite get_list_to_map. unfold JsMap.keys.
  split; [apply not_elem_of_list_to_map_2 | apply not_elem_of_list_to_map_1].
Qed.

Lemma has_keys (k : string) m : JsMap.has k m = bool_decide (k ∈ JsMap.keys m).
Proof.
  unfold JsMap.has. apply bool_decide_ext.
  rewrite <- not_eq_None_Some, get_None_keys.
  destruct (decide (k ∈ JsMap.keys m)); naive_solver.
Qed.

Lemma keys_delete (k : string) m :
  JsMap.keys (JsMap.delete k m) = List.filter (fun k' => negb (bool_decide (k' = k)))
                                    (JsMap.keys m).
Proof.
  unfold JsMap.keys, JsMap.delete.
  induction m as [|[k' v'] rest IH]; csimpl; [done|].
  destruct (negb (bool_decide (k' = k))); csimpl; by rewrite IH.
Qed.

Lemma get_delete_eq (k : string) m : JsMap.get k (JsMap.delete k m) = None.
Proof.
  apply get_None_keys. rewrite keys_delete, list_elem_of_In, filter_In.
  intros [_ Hk]. by rewrite bool_decide_eq_true_2 in Hk.
Qed.

Lemma get_delete_ne (k k' : string) m :
  k ≠ k' → JsMap.get k' (JsMap.delete k m) = JsMap.get k' m.
Proof.
  intros Hk. unfold JsMap.get, JsMap.delete.
  induction m as [|[k0 v0] rest IH]; csimpl; [done|].
  destruct (decide (k0 = k)) as [->|Hk0].
  - rewrite (bool_decide_eq_true_2 (k = k)) by done. csimpl.
    rewrite (bool_decide_eq_false_2 (k = k')) by done. apply IH.
  - rewrite (bool_decide_eq_false_2 (k0 = k)) by done. csimpl.
    destruct (bool_decide (k0 = k')); [done | apply IH].
Qed.

(** Built from nothing by [set], a map has each key once, and holds what
    the finite map of the entries holds. *)
Lemma get_of_entries (o : gmap string X) (k : string) :
  JsMap.get k (JsMap.of_entries (JsObject.entries o)) = o !! k.
Proof.
  rewrite get_list_to_map.
  pose proof (JsMapFacts.fromEntries_of_entries o) as Hround.
  destruct (JsMapFacts.set_all_spec (map_to_list o) []) as (Hnd & _ & _).
  { apply NoDup_nil_2. }
  unfold JsMap.of_entries, JsObject.entries in *.
  rewrite JsMapFacts.fromEntries_NoDup in Hround by exact Hnd.
  by rewrite Hround.
Qed.
End JsMapLaws.
End JsMapLaws.

(** ** More on the shared context *)

Module ContextLaws.
Import Context.

Section ContextLaws.
Context {V : Type}.
Implicit Types (c : SharedContext V) (s : ContextSnapshot V).

(** X1. [set] followed by [get] of the same key returns the value just
    stored, whatever was there before; every other key reads as before;
    and the key sequence returned by [keys] keeps its order, the key
    being added at the end only when it is new. *)
Theorem set_then_get (key : string) (value : V) c :
  get key (set key value c) = Some value ∧
  has key (set key value c) = true ∧
  (∀ other, other ≠ key → get other (set key value c) = get other c) ∧
  keys (set key value c) =
    if has key c then keys c else keys c ++ [key].
Proof.
  unfold get, set, has, keys. simpl. split_and!.
  - apply JsMapLaws.get_set_eq.
  - unfold JsMap.has. by rewrite JsMapLaws.get_set_eq, bool_decide_eq_true_2.
  - intros other Hne. by apply JsMapLaws.get_set_ne.
  - by rewrite JsMapFacts.keys_set, JsMapLaws.has_keys.
Qed.

(** X2. [delete] reports whether the key was present, leaves no value
    under it, and changes no other key and nothing of the messages. *)
Theorem delete_then_get (key : string) c :
  (delete key c).1 = has key c ∧
  get key (delete key c).2 = None ∧
  has key (delete key c).2 = false ∧
  (∀ other, other ≠ key → get other (delete key c).2 = get other c) ∧
  getHistory (delete key c).2 = getHistory c ∧
  (∀ id, getAgentMessages id (delete key c).2 = getAgentMessages id c).
Proof.
  unfold get, delete, has, getHistory, getAgentMessages. simpl. split_and!.
  - done.
  - apply JsMapLaws.get_delete_eq.
  - unfold JsMap.has. rewrite JsMapLaws.get_delete_eq.
    apply bool_decide_eq_false_2. by intros [? ?].
  - intros other Hne. by apply JsMapLaws.get_delete_ne.
  - done.
  - done.
Qed.

(** The messages of a sequence of appends that were filed under [id]. *)
Lemma getAgentMessages_addMessage (id : AgentId) (m : Message)
    (a : option AgentId) c :
  getAgentMessages id (addMessage m a c) =
  getAgentMessages id c ++ (if decide (truthy_id a = Some id) then [m] else []).
Proof.
  unfold getAgentMessages, addMessage. simpl.
  destruct (truthy_id a) as [id'|] eqn:Ha.
  - destruct (decide (id' = id)) as [->|Hne].
    + rewrite JsMapLaws.get_set_eq. by rewrite decide_True.
    + rewrite JsMapLaws.get_set_ne by done.
      rewrite decide_False by congruence. by rewrite app_nil_r.
  - rewrite decide_False by done. by rewrite app_nil_r.
Qed.

(** X3. The per-agent lists are never trimmed: after any sequence of
    [addMessage] calls the list of an agent is what it was, followed by
    every message appended under that agent id, in order, however small
    [maxHistoryLength] is.  Messages appended without an id, or under the
    empty id, are filed under no agent. *)
Theorem agent_messages_complete (id : AgentId)
    (appends : list (Message * option AgentId)) c :
  getAgentMessages id (addMessages appends c) =
  getAgentMessages id c ++
    omap (fun a => if decide (truthy_id a.2 = Some id) then Some a.1 else None)
         appends.
Proof.
  revert c. unfold addMessages.
  induction appends as [|[m a] rest IH]; intros c; csimpl.
  - by rewrite app_nil_r.
  - rewrite IH, getAgentMessages_addMessage, <- (assoc_L (++)).
    by destruct (decide (truthy_id a = Some id)).
Qed.

(** X4. A history that is at or over the bound, as it can be after
    [restore] or with a long [initialHistory], keeps its length: every
    [addMessage] appends the message and evicts exactly the oldest one. *)
Theorem full_history_keeps_length
    (appends : list (Message * option AgentId)) c :
  maxHistory c ≤ Z.of_nat (length (history c)) →
  history (addMessages appends c) =
    drop (length appends) (history c ++ appends.*1) ∧
  length (history (addMessages appends c)) = length (history c).
Proof.
  revert c. unfold addMessages.
  induction appends as [|[m a] rest IH]; intros c Hfull; csimpl.
  - by rewrite app_nil_r.
  - assert (Hstep : history (addMessage m a c) = tail (history c ++ [m])).
    { rewrite ContextFacts.addMessage_history.
      destruct (Z.gtb_spec (Z.of_nat (length (history c ++ [m]))) (maxHistory c))
        as [|Hle]; [done|].
      rewrite length_app in Hle. simpl in Hle. lia. }
    assert (Hlen : length (history (addMessage m a c)) = length (history c)).
    { rewrite Hstep, ContextFacts.tail_length, length_app. simpl. lia. }
    destruct (IH (addMessage m a c)) as [Hhist Hkeep].
    { rewrite ContextFacts.addMessage_maxHistory. lia. }
    split; [|lia].
    rewrite Hhist, Hstep.
    rewrite (cons_middle m (history c) rest.*1), (assoc_L (++)).
    destruct (history c ++ [m]) as [|x xs] eqn:Hxs; [|done].
    by destruct (history c).
Qed.
End ContextLaws.

(** Two appends to a context restored with three messages and a bound of
    two: the history stays at three. *)
Lemma full_history_keeps_length_witness :
  let c := restore (V := JValue)
             {| snap_data := ∅;
                snap_history := [UserMessage "1"; UserMessage "2"; UserMessage "3"];
                snap_agentMessages := ∅; snap_timestamp := 0 |}
             (createContext (Some {| initialData := None;
                                     maxHistoryLength := Some 2;
                                     initialHistory := None |})) in
  let appends := [(UserMessage "4", None); (UserMessage "5", None)] in
  history (addMessages appends c) =
    [UserMessage "3"; UserMessage "4"; UserMessage "5"] ∧
  length (history (addMessages appends c)) = 3%nat.
Proof.
  apply (full_history_keeps_length (V := JValue)
           [(UserMessage "4", None); (UserMessage "5", None)]).
  simpl. lia.
Defined.
End ContextLaws.

(** ** [clone] and [restore] *)

Module CloneLaws.
Import Context.

Section CloneLaws.
Context {V : Type}.
Implicit Types (c cl : SharedContext V) (s : ContextSnapshot V).

Lemma clone_message_frame (id : AgentId) cl (msg : Message) :
  data (clone_message id cl msg) = data cl ∧
  maxHistory (clone_message id cl msg) = maxHistory cl.
Proof. unfold clone_message. by destruct (_ =? _)%nat. Qed.

Lemma clone_messages_frame (id : AgentId) (msgs : list Message) cl :
  data (foldl (clone_message id) cl msgs) = data cl ∧
  maxHistory (foldl (clone_message id) cl msgs) = maxHistory cl.
Proof.
  revert cl. induction msgs as [|m msgs IH]; intros cl; csimpl; [done|].
  destruct (IH (clone_message id cl m)) as [-> ->]. apply clone_message_frame.
Qed.

Lemma clone_frame c :
  data (clone c) = JsMap.of_entries (JsObject.entries (JsObject.fromEntries (data c))) ∧
  maxHistory (clone c) = maxHistory c.
Proof.
  assert (H : ∀ entries cl,
    data (foldl (fun cl e => foldl (clone_message e.1) cl e.2) cl entries) = data cl ∧
    maxHistory (foldl (fun cl e => foldl (clone_message e.1) cl e.2) cl entries)
      = maxHistory cl).
  { induction entries as [|e entries IH]; intros cl; csimpl; [done|].
    destruct (IH (foldl (clone_message e.1) cl e.2)) as [-> ->].
    apply clone_messages_frame. }
  unfold clone.
  destruct (H (agentMessages c) (createContext
    (Some {| initialData := Some (JsObject.fromEntries (data c));
             maxHistoryLength := Some (maxHistory c);
             initialHistory := Some (history c) |}))) as [-> ->].
  done.
Qed.

(** X5. [clone] always copies the key/value store and the history bound:
    every key reads in the clone as in the original.  When the original
    holds no per-agent messages the clone is an exact copy: the two
    snapshots are equal modulo timestamp. *)
Theorem clone_copies_data c :
  NoDup (keys c) →
  (∀ key, get key (clone c) = get key c) ∧
  maxHistory (clone c) = maxHistory c ∧
  (getAgentIds c = [] →
   ∀ now, snapshot_eq_modulo_timestamp (snapshot now (clone c)) (snapshot now c)).
Proof.
  intros Hnd. destruct (clone_frame c) as [Hdata Hmax]. split_and!.
  - intros key. unfold get. rewrite Hdata, JsMapLaws.get_of_entries.
    rewrite JsMapFacts.fromEntries_NoDup by exact Hnd.
    by rewrite JsMapLaws.get_list_to_map.
  - exact Hmax.
  - unfold getAgentIds, JsMap.keys. intros Hnone now.
    apply fmap_nil_inv in Hnone.
    unfold snapshot_eq_modulo_timestamp, snapshot, clone. rewrite Hnone. simpl.
    split_and!; [apply JsMapFacts.fromEntries_of_entries | done | done].
Qed.

(** Replaying the messages of one agent into a clone that has none for
    it files the first message only. *)
Lemma replay_files_first (id : AgentId) (msgs : list Message) cl :
  id ≠ EmptyString →
  getAgentMessages id cl = [] →
  ∀ id', getAgentMessages id' (foldl (clone_message id) cl msgs) =
         if decide (id' = id) then take 1 msgs else getAgentMessages id' cl.
Proof.
  intros Hid Hempty id'.
  destruct msgs as [|m rest]; csimpl.
  { by destruct (decide (id' = id)) as [->|]. }
  unfold clone_message at 2. rewrite Hempty. simpl.
  assert (Hskip : ∀ rest cl',
    getAgentMessages id cl' ≠ [] → foldl (clone_message id) cl' rest = cl').
  { clear. induction rest as [|m' rest IH]; intros cl' Hne; csimpl; [done|].
    unfold clone_message at 2.
    destruct (getAgentMessages id cl') eqn:Hl; [done|]. simpl. apply IH.
    by rewrite Hl. }
  assert (Htruthy : truthy_id (Some id) = Some id).
  { unfold truthy_id. by rewrite decide_False. }
  rewrite Hskip.
  - rewrite ContextLaws.getAgentMessages_addMessage, Htruthy.
    destruct (decide (id' = id)) as [->|Hne].
    + by rewrite decide_True, Hempty.
    + rewrite decide_False by congruence. by rewrite app_nil_r.
  - rewrite ContextLaws.getAgentMessages_addMessage, Htruthy, decide_True by done.
    by destruct (getAgentMessages id cl).
Qed.

(** Messages replayed under the empty id are filed nowhere. *)
Lemma replay_empty_id (msgs : list Message) cl (id' : AgentId) :
  getAgentMessages id' (foldl (clone_message EmptyString) cl msgs)
  = getAgentMessages id' cl.
Proof.
  revert cl. induction msgs as [|m rest IH]; intros cl; csimpl; [done|].
  rewrite IH. unfold clone_message. destruct (_ =? _)%nat; [|done].
  rewrite ContextLaws.getAgentMessages_addMessage. simpl. by rewrite app_nil_r.
Qed.

Lemma get_cons {X : Type} (k k0 : string) (v : X) (m : JsMap.t string X) :
  JsMap.get k ((k0, v) :: m) = if bool_decide (k0 = k) then Some v else JsMap.get k m.
Proof. unfold JsMap.get. csimpl. by destruct (bool_decide (k0 = k)). Qed.

Lemma replay_all (entries : JsMap.t AgentId (list Message)) cl :
  NoDup (JsMap.keys entries) →
  (∀ id, id ∈ JsMap.keys entries → getAgentMessages id cl = []) →
  ∀ id', id' ≠ EmptyString →
    getAgentMessages id'
      (foldl (fun cl e => foldl (clone_message e.1) cl e.2) cl entries) =
    match JsMap.get id' entries with
    | Some msgs => take 1 msgs
    | None => getAgentMessages id' cl
    end.
Proof.
  revert cl.
  induction entries as [|[id msgs] rest IH]; intros cl Hnd Hfresh id' Hid'.
  { done. }
  change (JsMap.keys ((id, msgs) :: rest)) with (id :: JsMap.keys rest) in *.
  apply NoDup_cons in Hnd as [Hnotin Hnd].
  assert (Hlists : ∀ id2, id2 ≠ id →
    getAgentMessages id2 (foldl (clone_message id) cl msgs) = getAgentMessages id2 cl).
  { intros id2 Hne. destruct (decide (id = EmptyString)) as [->|Hid].
    - apply replay_empty_id.
    - rewrite replay_files_first; [|done|apply Hfresh; left].
      by rewrite decide_False. }
  change (foldl _ cl ((id, msgs) :: rest))
    with (foldl (fun cl e => foldl (clone_message e.1) cl e.2)
            (foldl (clone_message id) cl msgs) rest).
  rewrite IH; [|done| |done].
  2: { intros id2 Hin. rewrite Hlists; [apply Hfresh; by right|].
       intros ->. done. }
  rewrite get_cons.
  destruct (decide (id = id')) as [->|Hne].
  - rewrite bool_decide_eq_true_2 by done.
    apply JsMapLaws.get_None_keys in Hnotin. rewrite Hnotin.
    rewrite replay_files_first; [|done|apply Hfresh; left].
    by rewrite decide_True.
  - rewrite bool_decide_eq_false_2 by done.
    destruct (JsMap.get id' rest); [done|].
    by apply Hlists.
Qed.

(** X6. [clone] keeps, for every agent, only the first of its messages:
    the clone's list of an agent is the first element of the original
    list, whatever its length. *)
Theorem clone_keeps_first_message c (id : AgentId) :
  NoDup (getAgentIds c) →
  id ≠ EmptyString →
  getAgentMessages id (clone c) = take 1 (getAgentMessages id c).
Proof.
  intros Hnd Hid. unfold clone.
  rewrite replay_all; [|exact Hnd|intros ? _; reflexivity|exact Hid].
  assert (H : ∀ o : option (list Message),
    match o with Some msgs => take 1 msgs | None => [] end = take 1 (default [] o)).
  { by intros []. }
  exact (H (JsMap.get id (agentMessages c))).
Qed.

(** X7. After [restore(s)] the context reads exactly what the snapshot
    holds: each key, the whole history even when it is longer than
    [maxHistoryLength], and each agent's list; agents missing from the
    snapshot have no messages, and the history bound is the context's
    own. *)
Theorem restore_then_read s c :
  (∀ key, get key (restore s c) = snap_data s !! key) ∧
  getHistory (restore s c) = snap_history s ∧
  (∀ id, getAgentMessages id (restore s c)
         = default [] (snap_agentMessages s !! id)) ∧
  maxHistory (restore s c) = maxHistory c.
Proof.
  unfold get, getHistory, getAgentMessages, restore. simpl. split_and!.
  - intros key. apply JsMapLaws.get_of_entries.
  - done.
  - intros id. by rewrite (JsMapLaws.get_of_entries (snap_agentMessages s)).
  - done.
Qed.
End CloneLaws.

Lemma clone_copies_data_witness :
  (∀ key, get key (clone Scenarios.two_message_context) = get key Scenarios.two_message_context) ∧
  maxHistory (clone Scenarios.two_message_context) = 1000.
Proof.
  destruct (clone_copies_data Scenarios.two_message_context) as (H1 & H2 & _).
  - vm_compute. apply NoDup_singleton.
  - split; [exact H1 | exact H2].
Defined.

Lemma clone_keeps_first_message_witness :
  getAgentMessages "agent1" (clone Scenarios.two_message_context)
  = [AssistantMessage (Some "first") None].
Proof.
  apply (clone_keeps_first_message Scenarios.two_message_context "agent1").
  - vm_compute. apply NoDup_cons. split; [|apply NoDup_singleton].
    intros Hin. apply list_elem_of_singleton in Hin. discriminate Hin.
  - discriminate.
Defined.
End CloneLaws.

(** ** Validation *)

Module ValidationLaws.
Import Validation.

(** X8. [validateInput] accepts exactly the strings of at least one and
    at most [maxLength] characters (100000 when no limit is given), and
    reports an error message exactly when it rejects. *)
Theorem validateInput_accepts (input : JValue) (maxLength : option Z) :
  (input_valid (validateInput input maxLength) = true ↔
   ∃ s, input = JStr s ∧ (1 ≤ String.length s)%nat ∧
        Z.of_nat (String.length s) ≤ default 100000 maxLength) ∧
  (input_error (validateInput input maxLength) = None ↔
   input_valid (validateInput input maxLength) = true).
Proof.
  unfold validateInput.
  destruct input as [| | |s| |]; simpl;
    try (split; [split; [discriminate | by intros (? & ? & _)] | done]).
  destruct (Nat.eqb_spec (String.length s) 0) as [Hz|Hnz]; simpl.
  { split; [split; [discriminate|] | done].
    intros (s' & [= <-] & Hlen & _). lia. }
  destruct (Z.gtb_spec (Z.of_nat (String.length s)) (default 100000 maxLength));
    simpl.
  - split; [split; [discriminate|] | done].
    intros (s' & [= <-] & _ & Hlen). lia.
  - split; [split; [intros _; exists s; split_and!; [done | lia | lia] | done] | done].
Qed.

Lemma flat_map_nil {A B : Type} (f : A → list B) (l : list A) :
  List.flat_map f l = [] ↔ ∀ x, x ∈ l → f x = [].
Proof.
  induction l as [|a l IH]; simpl.
  - split; [intros _ x Hx; by apply elem_of_nil in Hx | done].
  - rewrite app_nil, IH. split.
    + intros [Ha Hl] x Hx. apply elem_of_cons in Hx as [->|Hx]; auto.
    + intros H. split; [apply H; left | intros x Hx; apply H; by right].
Qed.

Lemma inherited_members (key : string) :
  key ∈ Object_prototype_members ↔ inherited key = true.
Proof.
  unfold inherited. rewrite existsb_exists, list_elem_of_In. split.
  - intros Hin. exists key. split; [done | apply String.eqb_refl].
  - intros (k & Hin & Heq). apply String.eqb_eq in Heq. by subst k.
Qed.

Section ValidationLaws.
Variable Number_toString : Q -> string.
Variable String_of : JValue -> string.
Variable RegExp_test : string -> string -> option bool.

(** X9. [validateJsonSchema] reports a value as valid exactly when it is
    an object (not [null], not an array, not a primitive) in which every
    required field is found by [in], that is as an own property or as a
    member inherited from [Object.prototype]; whose declared properties
    that are found by [in] pass [validateProperty] on what the read
    gives: the own value, or else the inherited function or prototype
    object; and that, when [additionalProperties] is [false], has no own
    key outside the declared properties. *)
Theorem validateJsonSchema_valid_iff (value : JValue) (schema : JsonSchema) :
  valid (validateJsonSchema Number_toString String_of RegExp_test value schema)
    = true ↔
  ∃ obj, value = JObj obj ∧
    (∀ fields field, required schema = Some fields → field ∈ fields →
       is_Some (own field obj) ∨ field ∈ Object_prototype_members) ∧
    (∀ props key ps v, properties schema = Some props → (key, ps) ∈ props →
       own key obj = Some v →
       validateProperty Number_toString String_of RegExp_test v ps key = []) ∧
    (∀ props key ps, properties schema = Some props → (key, ps) ∈ props →
       own key obj = None → key ∈ Object_prototype_members →
       (if String.eqb key "__proto__"
        then validateProperty Number_toString String_of RegExp_test
               (JObj []) ps key
        else validateFunction String_of ps key) = []) ∧
    (∀ props key, additionalProperties schema = Some false →
       properties schema = Some props → key ∈ obj.*1 → key ∈ props.*1).
Proof.
  unfold validateJsonSchema.
  destruct value as [| | | | |obj]; simpl;
    try (split; [discriminate | by intros (? & ? & _)]).
  rewrite Nat.eqb_eq, length_zero_iff_nil, !app_nil.
  split.
  - intros (Hreq & Hprops & Hextra). exists obj. split_and!; [done|..].
    + intros fields field Hf Hin. rewrite Hf in Hreq.
      apply (proj1 (flat_map_nil _ _)) with (x := field) in Hreq; [|done].
      unfold has_property in Hreq.
      destruct (own field obj); [left; eauto|].
      destruct (inherited field) eqn:Hinh; [|discriminate].
      right. by apply inherited_members.
    + intros props key ps v Hp Hin Hown. rewrite Hp in Hprops.
      apply (proj1 (flat_map_nil _ _)) with (x := (key, ps)) in Hprops; [|done].
      unfold validateRead in Hprops. cbn [fst snd] in Hprops.
      by rewrite Hown in Hprops.
    + intros props key ps Hp Hin Hown Hmember. rewrite Hp in Hprops.
      apply (proj1 (flat_map_nil _ _)) with (x := (key, ps)) in Hprops; [|done].
      unfold validateRead in Hprops. cbn [fst snd] in Hprops.
      rewrite Hown in Hprops.
      apply inherited_members in Hmember. rewrite Hmember in Hprops.
      exact Hprops.
    + intros props key Hadd Hp Hin. rewrite Hadd, Hp in Hextra.
      apply (proj1 (flat_map_nil _ _)) with (x := key) in Hextra; [|done].
      destruct (existsb (String.eqb key) props.*1) eqn:Hex; [|discriminate].
      apply existsb_exists in Hex as (k & Hk & Heq).
      apply String.eqb_eq in Heq. subst k. by apply list_elem_of_In.
  - intros (obj' & [= <-] & Hreq & Hprops & Hinherited & Hextra). split_and!.
    + destruct (required schema) as [fields|]; [|done].
      apply flat_map_nil. intros field Hin. unfold has_property.
      destruct (Hreq fields field eq_refl Hin) as [[v ->]|Hmember]; [done|].
      apply inherited_members in Hmember. rewrite Hmember.
      by destruct (own field obj).
    + destruct (properties schema) as [props|]; [|done].
      apply flat_map_nil. intros [key ps] Hin. unfold validateRead.
      cbn [fst snd].
      destruct (own key obj) as [v|] eqn:Hown; [by apply (Hprops props key ps v)|].
      destruct (inherited key) eqn:Hinh; [|done].
      apply (Hinherited props key ps eq_refl Hin Hown).
      by apply inherited_members.
    + destruct (additionalProperties schema) as [[]|]; [done| |done].
      destruct (properties schema) as [props|]; [|done].
      apply flat_map_nil. intros key Hin.
      specialize (Hextra props key eq_refl eq_refl Hin).
      assert (Hex : existsb (String.eqb key) props.*1 = true).
      { apply existsb_exists. exists key. split; [by apply list_elem_of_In|].
        apply String.eqb_refl. }
      by rewrite Hex.
Qed.
End ValidationLaws.

(** An inherited member counts as present: the empty object passes a
    schema that requires [toString], and a declared property
    [constructor] is validated against the inherited function. *)
Lemma inherited_member_is_found :
  validateJsonSchema (fun _ => "n") (fun _ => "v") (fun _ _ => None) (JObj [])
    {| properties := None; required := Some ["toString"];
       additionalProperties := None |}
    = {| valid := true; errors := [] |} ∧
  validateJsonSchema (fun _ => "n") (fun _ => "v") (fun _ _ => None) (JObj [])
    {| properties :=
         Some [("constructor",
                {| ps_type := Some "string"; ps_enum := None;
                   ps_minimum := None; ps_maximum := None;
                   ps_minLength := None; ps_maxLength := None;
                   ps_pattern := None; ps_items := None |})];
       required := None; additionalProperties := None |}
    = {| valid := false;
         errors := ["constructor: expected string, got function"] |}.
Proof. split; reflexivity. Qed.
End ValidationLaws.

(** ** [validateProperty] *)

Module PropertyLaws.
Import Validation.

Lemma concat_nil_lookup {A : Type} (ls : list (list A)) :
  concat ls = [] → ∀ i l, ls !! i = Some l → l = [].
Proof.
  induction ls as [|a ls IH]; simpl; [by intros _ i l; rewrite lookup_nil|].
  intros [-> Hls]%app_nil [|i] l; simpl; [by intros [= <-] | by apply IH].
Qed.

Section PropertyLaws.
Variable Number_toString : Q -> string.
Variable String_of : JValue -> string.
Variable RegExp_test : string -> string -> option bool.

(** X10. A value for which [validateProperty] reports no error conforms
    to the property schema: its JSON type is the declared one (or it is
    an integral number declared [integer]), it equals one of the
    enumerated values, a number lies within [minimum] and [maximum], a
    string has a length within [minLength] and [maxLength] and is not
    rejected by a pattern that compiles, and every element of an array
    passes the [items] schema under its indexed path. *)
Theorem validateProperty_sound (value : JValue) (schema : PropertySchema)
    (path : string) :
  validateProperty Number_toString String_of RegExp_test value schema path = [] →
  (∀ ty, ps_type schema = Some ty → ty ≠ EmptyString →
     getJsonType value = ty ∨ (ty = "integer" ∧ isInteger value = true)) ∧
  (∀ allowed, ps_enum schema = Some allowed →
     ∃ a, a ∈ allowed ∧ sameValueZero value a = true) ∧
  (∀ q, value = JNum q →
     (∀ lo, ps_minimum schema = Some lo → (lo <= q)%Q) ∧
     (∀ hi, ps_maximum schema = Some hi → (q <= hi)%Q)) ∧
  (∀ s, value = JStr s →
     (∀ lo, ps_minLength schema = Some lo →
        (lo <= inject_Z (Z.of_nat (String.length s)))%Q) ∧
     (∀ hi, ps_maxLength schema = Some hi →
        (inject_Z (Z.of_nat (String.length s)) <= hi)%Q) ∧
     (∀ p, ps_pattern schema = Some p → p ≠ EmptyString →
        RegExp_test p s ≠ Some false)) ∧
  (∀ elements item i v, value = JArr elements → ps_items schema = Some item →
     elements !! i = Some v →
     validateProperty Number_toString String_of RegExp_test v item
       (path +:+ "[" +:+ Number_toString (inject_Z (Z.of_nat i)) +:+ "]") = []).
Proof.
  destruct schema as [type enum minimum maximum minLength maxLength pattern items].
  cbn [validateProperty ps_type ps_enum ps_minimum ps_maximum ps_minLength
       ps_maxLength ps_pattern ps_items].
  set (wrong := match truthy_string type with Some _ => _ | None => false end).
  destruct wrong eqn:Hwrong; [discriminate|].
  intros [Henum Hrest]%app_nil.
  split_and!.
  - intros ty -> Hne. subst wrong.
    destruct ty as [|a ty]; [done|]. cbn [truthy_string] in Hwrong.
    apply andb_false_iff in Hwrong as [Hw|Hw].
    + apply negb_false_iff, String.eqb_eq in Hw. by left.
    + apply negb_false_iff in Hw.
      apply andb_true_iff in Hw as [[Hi _]%andb_true_iff Hint].
      apply String.eqb_eq in Hi. by right.
  - intros allowed ->.
    destruct (existsb (sameValueZero value) allowed) eqn:Hex; [|discriminate].
    apply existsb_exists in Hex as (a & Ha & Hsame).
    exists a. split; [by apply list_elem_of_In | done].
  - intros q ->. apply app_nil in Hrest as [Hlo Hhi]. split.
    + intros lo ->. by destruct (Qlt_le_dec q lo).
    + intros hi ->. by destruct (Qlt_le_dec hi q).
  - intros s ->. cbv zeta in Hrest.
    apply app_nil in Hrest as [Hlo [Hhi Hpat]%app_nil]. split_and!.
    + intros lo ->. by destruct (Qlt_le_dec _ lo).
    + intros hi ->. by destruct (Qlt_le_dec hi _).
    + intros p -> Hne. destruct p as [|a p]; [done|].
      cbn [truthy_string] in Hpat.
      by destruct (RegExp_test (String a p) s) as [[]|].
  - intros elements item i v -> -> Hv.
    eapply concat_nil_lookup; [exact Hrest|].
    rewrite list_lookup_imap, Hv. reflexivity.
Qed.
End PropertyLaws.

Lemma validateProperty_sound_witness :
  (1 <= 5)%Q ∧ (5 <= 10)%Q.
Proof.
  pose proof (validateProperty_sound (fun _ => "n") (fun _ => "v")
    (fun _ _ => Some true) (JNum 5)
    {| ps_type := Some "number"; ps_enum := None;
       ps_minimum := Some 1%Q; ps_maximum := Some 10%Q;
       ps_minLength := None; ps_maxLength := None;
       ps_pattern := None; ps_items := None |} "n" eq_refl)
    as (_ & _ & Hnum & _).
  destruct (Hnum 5%Q eq_refl) as [Hlo Hhi].
  split; [exact (Hlo _ eq_refl) | exact (Hhi _ eq_refl)].
Defined.
End PropertyLaws.

(** ** The agent loop *)

Module AgentLaws.
Import Validation Agent AgentTurn.

Section Loop.
Variable JSON_stringify : JValue -> string.
Variable config : AgentConfig.
Variable hooks : option AgentHooks.

Lemma iteration_body_turn (options : option RunOptions)
    (k : AgentState → Usage → list Event → Result AgentResult * list Event)
    (st : AgentState) (u : Usage) (log : list Event) :
  iteration_body JSON_stringify config hooks options k st u log =
  match turn JSON_stringify config hooks options st u log with
  | inl (st', u', log') => k st' u' log'
  | inr (e, log') => (inr e, log')
  end.
Proof.
  unfold iteration_body, turn.
  destruct (default false _); [reflexivity|].
  destruct (call_hook _ _); [|reflexivity].
  fold (request_of config (messages st)).
  destruct (generate _ _) as [resp|e]; [|reflexivity].
  destruct (call_hook _ _); [|reflexivity].
  destruct (finishReason resp); try reflexivity.
  by destruct (dispatch _ _ _ _ _ _) as [st' log'].
Qed.

(** Reasoning about the loop by an invariant of its turns. *)
Lemma loop_invariant (options : option RunOptions)
    (Inv : AgentState → Usage → list Event → Prop)
    (Post : Result AgentResult * list Event → Prop) :
  (∀ st u log, Inv st u log → Post (Ok (finish st u), log)) →
  (∀ st u log, Inv st u log → done st = false →
     iteration st < maxIterations_of config →
     match turn JSON_stringify config hooks options st u log with
     | inl (st', u', log') => Inv st' u' log'
     | inr (e, log') => Post (inr e, log')
     end) →
  ∀ fuel st u log, Inv st u log →
    Post (loop JSON_stringify config hooks options fuel st u log).
Proof.
  intros Hfinish Hturn. induction fuel as [|fuel IH]; intros st u log HI.
  - by apply Hfinish.
  - change (loop JSON_stringify config hooks options (S fuel) st u log)
      with (if negb (done st) && (iteration st <? maxIterations_of config)
            then iteration_body JSON_stringify config hooks options
                   (loop JSON_stringify config hooks options fuel) st u log
            else (Ok (finish st u), log)).
    destruct (done st) eqn:Hdone; [by apply Hfinish|].
    destruct (Z.ltb_spec (iteration st) (maxIterations_of config)) as [Hlt|Hge];
      [|by apply Hfinish].
    cbn [negb andb]. rewrite iteration_body_turn.
    specialize (Hturn st u log HI Hdone Hlt).
    destruct (turn _ _ _ _ _ _ _) as [[[st' u'] log']|[e log']]; [|done].
    by apply IH.
Qed.

Lemma backend_requests_app (l1 l2 : list Event) :
  backend_requests (l1 ++ l2) = backend_requests l1 ++ backend_requests l2.
Proof. apply omap_app. Qed.

Lemma backend_requests_call (log : list Event) (request : GenerateConfig)
    (evs : list Event) :
  backend_requests evs = [] →
  backend_requests (log ++ BackendCall request :: evs)
  = backend_requests log ++ [gc_messages request].
Proof.
  intros Hevs. rewrite backend_requests_app.
  change (backend_requests (BackendCall request :: evs))
    with (gc_messages request :: backend_requests evs).
  by rewrite Hevs.
Qed.

Lemma tool_executions_app (l1 l2 : list Event) :
  tool_executions (l1 ++ l2) = tool_executions l1 ++ tool_executions l2.
Proof. apply omap_app. Qed.

(** What answering one tool call does. *)
Lemma executeToolCall_spec (st : AgentState) (toolCall : ToolCall) :
  let '(m, evs) := executeToolCall JSON_stringify config hooks st toolCall in
  answers toolCall m ∧ backend_requests evs = [] ∧
  (evs = [] ∨
   evs = [ToolExecuted (tc_name toolCall) (tc_arguments toolCall)] ∧
   ∃ tool, tool ∈ default [] (tools config) ∧
           tool_name tool = tc_name toolCall).
Proof.
  unfold executeToolCall.
  destruct (tools config ≫= _) as [tool|] eqn:Hfind.
  - assert (Htool : tool ∈ default [] (tools config) ∧
                    tool_name tool = tc_name toolCall).
    { destruct (tools config) as [ts|]; [|done]. simpl in Hfind.
      apply find_some in Hfind as [Hin Heq]. split.
      - by apply list_elem_of_In.
      - by apply String.eqb_eq. }
    destruct (call_hook _ _); [|by split_and!; [eexists|..]; auto].
    destruct (execute tool _);
      [|split_and!; [by eexists | done | right; eauto]].
    destruct (call_hook _ _);
      split_and!; try (by eexists); try done; right; eauto.
  - split_and!; [by eexists | done | by left].
Qed.

Lemma dispatch_frame (st : AgentState) (toolCalls : list ToolCall)
    (log : list Event) :
  ∃ replies evs,
    messages (dispatch JSON_stringify config hooks st toolCalls log).1
      = messages st ++ replies ∧
    (dispatch JSON_stringify config hooks st toolCalls log).2 = log ++ evs ∧
    backend_requests evs = [] ∧
    iteration (dispatch JSON_stringify config hooks st toolCalls log).1
      = iteration st.
Proof.
  revert st log. induction toolCalls as [|call rest IH]; intros st log.
  - exists [], []. simpl. by rewrite !app_nil_r.
  - cbn [dispatch].
    pose proof (executeToolCall_spec st call) as Hcall.
    destruct (executeToolCall _ _ _ st call) as [m evs0].
    destruct Hcall as (_ & Hreq & _).
    destruct (IH (push m st) (log ++ evs0))
      as (replies & evs & Hmsgs & Hlog & Hnone & Hit).
    exists (m :: replies), (evs0 ++ evs).
    rewrite Hmsgs, Hlog, Hit. cbn [push messages iteration].
    rewrite <- !app_assoc, backend_requests_app, Hreq, Hnone. by split_and!.
Qed.

(** What one turn of the loop does to the conversation, the counter,
    the usage and the log. *)
Lemma turn_continues (options : option RunOptions) (st : AgentState)
    (u : Usage) (log : list Event) (st' : AgentState) (u' : Usage)
    (log' : list Event) :
  turn JSON_stringify config hooks options st u log = inl (st', u', log') →
  ∃ resp replies evs,
    generate (provider config) (request_of config (messages st)) = inl resp ∧
    messages st' = messages st ++ message resp :: replies ∧
    iteration st' = iteration st + 1 ∧
    u' = add_usage u (usage resp) ∧
    log' = log ++ BackendCall (request_of config (messages st)) :: evs ∧
    backend_requests evs = [] ∧
    default false ((fun s => aborted s (iteration st)) <$> (options ≫= signal))
      = false.
Proof.
  unfold turn.
  destruct (default false _) eqn:Hab; [discriminate|].
  destruct (call_hook _ _); [|discriminate].
  cbn [messages].
  destruct (generate _ _) as [resp|e] eqn:Hgen; [|discriminate].
  destruct (call_hook _ _); [|discriminate].
  destruct (finishReason resp);
    try (intros [= <- <- <-]; exists resp, [], []; by split_and!).
  match goal with
  | |- context [dispatch _ _ _ ?st0 ?calls ?log0] =>
      destruct (dispatch_frame st0 calls log0)
        as (replies & evs & Hmsgs & Hlog & Hnone & Hit);
      destruct (dispatch JSON_stringify config hooks st0 calls log0) as [st1 log1]
  end.
  intros [= <- <- <-]. simpl in *. exists resp, replies, evs.
  rewrite Hmsgs, Hlog, Hit, <- !app_assoc. by split_and!.
Qed.

Lemma turn_fails (options : option RunOptions) (st : AgentState)
    (u : Usage) (log : list Event) (e : JsError) (log' : list Event) :
  turn JSON_stringify config hooks options st u log = inr (e, log') →
  log' = log ∨ log' = log ++ [BackendCall (request_of config (messages st))].
Proof.
  unfold turn.
  destruct (default false _); [intros [= _ <-]; by left|].
  destruct (call_hook _ _); [|intros [= _ <-]; by left].
  cbn [messages].
  destruct (generate _ _) as [resp|e']; [|intros [= _ <-]; by right].
  destruct (call_hook _ _); [|intros [= _ <-]; by right].
  destruct (finishReason resp); try discriminate.
  by destruct (dispatch _ _ _ _ _ _).
Qed.

Lemma loop_done (options : option RunOptions) (fuel : nat) (st : AgentState)
    (u : Usage) (log : list Event) :
  done st = true →
  loop JSON_stringify config hooks options fuel st u log
  = (Ok (finish st u), log).
Proof. intros Hdone. destruct fuel; simpl; [done|]. by rewrite Hdone. Qed.

Lemma usage_of_log_tools (total : Usage) (evs : list Event) :
  backend_requests evs = [] →
  foldl (fun total e =>
           match e with
           | BackendCall request =>
               add_usage total (usage_of_request config request)
           | _ => total
           end) total evs = total.
Proof.
  induction evs as [|[request|toolName args] evs IH]; simpl; [done|done|].
  exact IH.
Qed.

Lemma usage_of_log_call (log : list Event) (request : GenerateConfig)
    (evs : list Event) :
  backend_requests evs = [] →
  usage_of_log config (log ++ BackendCall request :: evs)
  = add_usage (usage_of_log config log) (usage_of_request config request).
Proof.
  intros Hevs. unfold usage_of_log. rewrite foldl_app. simpl.
  by apply usage_of_log_tools.
Qed.

(** X11. Dispatching the tool calls of a response appends exactly one
    tool message per call to the conversation, in the order of the calls
    and each with the id of its call, whether the tool is unknown, a hook
    throws, the tool throws or it returns; the iteration counter and the
    [done] flag stay as they are; no backend call is made; the tools
    executed are a subsequence of the calls, each of them a tool of the
    configuration with the arguments of its call. *)
Theorem dispatch_answers_every_call (st : AgentState)
    (toolCalls : list ToolCall) (log : list Event) :
  ∃ replies evs,
    messages (dispatch JSON_stringify config hooks st toolCalls log).1
      = messages st ++ replies ∧
    (dispatch JSON_stringify config hooks st toolCalls log).2 = log ++ evs ∧
    Forall2 answers toolCalls replies ∧
    backend_requests evs = [] ∧
    tool_executions evs `sublist_of`
      ((fun c => (tc_name c, tc_arguments c)) <$> toolCalls) ∧
    (∀ called, called ∈ tool_executions evs →
       ∃ tool, tool ∈ default [] (tools config) ∧ tool_name tool = called.1) ∧
    iteration (dispatch JSON_stringify config hooks st toolCalls log).1
      = iteration st ∧
    done (dispatch JSON_stringify config hooks st toolCalls log).1 = done st.
Proof.
  revert st log. induction toolCalls as [|call rest IH]; intros st log.
  - exists [], []. simpl. rewrite !app_nil_r. split_and!; try done.
    intros called Hin. by apply elem_of_nil in Hin.
  - cbn [dispatch].
    pose proof (executeToolCall_spec st call) as Hcall.
    destruct (executeToolCall _ _ _ st call) as [m evs0].
    destruct Hcall as (Hm & Hreq & Hevs).
    destruct (IH (push m st) (log ++ evs0))
      as (replies & evs & Hmsgs & Hlog & Hall & Hnone & Hsub & Hknown & Hit & Hdone).
    exists (m :: replies), (evs0 ++ evs).
    rewrite Hmsgs, Hlog, Hit, Hdone. cbn [push messages iteration done].
    rewrite <- !app_assoc. split_and!; try done.
    + by constructor.
    + by rewrite backend_requests_app, Hreq, Hnone.
    + rewrite tool_executions_app, fmap_cons.
      destruct Hevs as [->|[-> _]]; cbn.
      * by apply sublist_cons.
      * by apply sublist_skip.
    + intros called. rewrite tool_executions_app, elem_of_app.
      intros [Hin|Hin]; [|by apply Hknown].
      destruct Hevs as [->|[-> Htool]]; [by apply elem_of_nil in Hin|].
      cbn in Hin. apply list_elem_of_singleton in Hin. by subst called.
Qed.

(** X12. The iteration counter of a run counts its backend calls: a run
    that returns reports as [iterations] the number of requests it sent
    to the backend, between zero and [maxIterations] (10 when not
    configured); a run that rejects has sent no more requests than
    that. *)
Theorem run_counts_backend_calls (input : string)
    (options : option RunOptions) :
  match run JSON_stringify config hooks input options with
  | (inl r, evs) =>
      iterations r = Z.of_nat (length (backend_requests evs)) ∧
      0 ≤ iterations r ≤ Z.max 0 (maxIterations_of config)
  | (inr _, evs) =>
      Z.of_nat (length (backend_requests evs))
        ≤ Z.max 0 (maxIterations_of config)
  end.
Proof.
  unfold run.
  apply (loop_invariant options
    (fun st _ log =>
       iteration st = Z.of_nat (length (backend_requests log)) ∧
       0 ≤ iteration st ≤ Z.max 0 (maxIterations_of config))
    (fun res =>
       match res with
       | (inl r, evs) =>
           iterations r = Z.of_nat (length (backend_requests evs)) ∧
           0 ≤ iterations r ≤ Z.max 0 (maxIterations_of config)
       | (inr _, evs) =>
           Z.of_nat (length (backend_requests evs))
             ≤ Z.max 0 (maxIterations_of config)
       end)).
  - intros st u log HI. exact HI.
  - intros st u log [Hcount Hbound] _ Hlt.
    destruct (turn _ _ _ _ _ _ _) as [[[st' u'] log']|[e log']] eqn:Hturn.
    + apply turn_continues in Hturn
        as (resp & replies & evs & _ & _ & Hit & _ & -> & Hnone & _).
      rewrite backend_requests_call, length_app by done. simpl. lia.
    + apply turn_fails in Hturn as [->| ->]; [lia|].
      rewrite backend_requests_app, length_app. simpl. lia.
  - simpl. lia.
Qed.

(** X13. The conversation only grows: every request sent to the backend
    starts with the system prompt and the user input, and the message
    list of a run that returns extends every request that was sent (so
    each request extends the ones before it). *)
Theorem run_conversation_grows (input : string)
    (options : option RunOptions) :
  match run JSON_stringify config hooks input options with
  | (res, evs) =>
      Forall (fun request =>
                messages (initial_state config input) `prefix_of` request ∧
                match res with
                | inl r => request `prefix_of` result_messages r
                | inr _ => True
                end) (backend_requests evs)
  end.
Proof.
  unfold run.
  apply (loop_invariant options
    (fun st _ log =>
       messages (initial_state config input) `prefix_of` messages st ∧
       Forall (fun request =>
                 messages (initial_state config input) `prefix_of` request ∧
                 request `prefix_of` messages st) (backend_requests log))
    (fun out =>
       match out with
       | (res, evs) =>
           Forall (fun request =>
                     messages (initial_state config input) `prefix_of` request ∧
                     match res with
                     | inl r => request `prefix_of` result_messages r
                     | inr _ => True
                     end) (backend_requests evs)
       end)).
  - intros st u log [_ HI]. exact HI.
  - intros st u log [Hinit Hall] _ _.
    destruct (turn _ _ _ _ _ _ _) as [[[st' u'] log']|[e log']] eqn:Hturn.
    + apply turn_continues in Hturn
        as (resp & replies & evs & _ & Hmsgs & _ & _ & -> & Hnone & _).
      assert (Hgrow : messages st `prefix_of` messages st')
        by (rewrite Hmsgs; by apply prefix_app_r).
      split; [by etrans|].
      rewrite backend_requests_call by done.
      apply Forall_app. split.
      * eapply Forall_impl; [exact Hall|]. intros request [H1 H2].
        split; [done | by etrans].
      * by repeat constructor.
    + assert (Hold : Forall (fun request =>
          messages (initial_state config input) `prefix_of` request ∧ True)
          (backend_requests log)).
      { eapply Forall_impl; [exact Hall|]. by intros request [H1 _]. }
      apply turn_fails in Hturn as [->| ->]; [done|].
      rewrite backend_requests_app. apply Forall_app. split; [done|].
      by repeat constructor.
  - split; [done | constructor].
Qed.

(** X14. The usage that a run returns is the sum of the usage reports of
    the responses to its backend calls, a response without a report
    counting for nothing; it is reported (as zeros) even when no call
    was made. *)
Theorem run_usage_is_sum (input : string) (options : option RunOptions) :
  match run JSON_stringify config hooks input options with
  | (inl r, evs) => result_usage r = Some (usage_of_log config evs)
  | (inr _, _) => True
  end.
Proof.
  unfold run.
  apply (loop_invariant options
    (fun _ u log => u = usage_of_log config log)
    (fun out =>
       match out with
       | (inl r, evs) => result_usage r = Some (usage_of_log config evs)
       | (inr _, _) => True
       end)).
  - intros st u log ->. reflexivity.
  - intros st u log -> _ _.
    destruct (turn _ _ _ _ _ _ _) as [[[st' u'] log']|[e log']] eqn:Hturn;
      [|done].
    apply turn_continues in Hturn
      as (resp & replies & evs & Hgen & _ & _ & -> & -> & Hnone & _).
    rewrite usage_of_log_call by done.
    unfold usage_of_request. by rewrite Hgen.
  - reflexivity.
Qed.

(** X15. Cancellation: when the abort signal reads as aborted at the top
    of the turn that follows [i] backend calls, the run makes at most [i]
    backend calls and does not return after more than [i] iterations; a
    signal that is aborted from the start makes the run reject with
    [Agent execution aborted] before any backend call, provided
    [maxIterations] is positive. *)
Theorem abort_stops_backend_calls (input : string) (s : AbortSignal) (i : Z) :
  0 ≤ i → aborted s i = true →
  match run JSON_stringify config hooks input (Some {| signal := Some s |}) with
  | (res, evs) =>
      Z.of_nat (length (backend_requests evs)) ≤ i ∧
      match res with
      | inl r => iterations r ≤ i
      | inr _ => True
      end ∧
      (i = 0 ∧ 0 < maxIterations_of config →
       res = Throw "Agent execution aborted" ∧ evs = [])
  end.
Proof.
  intros Hi Hab.
  destruct (run _ _ _ _ _) as [res evs] eqn:Hrun.
  assert (Hcount :
    Z.of_nat (length (backend_requests evs)) ≤ i ∧
    match res with inl r => iterations r ≤ i | inr _ => True end).
  { revert Hrun. unfold run.
    generalize (Z.to_nat (maxIterations_of config)). intros fuel Hrun.
    change (match (res, evs) with
            | (res, evs) =>
                Z.of_nat (length (backend_requests evs)) ≤ i ∧
                match res with inl r => iterations r ≤ i | inr _ => True end
            end).
    rewrite <- Hrun.
    apply (loop_invariant (Some {| signal := Some s |})
      (fun st _ log =>
         iteration st = Z.of_nat (length (backend_requests log)) ∧
         iteration st ≤ i)
      (fun out =>
         match out with
         | (res, evs) =>
             Z.of_nat (length (backend_requests evs)) ≤ i ∧
             match res with inl r => iterations r ≤ i | inr _ => True end
         end)).
    - intros st u log [Hc Hle]. simpl. lia.
    - intros st u log [Hc Hle] _ _.
      destruct (turn _ _ _ _ _ _ _) as [[[st' u'] log']|[e log']] eqn:Hturn.
      + apply turn_continues in Hturn
          as (resp & replies & evs' & _ & _ & Hit & _ & -> & Hnone & Hno).
        simpl in Hno.
        assert (iteration st ≠ i) by (intros Heq; rewrite Heq in Hno; congruence).
        rewrite backend_requests_call, length_app by done. simpl. lia.
      + destruct (Z.eq_dec (iteration st) i) as [Heq|Hne].
        * unfold turn in Hturn.
          cbn [mbind option_bind fmap option_fmap option_map default signal]
            in Hturn.
          rewrite Heq, Hab in Hturn.
          injection Hturn as _ <-. split; [lia|done].
        * apply turn_fails in Hturn as [->| ->]; [split; [lia|done]|].
          rewrite backend_requests_app, length_app. simpl. split; [lia|done].
    - simpl. lia. }
  destruct Hcount as [H1 H2]. split_and!; [done|done|].
  intros [-> Hmax]. revert Hrun. unfold run.
  destruct (Z.to_nat (maxIterations_of config)) as [|fuel] eqn:Hfuel; [lia|].
  change (loop JSON_stringify config hooks (Some {| signal := Some s |})
            (S fuel) (initial_state config input)
            {| promptTokens := 0; completionTokens := 0; totalTokens := 0 |} [])
    with (if negb (done (initial_state config input)) &&
             (iteration (initial_state config input) <? maxIterations_of config)
          then iteration_body JSON_stringify config hooks
                 (Some {| signal := Some s |})
                 (loop JSON_stringify config hooks
                    (Some {| signal := Some s |}) fuel)
                 (initial_state config input)
                 {| promptTokens := 0; completionTokens := 0; totalTokens := 0 |} []
          else (Ok (finish (initial_state config input)
                      {| promptTokens := 0; completionTokens := 0;
                         totalTokens := 0 |}), [])).
  cbn [initial_state done iteration negb andb].
  destruct (Z.ltb_spec 0 (maxIterations_of config)); [|lia].
  unfold iteration_body. cbn. rewrite Hab. by intros [= <- <-].
Qed.

(** X18. With [maxIterations] zero or negative the loop is never
    entered: the run returns at once with an empty response, the two
    initial messages, zero iterations and zero usage, makes no backend
    call and does not look at the abort signal. *)
Theorem run_without_iterations (input : string)
    (options : option RunOptions) :
  maxIterations_of config ≤ 0 →
  run JSON_stringify config hooks input options =
    (Ok {| response := EmptyString;
           result_messages :=
             [SystemMessage (systemPrompt config); UserMessage input];
           iterations := 0;
           result_usage := Some {| promptTokens := 0; completionTokens := 0;
                                   totalTokens := 0 |} |}, []).
Proof.
  intros Hmax. unfold run.
  replace (Z.to_nat (maxIterations_of config)) with 0%nat by lia.
  reflexivity.
Qed.
End Loop.

Section Rejections.
Variable JSON_stringify : JValue -> string.
Variable config : AgentConfig.

(** X16. Without hooks and without an abort signal a run rejects only
    with an error of the backend: the rejection is the error that
    [provider.generate] raised for the last request of the log.  A tool
    that is unknown or that throws never makes the run reject. *)
Theorem run_rejects_only_on_backend_error (input : string)
    (options : option RunOptions) (e : JsError) (evs : list Event) :
  options ≫= signal = None →
  run JSON_stringify config None input options = (inr e, evs) →
  ∃ request, last evs = Some (BackendCall request) ∧
             generate (provider config) request = inr e.
Proof.
  intros Hsignal Hrun.
  assert (Hloop : match run JSON_stringify config None input options with
          | (inr e, evs) =>
              ∃ request, last evs = Some (BackendCall request) ∧
                         generate (provider config) request = inr e
          | (inl _, _) => True
          end); [|by rewrite Hrun in Hloop].
  unfold run.
  apply (loop_invariant JSON_stringify config None options
    (fun _ _ _ => True)
    (fun out =>
       match out with
       | (inr e, evs) =>
           ∃ request, last evs = Some (BackendCall request) ∧
                      generate (provider config) request = inr e
       | (inl _, _) => True
       end)); [done| |done].
  intros st u log _ _ _. unfold turn. rewrite Hsignal. cbn.
  destruct (generate _ _) as [resp|e'] eqn:Hgen.
  - destruct (finishReason resp); try done.
    by destruct (dispatch _ _ _ _ _ _).
  - eexists. rewrite last_snoc. split; [reflexivity | exact Hgen].
Qed.
(** X17. A backend whose first response does not ask for tools ends the
    run after one turn, whatever the finish reason ([stop], [length] or
    [error]): without hooks and without a signal the run returns the
    system prompt, the user input and the response message, one
    iteration, the usage of that response, and it has made exactly one
    backend call and no tool execution. *)
Theorem run_single_turn (input : string) (resp : GenerateResponse) :
  1 ≤ maxIterations_of config →
  generate (provider config)
    (request_of config (messages (initial_state config input))) = inl resp →
  finishReason resp ≠ FinishToolCalls →
  run JSON_stringify config None input None =
    (Ok {| response := final_response
             (messages (initial_state config input) ++ [message resp]);
           result_messages :=
             messages (initial_state config input) ++ [message resp];
           iterations := 1;
           result_usage :=
             Some (add_usage {| promptTokens := 0; completionTokens := 0;
                                totalTokens := 0 |} (usage resp)) |},
     [BackendCall (request_of config (messages (initial_state config input)))]).
Proof.
  intros Hmax Hgen Hfinish. unfold run.
  destruct (Z.to_nat (maxIterations_of config)) as [|fuel] eqn:Hfuel; [lia|].
  change (loop JSON_stringify config None None
            (S fuel) (initial_state config input)
            {| promptTokens := 0; completionTokens := 0; totalTokens := 0 |} [])
    with (if negb (done (initial_state config input)) &&
             (iteration (initial_state config input) <? maxIterations_of config)
          then iteration_body JSON_stringify config None None
                 (loop JSON_stringify config None None fuel)
                 (initial_state config input)
                 {| promptTokens := 0; completionTokens := 0; totalTokens := 0 |} []
          else (Ok (finish (initial_state config input)
                      {| promptTokens := 0; completionTokens := 0;
                         totalTokens := 0 |}), [])).
  cbn [initial_state done iteration negb andb].
  destruct (Z.ltb_spec 0 (maxIterations_of config)); [|lia].
  unfold iteration_body. cbn [mbind option_bind fmap option_fmap option_map
    default call_hook messages iteration done error].
  unfold request_of in Hgen. rewrite Hgen. unfold Ok.
  destruct (finishReason resp) eqn:Hreason; [|done|..];
    by rewrite (loop_done JSON_stringify config None).
Qed.
End Rejections.
End AgentLaws.

Module AgentLawsWitnesses.
Import Validation Agent AgentTurn AgentLaws Examples AgentScenarios.

Lemma abort_stops_backend_calls_witness :
  match run Json.stringify (hello_config None) None "hi"
          (Some {| signal := Some aborted_signal |}) with
  | (res, evs) =>
      Z.of_nat (length (backend_requests evs)) ≤ 0 ∧
      match res with
      | inl r => iterations r ≤ 0
      | inr _ => True
      end ∧
      (0 = 0 ∧ 0 < maxIterations_of (hello_config None) →
       res = Throw "Agent execution aborted" ∧ evs = [])
  end.
Proof.
  apply (abort_stops_backend_calls Json.stringify (hello_config None) None
           "hi" aborted_signal 0); [lia | reflexivity].
Defined.

Lemma run_rejects_only_on_backend_error_witness :
  ∃ request,
    last [BackendCall (request_of failing_config
            [SystemMessage "You are a helpful assistant."; UserMessage "hi"])]
      = Some (BackendCall request) ∧
    generate (provider failing_config) request = inr (mkError "backend down").
Proof.
  apply (run_rejects_only_on_backend_error Json.stringify failing_config
           "hi" None); reflexivity.
Defined.

Lemma run_single_turn_witness :
  run Json.stringify (hello_config None) None "hi" None =
    (Ok {| response := "Hello!";
           result_messages :=
             [SystemMessage "You are a helpful assistant."; UserMessage "hi";
              AssistantMessage (Some "Hello!") None];
           iterations := 1;
           result_usage := Some {| promptTokens := 10; completionTokens := 5;
                                   totalTokens := 15 |} |},
     [BackendCall (request_of (hello_config None)
        [SystemMessage "You are a helpful assistant."; UserMessage "hi"])]).
Proof.
  apply (run_single_turn Json.stringify (hello_config None) "hi"
           {| message := AssistantMessage (Some "Hello!") None;
              usage := Some {| promptTokens := 10; completionTokens := 5;
                               totalTokens := 15 |};
              finishReason := FinishStop |});
    [vm_compute; discriminate | reflexivity | discriminate].
Defined.

Lemma run_without_iterations_witness :
  run Json.stringify idle_config None "hi"
    (Some {| signal := Some aborted_signal |}) =
    (Ok {| response := EmptyString;
           result_messages :=
             [SystemMessage "You are a helpful assistant."; UserMessage "hi"];
           iterations := 0;
           result_usage := Some {| promptTokens := 0; completionTokens := 0;
                                   totalTokens := 0 |} |}, []).
Proof.
  apply (run_without_iterations Json.stringify idle_config None "hi"
           (Some {| signal := Some aborted_signal |})).
  vm_compute. discriminate.
Defined.
End AgentLawsWitnesses.

(** ** The sequential conductor *)

Module SequentialLaws.
Import Agent Conductor Sequential.

Section SequentialLaws.
Variable config : SequentialConfig.
Variable agents : list AgentRole.
Variable options : option ConductorRunOptions.
Variable readings : nat -> bool.

Lemma steps_spec (todo : list AgentId) (k : nat) (p p' : Progress) :
  steps config agents options readings todo k p = inl p' →
  (todo = [] → p' = p) ∧
  (∀ lastId, last todo = Some lastId →
     ∃ r, JsMap.get lastId (results_so_far p') = Some r ∧
          currentInput p' = response r) ∧
  (∀ agentId, agentId ∈ JsMap.keys (results_so_far p') ↔
              agentId ∈ JsMap.keys (results_so_far p) ∨ agentId ∈ todo) ∧
  Forall (fun agentId => is_Some (findAgent agents agentId)) todo.
Proof.
  revert k p. induction todo as [|agentId rest IH]; intros k p.
  - intros [= <-]. split_and!; [done | done | set_solver | constructor].
  - cbn [steps].
    destruct (checkAbort _ _); [|discriminate].
    unfold requireAgent.
    destruct (findAgent agents agentId) as [agentRole|] eqn:Hfind;
      [|discriminate]. cbn [Ok].
    destruct (transformed config agentRole p) as [input|]; [|discriminate].
    destruct (runAgent _ _ _ _ _) as [[result|e] ctx]; [|discriminate].
    intros Hsteps. apply IH in Hsteps as (Hnil & Hlast & Hkeys & Hfound).
    cbn [results_so_far] in Hkeys. split_and!.
    + discriminate.
    + intros lastId Hl. destruct rest as [|next rest'].
      * injection Hl as <-. rewrite (Hnil eq_refl). cbn.
        exists result. split; [apply JsMapLaws.get_set_eq | done].
      * apply Hlast. exact Hl.
    + intros a. rewrite Hkeys, JsMapFacts.elem_of_keys_set. set_solver.
    + constructor; [by rewrite Hfind | done].
Qed.

(** X19. A sequential run that resolves: its response is the input
    itself when the order is empty, and otherwise the response of the
    result stored for the last agent of the order; the result mapping
    has an entry for exactly the ids of the order; every id of the order
    names an agent of the ensemble; the usage is the total over the
    stored results (so a result overwritten by a later run of the same
    agent is not counted). *)
Theorem sequential_final_response (input : string) (res : EnsembleResult) :
  orchestrate config input agents options readings = inl res →
  (order_of config agents = [] →
     ens_response res = input ∧ agentResults res = []) ∧
  (∀ lastId, last (order_of config agents) = Some lastId →
     ∃ r, JsMap.get lastId (agentResults res) = Some r ∧
          ens_response res = response r) ∧
  (∀ agentId, agentId ∈ JsMap.keys (agentResults res) ↔
              agentId ∈ order_of config agents) ∧
  Forall (fun agentId => is_Some (findAgent agents agentId))
    (order_of config agents) ∧
  ens_usage res = calculateTotalUsage (agentResults res).
Proof.
  unfold orchestrate.
  destruct (call_hook _ _); [|discriminate].
  destruct (call_hook _ _); [|discriminate].
  destruct (steps _ _ _ _ _ _ _) as [p|] eqn:Hsteps; [|discriminate].
  destruct (call_hook _ _); [|discriminate].
  destruct (call_hook _ _); [|discriminate].
  intros [= <-]. apply steps_spec in Hsteps as (Hnil & Hlast & Hkeys & Hfound).
  cbn [createEnsembleResult ens_response agentResults ens_usage].
  split_and!; [|done| |done|done].
  - intros Hempty. by rewrite (Hnil Hempty).
  - intros a. rewrite Hkeys. cbn. set_solver.
Qed.

(** The loop reads only the transformer of the configuration. *)
Lemma steps_config (config' : SequentialConfig) (todo : list AgentId)
    (k : nat) (p : Progress) :
  transform config' = transform config →
  steps config' agents options readings todo k p
  = steps config agents options readings todo k p.
Proof.
  intros Ht. revert k p. induction todo as [|agentId rest IH]; intros k p;
    [done|].
  cbn [steps]. destruct (checkAbort _ _); [|done].
  destruct (requireAgent _ _) as [agentRole|]; [|done].
  unfold transformed. rewrite Ht.
  destruct (match transform config with Some _ => _ | None => _ end);
    [|done].
  destruct (runAgent _ _ _ _ _) as [[result|e] ctx]; [|done].
  apply IH.
Qed.

(** X20. The transformer is not applied to the input of the first
    agent: a run over at most one agent is the run of the same
    configuration without transformer. *)
Theorem transform_skips_first_agent (input : string) :
  (length (order_of config agents) ≤ 1)%nat →
  orchestrate config input agents options readings
  = orchestrate (without_transform config) input agents options readings.
Proof.
  intros Hlen. unfold orchestrate.
  change (hooks (without_transform config)) with (hooks config).
  change (order_of (without_transform config) agents)
    with (order_of config agents).
  destruct (call_hook _ _); [|done].
  destruct (call_hook _ _); [|done].
  assert (Hsteps : ∀ p, JsMap.size (results_so_far p) = 0%nat →
    steps config agents options readings (order_of config agents) 0 p =
    steps (without_transform config) agents options readings
      (order_of config agents) 0 p).
  { intros p Hsize.
    destruct (order_of config agents) as [|first [|second rest]];
      [done| |simpl in Hlen; lia].
    cbn [steps]. destruct (checkAbort _ _); [|done].
    destruct (requireAgent _ _) as [agentRole|]; [|done].
    unfold transformed. rewrite Hsize. cbn.
    by destruct (transform config). }
  by rewrite Hsteps.
Qed.

(** X21. The hooks [onBeforeAgent], [onAfterAgent] and [onAgentError]
    of the conductor's configuration are never called: a run with any
    such hooks in the configuration, even hooks that throw, is the run
    without them.  (The agents are run with the hooks of the run
    options.) *)
Theorem config_agent_hooks_unused (input : string)
    (before : option (AgentId * string → Result unit))
    (after : option (AgentId * AgentResult → Result unit))
    (failed : option (AgentId * JsError → Result unit)) :
  orchestrate (with_agent_hooks config before after failed) input agents
    options readings
  = orchestrate config input agents options readings.
Proof.
  unfold orchestrate.
  change (order_of (with_agent_hooks config before after failed) agents)
    with (order_of config agents).
  change (hooks (with_agent_hooks config before after failed) ≫= onStart)
    with (hooks config ≫= onStart).
  change (hooks (with_agent_hooks config before after failed) ≫= onComplete)
    with (hooks config ≫= onComplete).
  by rewrite steps_config.
Qed.

(** X22. Fail fast: when the hooks of the run do not throw, the signal
    is not aborted at the first step and the run of the first agent of
    the order raises an error on the input, the sequential conductor
    rejects with that error, whatever the transformer and the other
    agents are. *)
Theorem first_agent_failure (input : string) (firstId : AgentId)
    (rest : list AgentId) (agentRole : AgentRole) (e : JsError) :
  never_throws (hooks config ≫= onStart) →
  silent (options ≫= run_hooks) →
  checkAbort (options ≫= run_signal) (readings 0%nat) = Ok tt →
  order_of config agents = firstId :: rest →
  findAgent agents firstId = Some agentRole →
  agent_run (agent agentRole) input
    (Some {| Agent.signal := options ≫= run_signal |}) = inr e →
  orchestrate config input agents options readings = inr e.
Proof.
  intros Hstart (Hstart' & Hbefore & _ & Herror & _) Habort Horder Hfind Hrun.
  unfold orchestrate. rewrite Hstart, Hstart', Horder. cbn [Ok steps].
  rewrite Habort. unfold requireAgent. rewrite Hfind. cbn [Ok].
  unfold transformed. cbn [results_so_far currentInput JsMap.size length].
  assert (Hin : match transform config with
                | Some f => if (0 <? 0)%nat then f input agentRole else inl input
                | None => inl input
                end = inl input) by (by destruct (transform config)).
  unfold Ok. rewrite Hin.
  unfold runAgent, agent_failed. rewrite Hbefore. cbn [Ok].
  by rewrite Hrun, Herror.
Qed.
End SequentialLaws.
End SequentialLaws.

Module SequentialLawsWitnesses.
Import Agent Conductor Sequential Examples SequentialScenarios SequentialLaws.

Lemma sequential_final_response_witness :
  ∃ res,
    orchestrate plain_pipeline "a topic" writer_then_editor None never_aborted
      = inl res ∧
    ens_response res = "the final text".
Proof.
  eexists. split; [reflexivity|].
  destruct (sequential_final_response plain_pipeline writer_then_editor None
              never_aborted "a topic" _ eq_refl) as (_ & Hlast & _).
  destruct (Hlast "editor" eq_refl) as (r & Hget & Hresp).
  rewrite Hresp. vm_compute in Hget. by injection Hget as <-.
Defined.

Lemma transform_skips_first_agent_witness :
  orchestrate throwing_transform "a topic"
    [answering_role "writer" "Writer" "a draft"] None never_aborted
  = orchestrate (without_transform throwing_transform) "a topic"
      [answering_role "writer" "Writer" "a draft"] None never_aborted.
Proof.
  apply (transform_skips_first_agent throwing_transform
           [answering_role "writer" "Writer" "a draft"] None never_aborted
           "a topic").
  vm_compute. lia.
Defined.

Lemma first_agent_failure_witness :
  orchestrate throwing_transform "a topic" broken_then_editor None never_aborted
  = inr (mkError "out of paper").
Proof.
  apply (first_agent_failure throwing_transform broken_then_editor None
           never_aborted "a topic" "writer" ["editor"]
           (failing_role "writer" "out of paper") (mkError "out of paper")).
  - intros a. reflexivity.
  - repeat split; intros a; reflexivity.
  - reflexivity.
  - reflexivity.
  - reflexivity.
  - reflexivity.
Defined.
End SequentialLawsWitnesses.

(** ** The parallel conductor and the totals of [base.ts] *)

Module ParallelLaws.
Import Agent Conductor Parallel ParallelRuns.

Lemma foldl_add_usage (results : list AgentResult) (total : Usage) :
  foldl (fun total r => add_usage total (result_usage r)) total results =
  {| promptTokens := promptTokens total + sum_usage promptTokens results;
     completionTokens :=
       completionTokens total + sum_usage completionTokens results;
     totalTokens := totalTokens total + sum_usage totalTokens results |}.
Proof.
  revert total. induction results as [|r results IH]; intros total.
  - unfold sum_usage. simpl. destruct total. simpl. f_equal; lia.
  - cbn [foldl]. rewrite IH. unfold sum_usage. csimpl.
    fold (sum_usage promptTokens results).
    fold (sum_usage completionTokens results).
    fold (sum_usage totalTokens results).
    unfold add_usage. destruct (result_usage r) as [u|]; simpl; f_equal; lia.
Qed.

Lemma sum_usage_Permutation (field : Usage → Z) (l1 l2 : list AgentResult) :
  l1 ≡ₚ l2 → sum_usage field l1 = sum_usage field l2.
Proof.
  unfold sum_usage. induction 1 as [|x l l' _ IH|x y l|l l' l'' _ IH1 _ IH2].
  - done.
  - csimpl. by rewrite IH.
  - csimpl. lia.
  - by rewrite IH1.
Qed.

(** X25. The total usage of an ensemble result is, field by field, the
    sum of the usage reports of the stored agent results, a result
    without usage counting for nothing; so it does not depend on the
    order in which the results were stored. *)
Theorem total_usage_is_order_independent
    (results1 results2 : JsMap.t AgentId AgentResult) :
  results1 ≡ₚ results2 →
  calculateTotalUsage results1 =
    {| promptTokens := sum_usage promptTokens (JsMap.values results1);
       completionTokens := sum_usage completionTokens (JsMap.values results1);
       totalTokens := sum_usage totalTokens (JsMap.values results1) |} ∧
  calculateTotalUsage results1 = calculateTotalUsage results2.
Proof.
  intros Hperm. unfold calculateTotalUsage. rewrite !foldl_add_usage.
  cbn [promptTokens completionTokens totalTokens]. rewrite !Z.add_0_l.
  split; [done|].
  assert (Hvalues : JsMap.values results1 ≡ₚ JsMap.values results2)
    by (unfold JsMap.values; by rewrite Hperm).
  by rewrite !(sum_usage_Permutation _ _ _ Hvalues).
Qed.

Section Modes.
Variable config : ParallelConfig.
Variable input : string.
Variable agents : list AgentRole.
Variable options : option ConductorRunOptions.

Lemma settle_retry (agentsToRun : list AgentRole) (schedule : list Settled)
    (acc : Collected) :
  settle (with_errorMode (Some Retry) config) input agentsToRun options
    schedule acc
  = settle (with_errorMode None config) input agentsToRun options schedule acc.
Proof.
  revert acc. induction schedule as [|s rest IH]; intros acc; [done|].
  cbn [settle]. destruct (agentsToRun !! task s) as [agentRole|]; [|apply IH].
  destruct (checkAbort _ _); [|done].
  destruct (runAgent _ _ _ _ _) as [[result|err] ctx]; cbn; apply IH.
Qed.

(** X23. The error mode [retry] never retries anything: a parallel run
    with [errorMode: "retry"] is, for every schedule, the run of the
    same configuration with no error mode. *)
Theorem retry_mode_is_default_mode (schedule : list Settled) :
  orchestrate (with_errorMode (Some Retry) config) input agents options schedule
  = orchestrate (with_errorMode None config) input agents options schedule.
Proof.
  unfold orchestrate.
  change (hooks (with_errorMode (Some Retry) config)) with (hooks config).
  change (hooks (with_errorMode None config)) with (hooks config).
  change (agentsToRun_of (with_errorMode (Some Retry) config) agents)
    with (agentsToRun_of config agents).
  change (agentsToRun_of (with_errorMode None config) agents)
    with (agentsToRun_of config agents).
  by rewrite settle_retry.
Qed.

Hypothesis run_hooks_silent : silent (options ≫= run_hooks).




End Modes.
End ParallelLaws.

Module ParallelLawsWitnesses.
Import Agent Conductor Parallel ParallelRuns Examples ParallelScenarios
  ParallelLaws.

Lemma total_usage_is_order_independent_witness :
  calculateTotalUsage [("a", costing "x" 10); ("b", costing "y" 20)]
  = calculateTotalUsage [("b", costing "y" 20); ("a", costing "x" 10)].
Proof.
  apply (total_usage_is_order_independent
           [("a", costing "x" 10); ("b", costing "y" 20)]
           [("b", costing "y" 20); ("a", costing "x" 10)]).
  apply perm_swap.
Defined.

End ParallelLawsWitnesses.

(** ** The voting conductor *)

Module VotingLaws.
Import Agent Conductor Voting VotingChoice.

Lemma elem_of_set {K : Type} `{EqDecision K} {X : Type} (k : K) (v : X)
    (m : JsMap.t K X) (e : K * X) :
  e ∈ JsMap.set k v m → e = (k, v) ∨ e ∈ m.
Proof.
  induction m as [|[k' v'] rest IH]; simpl.
  - intros ->%list_elem_of_singleton. by left.
  - destruct (bool_decide (k' = k)) eqn:Hk.
    + apply bool_decide_eq_true in Hk as ->.
      intros [->|Hin]%elem_of_cons; [by left | right; by right].
    + intros [->|Hin]%elem_of_cons; [right; by left|].
      destruct (IH Hin) as [->|Hrest]; [by left | right; by right].
Qed.

Section RankedTally.
Variable opts : list string.

(** Every option that is counted in a round is still in the race. *)
Lemma counted_is_remaining (remaining : list string)
    (ballots : list (list nat)) (e : nat * nat) :
  e ∈ count_first_choices opts remaining ballots →
  ∃ opt, opts !! e.1 = Some opt ∧ opt ∈ remaining.
Proof.
  unfold count_first_choices.
  assert (Hinv : ∀ acc : JsMap.t nat nat,
    (∀ e, e ∈ acc → ∃ opt, opts !! e.1 = Some opt ∧ opt ∈ remaining) →
    ∀ e, e ∈ foldl (fun counts ballot =>
                      match firstChoice opts remaining ballot with
                      | Some first =>
                          JsMap.set first
                            (default 0%nat (JsMap.get first counts) + 1)%nat counts
                      | None => counts
                      end) acc ballots →
         ∃ opt, opts !! e.1 = Some opt ∧ opt ∈ remaining).
  { induction ballots as [|ballot rest IH]; intros acc Hacc; [exact Hacc|].
    cbn [foldl]. apply IH.
    destruct (firstChoice opts remaining ballot) as [first|] eqn:Hfirst;
      [|exact Hacc].
    intros e' [->|Hin]%elem_of_set; [|by apply Hacc].
    unfold firstChoice in Hfirst. apply find_some in Hfirst as [_ Hgood].
    cbn. destruct (opts !! first) as [opt|]; [|discriminate].
    exists opt. split; [done|]. by apply bool_decide_eq_true in Hgood. }
  apply Hinv. intros e' Hin. by apply elem_of_nil in Hin.
Qed.

Lemma lowest_is_counted (counts : JsMap.t nat nat) (e : nat * nat) :
  lowest counts = Some e → e ∈ counts.
Proof.
  unfold lowest.
  assert (Hinv : ∀ (l : JsMap.t nat nat) (best : option (nat * nat)),
    foldl (fun best e =>
             match best with
             | Some (_, minCount) =>
                 if (snd e <? minCount)%nat then Some e else best
             | None => Some e
             end) best l = Some e →
    e ∈ l ∨ best = Some e).
  { induction l as [|x l IH]; intros best; cbn [foldl]; [by right|].
    intros Hfold. apply IH in Hfold as [Hin|Hbest]; [left; by right|].
    destruct best as [[i minCount]|].
    - destruct (snd x <? minCount)%nat.
      + injection Hbest as ->. left. by left.
      + by right.
    - injection Hbest as ->. left. by left. }
  intros Hlow. by destruct (Hinv counts None Hlow).
Qed.

Lemma Set_delete_removes (x : string) (s : list string) :
  x ∈ s → Set_delete x s ≠ s.
Proof.
  intros Hin Heq. rewrite <- Heq in Hin. unfold Set_delete in Hin.
  apply list_elem_of_In, filter_In in Hin as [_ Hx].
  by rewrite bool_decide_eq_true_2 in Hx.
Qed.

(** X26. The ranked (instant-runoff) tally terminates with a result
    when no option is the empty string: every pass of its loop either
    returns or removes an option that is still in the race, so the loop
    makes at most as many passes as there are options. *)
Theorem ranked_tally_terminates (votes : list Vote) :
  Forall (fun opt => opt ≠ EmptyString) opts →
  ∃ result, tallyVotes_ranked opts votes = Some result.
Proof.
  intros Hnonempty.
  destruct (tallyVotes_ranked opts votes) as [result|] eqn:Htally; [by eexists|].
  exfalso.
  apply VotingFacts.tallyVotes_ranked_none_is_stuck in Htally
    as (stuck & _ & Hround).
  unfold runoff_round in Hround.
  destruct (majority _) as [[? ?]|]; [discriminate|].
  destruct (lowest _) as [[toEliminate count]|] eqn:Hlow; [|discriminate].
  apply lowest_is_counted, counted_is_remaining in Hlow as (opt & Hopt & Hin).
  cbn in Hopt. rewrite Hopt in Hround.
  assert (Hne : opt ≠ EmptyString).
  { exact (Forall_lookup_1 _ _ _ _ Hnonempty Hopt). }
  rewrite bool_decide_eq_false_2 in Hround by done.
  injection Hround as Hround. by apply Set_delete_removes in Hround.
Qed.
End RankedTally.

Lemma take_digits_digit (s : string) :
  starts_with_digit s = true → starts_with_digit (take_digits s) = true.
Proof.
  destruct s as [|c rest]; [done|]. simpl. intros Hc. by rewrite Hc.
Qed.

Lemma first_digits_digit (s digits : string) :
  first_digits s = Some digits → starts_with_digit digits = true.
Proof.
  induction s as [|c rest IH]; [done|]. cbn [first_digits].
  destruct (is_digit c) eqn:Hc; [|exact IH].
  intros [= <-]. apply (take_digits_digit (String c rest)). exact Hc.
Qed.

Lemma trimStart_digit (s : string) :
  starts_with_digit s = true → trimStart s = s.
Proof.
  destruct s as [|c rest]; [done|]. simpl. intros Hc.
  assert (Hspace : is_space c = false); [|by rewrite Hspace].
  unfold is_digit in Hc. unfold is_space.
  apply andb_true_iff in Hc as [H1 H2].
  apply Nat.leb_le in H1. apply Nat.leb_le in H2.
  apply orb_false_iff. split; [apply orb_false_iff; split|].
  - apply Nat.eqb_neq. lia.
  - apply andb_false_iff. right. apply Nat.leb_gt. lia.
  - apply Nat.eqb_neq. lia.
Qed.

Lemma parseInt_digits (digits : string) :
  starts_with_digit digits = true → is_Some (parseInt digits).
Proof.
  intros Hd. unfold parseInt. rewrite (trimStart_digit _ Hd).
  destruct digits as [|c rest]; [done|].
  assert (Hminus : c ≠ "-"%char) by (intros ->; discriminate).
  assert (Hplus : c ≠ "+"%char) by (intros ->; discriminate).
  destruct (Ascii.ascii_dec c "-") as [->|_]; [done|].
  destruct (Ascii.ascii_dec c "+") as [->|_]; [done|].
  destruct c as [[] [] [] [] [] [] [] []]; try done; by rewrite Hd.
Qed.

Lemma ranks_of_valid (responseText : string) (votingOptions : list string) :
  Forall (fun i => (i < length votingOptions)%nat)
    (ranks_of responseText votingOptions).
Proof.
  unfold ranks_of. apply list.Forall_forall. intros i Hin.
  apply list_elem_of_omap in Hin as (piece & _ & Hsome).
  destruct (parseInt (trim piece)) as [n|]; [|discriminate].
  cbv zeta in Hsome.
  destruct ((0 <=? n - 1) && (n - 1 <? Z.of_nat (length votingOptions)))
    eqn:Hrange; [|discriminate].
  apply andb_true_iff in Hrange as [H1 H2].
  apply Z.leb_le in H1. apply Z.ltb_lt in H2.
  injection Hsome as <-. lia.
Qed.

Lemma parseInt_digits_value (digits : string) :
  starts_with_digit digits = true →
  parseInt digits = Some (digits_value 0 digits).
Proof.
  intros Hd. unfold parseInt. rewrite (trimStart_digit _ Hd).
  destruct digits as [|c rest]; [done|].
  destruct (Ascii.ascii_dec c "-") as [->|_]; [done|].
  destruct (Ascii.ascii_dec c "+") as [->|_]; [done|].
  destruct c as [[] [] [] [] [] [] [] []]; try done; by rewrite Hd.
Qed.

(** What [match(/(\d+)/)] finds: the text before it has no digit, the
    match is a non-empty run of digits, and the run is maximal. *)
Lemma take_digits_spec (s : string) :
  ∃ post, s = take_digits s +:+ post ∧
          all_chars is_digit (take_digits s) = true ∧
          starts_with_digit post = false.
Proof.
  induction s as [|c rest (post & Hrest & Hall & Hpost)].
  - by exists EmptyString.
  - cbn [take_digits]. destruct (is_digit c) eqn:Hc.
    + exists post. split_and!; [|cbn; by rewrite Hc, Hall|done].
      change (String c rest = String c (take_digits rest +:+ post)).
      by rewrite <- Hrest.
    + exists (String c rest). cbn. by rewrite Hc.
Qed.

Lemma first_digits_spec (s digits : string) :
  first_digits s = Some digits →
  ∃ pre post, s = pre +:+ digits +:+ post ∧
    all_chars (fun c => negb (is_digit c)) pre = true ∧
    starts_with_digit digits = true ∧
    all_chars is_digit digits = true ∧
    starts_with_digit post = false.
Proof.
  induction s as [|c rest IH]; [done|]. cbn [first_digits].
  destruct (is_digit c) eqn:Hc.
  - intros [= <-].
    destruct (take_digits_spec (String c rest)) as (post & Hs & Hall & Hpost).
    exists EmptyString, post. split_and!; [exact Hs | done | | done | done].
    apply (take_digits_digit (String c rest)). exact Hc.
  - intros Hrest. destruct (IH Hrest) as (pre & post & -> & Hpre & H1 & H2 & H3).
    exists (String c pre), post.
    split_and!; [reflexivity | cbn; by rewrite Hc, Hpre | done..].
Qed.

Lemma first_digits_none (s : string) :
  first_digits s = None ↔ all_chars (fun c => negb (is_digit c)) s = true.
Proof.
  induction s as [|c rest IH]; [done|]. cbn.
  destruct (is_digit c); cbn; [split; discriminate | exact IH].
Qed.

(** X27. What [collectVote] makes of a voter's answer, there being at
    least one option.  A single choice: when the trimmed answer has no
    digit the choice is the first option; otherwise the answer is some
    text without digit, then a maximal non-empty run of digits, then the
    rest, and the choice is the option whose number is the decimal value
    of that run, clamped to the first and the last option.  A ranked
    ballot: its ranks are, in the order of the answer, the pieces
    between commas and white space that read as the number of an option,
    less one; its choice is the option of its first rank, or the first
    option when it has no rank.  In both cases the choice is one of the
    options. *)
Theorem collected_choice_is_an_option (voter : AgentRole) (response : string)
    (votingOptions : list string) :
  votingOptions ≠ [] →
  choice (single_vote voter response votingOptions) ∈ votingOptions ∧
  (first_digits (trim response) = None ↔
   all_chars (fun c => negb (is_digit c)) (trim response) = true) ∧
  (first_digits (trim response) = None →
   Some (choice (single_vote voter response votingOptions))
     = votingOptions !! 0%nat) ∧
  (∀ digits, first_digits (trim response) = Some digits →
     (∃ pre post, trim response = pre +:+ digits +:+ post ∧
        all_chars (fun c => negb (is_digit c)) pre = true ∧
        starts_with_digit digits = true ∧
        all_chars is_digit digits = true ∧
        starts_with_digit post = false) ∧
     Some (choice (single_vote voter response votingOptions))
       = votingOptions !! Z.to_nat
           (Z.max 0 (Z.min (digits_value 0 digits - 1)
                           (Z.of_nat (length votingOptions) - 1)))) ∧
  choice (ranked_vote voter response votingOptions) ∈ votingOptions ∧
  rank (ranked_vote voter response votingOptions)
    = Some (omap (fun piece =>
                    parseInt (trim piece) ≫= fun n =>
                    if decide (1 ≤ n ≤ Z.of_nat (length votingOptions))
                    then Some (Z.to_nat (n - 1)) else None)
                 (split_ranks (trim response))) ∧
  Some (choice (ranked_vote voter response votingOptions))
    = votingOptions !! default 0%nat
        (head (default [] (rank (ranked_vote voter response votingOptions)))) ∧
  Forall (fun i => (i < length votingOptions)%nat)
    (default [] (rank (ranked_vote voter response votingOptions))).
Proof.
  intros Hne.
  assert (Hlen : (0 < length votingOptions)%nat)
    by (destruct votingOptions; [done | simpl; lia]).
  assert (Hsingle : ∀ digits, first_digits (trim response) = Some digits →
    Some (choice (single_vote voter response votingOptions))
      = votingOptions !! Z.to_nat
          (Z.max 0 (Z.min (digits_value 0 digits - 1)
                          (Z.of_nat (length votingOptions) - 1)))).
  { intros digits Hdigits. unfold single_vote, validIndex_of. cbn [choice].
    rewrite Hdigits.
    rewrite (parseInt_digits_value digits (first_digits_digit _ _ Hdigits)).
    csimpl.
    destruct (lookup_lt_is_Some_2 votingOptions
      (Z.to_nat (Z.max 0 (Z.min (digits_value 0 digits - 1)
                                (Z.of_nat (length votingOptions) - 1)))))
      as [opt Hopt]; [lia|].
    by rewrite Hopt. }
  assert (Hnone : first_digits (trim response) = None →
    Some (choice (single_vote voter response votingOptions))
      = votingOptions !! 0%nat).
  { intros Hnone. unfold single_vote, validIndex_of. cbn [choice].
    rewrite Hnone. csimpl.
    replace (Z.to_nat (Z.max 0 (Z.min 0 (Z.of_nat (length votingOptions) - 1))))
      with 0%nat by lia.
    destruct votingOptions; [done | reflexivity]. }
  assert (Hranked :
    Some (choice (ranked_vote voter response votingOptions))
      = votingOptions !! default 0%nat
          (head (default [] (rank (ranked_vote voter response votingOptions))))).
  { unfold ranked_vote. cbn [choice rank default].
    pose proof (ranks_of_valid (trim response) votingOptions) as Hvalid.
    destruct (ranks_of (trim response) votingOptions) as [|i ranks]; cbn.
    - destruct votingOptions as [|opt rest]; [done | reflexivity].
    - apply Forall_cons in Hvalid as [Hi _].
      destruct (lookup_lt_is_Some_2 votingOptions i Hi) as [opt Hopt].
      by rewrite Hopt. }
  split_and!.
  - destruct (first_digits (trim response)) as [digits|] eqn:Hdigits.
    + eapply list_elem_of_lookup_2. symmetry. by apply Hsingle.
    + eapply list_elem_of_lookup_2. symmetry. by apply Hnone.
  - apply first_digits_none.
  - exact Hnone.
  - intros digits Hdigits. split; [by apply first_digits_spec | by apply Hsingle].
  - eapply list_elem_of_lookup_2. symmetry. exact Hranked.
  - unfold ranked_vote, ranks_of. cbn [rank]. f_equal.
    apply list_omap_ext, Forall2_same_length_lookup. split; [done|].
    intros i piece piece' Hp Hp'. rewrite Hp in Hp'. injection Hp' as <-.
    destruct (parseInt (trim piece)) as [n|]; [|done]. cbn.
    destruct (decide (1 ≤ n ≤ Z.of_nat (length votingOptions))) as [Hin|Hout].
    + destruct (Z.leb_spec 0 (n - 1)); [|lia].
      destruct (Z.ltb_spec (n - 1) (Z.of_nat (length votingOptions))); [done|lia].
    + destruct (Z.leb_spec 0 (n - 1)); [|done].
      destruct (Z.ltb_spec (n - 1) (Z.of_nat (length votingOptions))); [lia|done].
  - exact Hranked.
  - cbn. apply ranks_of_valid.
Qed.

(** X28. The winner of the [majority] and [weighted] counts is the
    first choice, in the order in which the choices were first voted
    for, whose count is the largest and positive: every earlier choice
    has a strictly smaller count and every later one has no larger
    count.  When no count is positive the winner is the first option,
    with count zero. *)
Theorem select_winner_is_first_maximum (votingOptions : list string)
    (counts : JsMap.t string Q) :
  (select_winner votingOptions counts = (votingOptions !! 0%nat, 0%Q) ∧
   Forall (fun e => (snd e <= 0)%Q) counts) ∨
  (∃ before winner maxCount after,
     counts = before ++ (winner, maxCount) :: after ∧
     select_winner votingOptions counts = (Some winner, maxCount) ∧
     (0 < maxCount)%Q ∧
     Forall (fun e => (snd e < maxCount)%Q) before ∧
     Forall (fun e => (snd e <= maxCount)%Q) after).
Proof.
  unfold select_winner.
  induction counts as [|[c n] counts IH] using rev_ind.
  - left. by split.
  - rewrite foldl_app. cbn [foldl].
    destruct IH as [[-> Hall]|(before & w & m & after & -> & -> & Hpos & Hb & Ha)];
      cbn [snd fst].
    + destruct (Qlt_le_dec 0 n) as [Hlt|Hle].
      * right. exists counts, c, n, []. split_and!; [done|done|done| |done].
        eapply Forall_impl; [exact Hall|]. intros e He. cbn in He.
        eapply Qle_lt_trans; eauto.
      * left. split; [done|]. apply Forall_app. split; [done|].
        by repeat constructor.
    + destruct (Qlt_le_dec m n) as [Hlt|Hle].
      * right. exists (before ++ (w, m) :: after), c, n, [].
        split_and!; [done | done | by eapply Qlt_trans | | done].
        apply Forall_app. split.
        -- eapply Forall_impl; [exact Hb|]. intros e He. cbn in He.
           by eapply Qlt_trans.
        -- constructor; [done|].
           eapply Forall_impl; [exact Ha|]. intros e He. cbn in He.
           by eapply Qle_lt_trans.
      * right. exists before, w, m, (after ++ [(c, n)]).
        rewrite <- app_assoc. split_and!; [done..|].
        apply Forall_app. split; [done|]. by repeat constructor.
Qed.

(** X30. The quorum test at its edges: with no active voter it passes
    for every quorum, and with a quorum above 1 and at least one active
    voter it always fails. *)
Theorem quorum_edges (config : VotingConfig) (agents : list AgentRole) :
  (voters_of config agents = [] → check_quorum config agents = Ok []) ∧
  ((1 < default (1 # 2) (quorum config))%Q → voters_of config agents ≠ [] →
   ∃ e, check_quorum config agents = inr e).
Proof.
  split.
  - intros Hnil. unfold check_quorum. rewrite Hnil.
    assert (Hzero : minVoters_of config [] = 0).
    { unfold minVoters_of.
      destruct (default (1 # 2)%Q (quorum config)) as [a b]. reflexivity. }
    by rewrite Hzero.
  - intros Hq Hne. unfold check_quorum, minVoters_of.
    set (n := length (voters_of config agents)).
    assert (Hn : (0 < n)%nat)
      by (subst n; destruct (voters_of config agents); [done | simpl; lia]).
    assert (Hlt : Z.of_nat n
                  < Qceiling (inject_Z (Z.of_nat n) * default (1 # 2) (quorum config))).
    { destruct (default (1 # 2)%Q (quorum config)) as [a b].
      apply Z.lt_le_trans with (Z.of_nat n + 1 - 1 + 1); [lia|].
      assert (Hlt : (inject_Z (Z.of_nat n) < inject_Z (Z.of_nat n) * (a # b))%Q).
      { unfold Qlt in *. simpl in *. nia. }
      pose proof (Qle_ceiling (inject_Z (Z.of_nat n) * (a # b))) as Hc.
      pose proof (Qlt_le_trans _ _ _ Hlt Hc) as Hlt'.
      rewrite <- Zlt_Qlt in Hlt'. lia. }
    apply Z.ltb_lt in Hlt. rewrite Hlt. by eexists.
Qed.
End VotingLaws.

Module VotingLawsWitnesses.
Import Agent Conductor Voting VotingChoice Examples VotingLaws.

Lemma ranked_tally_terminates_witness :
  ∃ result,
    tallyVotes_ranked ["tea"; "coffee"; "water"]
      (scenario_votes ["tea"; "coffee"; "water"]) = Some result.
Proof.
  apply (ranked_tally_terminates ["tea"; "coffee"; "water"]
           (scenario_votes ["tea"; "coffee"; "water"])).
  repeat constructor; discriminate.
Defined.

Lemma collected_choice_is_an_option_witness :
  choice (single_vote (voter "v1") "I pick 7." ["tea"; "coffee"])
    ∈ ["tea"; "coffee"] ∧
  Some (choice (single_vote (voter "v1") "I pick 7." ["tea"; "coffee"]))
    = ["tea"; "coffee"] !! 1%nat ∧
  Some (choice (ranked_vote (voter "v1") "2, 1" ["tea"; "coffee"]))
    = ["tea"; "coffee"] !! 1%nat.
Proof.
  destruct (collected_choice_is_an_option (voter "v1") "I pick 7."
              ["tea"; "coffee"]) as (Hin & _ & _ & Hdigits & _);
    [discriminate|].
  destruct (collected_choice_is_an_option (voter "v1") "2, 1"
              ["tea"; "coffee"]) as (_ & _ & _ & _ & _ & _ & Hranked & _);
    [discriminate|].
  split_and!; [exact Hin | exact (proj2 (Hdigits "7" eq_refl)) | exact Hranked].
Defined.
End VotingLawsWitnesses.

(** ** The ensemble builder *)

Module EnsembleLaws.
Import Agent Conductor Ensemble.

Lemma findAgent_unique (agents : list AgentRole) (r : AgentRole) :
  NoDup (id <$> agents) → r ∈ agents → findAgent agents (id r) = Some r.
Proof.
  unfold findAgent. induction agents as [|a agents IH]; csimpl.
  - intros _ Hin. by apply elem_of_nil in Hin.
  - intros [Hnotin Hnd]%NoDup_cons [->|Hin]%elem_of_cons.
    + by rewrite String.eqb_refl.
    + destruct (String.eqb_spec (id a) (id r)) as [Heq|_]; [|by apply IH].
      exfalso. apply Hnotin. rewrite Heq.
      apply list_elem_of_fmap. by exists r.
Qed.

Lemma add_spec (a : Agent) (options : option AddOptions)
    (b b' : EnsembleBuilder) :
  add a options b = inl b' →
  id_for a options ∉ id <$> builder_agents b ∧
  id <$> builder_agents b' = (id <$> builder_agents b) ++ [id_for a options] ∧
  ensembleName b' = ensembleName b.
Proof.
  unfold add.
  destruct (existsb _ _) eqn:Hex; [discriminate|].
  intros [= <-]. cbn. rewrite fmap_app. split_and!; [|done|done].
  intros Hin. apply list_elem_of_fmap in Hin as (r & Hid & Hr).
  apply not_true_iff_false in Hex. apply Hex, existsb_exists.
  exists r. split; [by apply list_elem_of_In|].
  apply String.eqb_eq. by symmetry.
Qed.

(** X29. The ids of a built ensemble are distinct: starting from a
    builder whose agents have distinct ids (the empty builder of
    [ensemble()] in particular), a chain of [add] calls of which none
    throws appends one agent per call, under the id given in the options
    or else the name of the agent, and keeps the ids distinct; [build]
    then succeeds only with a non-empty name and at least one agent, and
    in the ensemble it hands on every agent is the one that [findAgent]
    returns for its id. *)
Theorem built_ensemble_has_distinct_ids
    (entries : list (Agent * option AddOptions))
    (b b' : EnsembleBuilder) (cfg : EnsembleConfig) :
  NoDup (id <$> builder_agents b) →
  add_all entries b = inl b' →
  build b' = inl cfg →
  NoDup (id <$> ensemble_agents cfg) ∧
  id <$> ensemble_agents cfg
    = (id <$> builder_agents b) ++ ((fun e => id_for e.1 e.2) <$> entries) ∧
  ensemble_agents cfg ≠ [] ∧
  ensemble_name cfg = ensembleName b ∧ ensemble_name cfg ≠ EmptyString ∧
  (∀ r, r ∈ ensemble_agents cfg →
        findAgent (ensemble_agents cfg) (id r) = Some r).
Proof.
  intros Hnd Hadd Hbuild.
  assert (Hall : NoDup (id <$> builder_agents b') ∧
                 id <$> builder_agents b'
                   = (id <$> builder_agents b)
                     ++ ((fun e => id_for e.1 e.2) <$> entries) ∧
                 ensembleName b' = ensembleName b).
  { clear Hbuild. revert b Hnd Hadd.
    induction entries as [|[a options] rest IH]; intros b Hnd.
    - intros [= <-]. by rewrite app_nil_r.
    - cbn [add_all]. destruct (add a options b) as [b1|] eqn:Hone; [|discriminate].
      apply add_spec in Hone as (Hfresh & Hids & Hname).
      intros Hrest. apply IH in Hrest as (H1 & H2 & H3).
      + split_and!; [done| |congruence].
        rewrite H2, Hids, <- app_assoc. reflexivity.
      + rewrite Hids. apply NoDup_app. split_and!; [done| |apply NoDup_singleton].
        intros x Hx ->%list_elem_of_singleton. done. }
  destruct Hall as (Hdistinct & Hids & Hname).
  unfold build in Hbuild.
  destruct (ensembleName b') as [|c n] eqn:Hn; [discriminate|].
  destruct (Nat.eqb_spec (length (builder_agents b')) 0) as [|Hlen];
    [discriminate|].
  injection Hbuild as <-. cbn. split_and!; try done.
  - intros Hnil. by rewrite Hnil in Hlen.
  - intros r Hr. by apply findAgent_unique.
Qed.
End EnsembleLaws.

Module EnsembleLawsWitnesses.
Import Agent Conductor Ensemble EnsembleScenarios EnsembleLaws.

Lemma built_ensemble_has_distinct_ids_witness :
  ∃ cfg,
    build (mkEnsembleBuilder "team" None
             [mkAgentRole "a" hello_agent None None None;
              mkAgentRole "assistant" hello_agent None None None]) = inl cfg ∧
    NoDup (id <$> ensemble_agents cfg).
Proof.
  eexists. split; [reflexivity|].
  apply (built_ensemble_has_distinct_ids
           [(hello_agent, as_id "a"); (hello_agent, None)]
           (set_name "team" ensemble) _ _ (NoDup_nil_2 : NoDup (id <$> []))
           eq_refl eq_refl).
Defined.
End EnsembleLawsWitnesses.
